(** * Carver: rotary toolpath generation (carver/helpers.py, cam.py, jobs.py)

    A shallow embedding of the toolpath generator.  A float is modelled by
    the rational number it holds ([Q]), and every floating-point operation
    by the exact operation followed by the rounding of its format: double
    precision for Python's floats, single precision for the components of
    [mathutils.Vector] and [mathutils.Euler].  Infinities and NaN are not
    modelled: the numbers are finite and stay in range.  Calls into the host
    3D environment (ray casting, plane bisection, vector normalisation,
    track-to orientation) are parameters of the development. *)

From Stdlib Require Import ZArith QArith Qround Qpower Qabs Lqa Lia.
From stdpp Require Import base option list strings gmap.

Local Open Scope Q_scope.

(** ** Exceptions, divergence and state *)

(** The exceptions the modelled code raises. *)
Inductive exn : Type :=
  | ValueError | NotImplementedError | ZeroDivisionError
  | AssertionError | IndexError | AttributeError | TypeError.

(** The result of running a piece of code: a value, a raised exception, or
    [Div] when the iteration budget of a [while True] loop ran out. *)
Inductive res (A : Type) : Type :=
  | Val (a : A)
  | Exc (e : exn)
  | Div.
Arguments Val {A} a.
Arguments Exc {A} e.
Arguments Div {A}.

Definition res_bind {A B : Type} (f : A -> res B) (r : res A) : res B :=
  match r with
  | Val a => f a
  | Exc e => Exc e
  | Div => Div
  end.

#[export] Instance res_mret : MRet res := fun _ a => Val a.
#[export] Instance res_mbind : MBind res := fun _ _ f r => res_bind f r.

(** Code that mutates the attributes of [self]: the state [S] is threaded
    through, and survives a raised exception. *)
Definition M (S A : Type) : Type := S -> res A * S.

Definition M_bind {S A B : Type} (f : A -> M S B) (c : M S A) : M S B :=
  fun s => match c s with
           | (Val a, s') => f a s'
           | (Exc e, s') => (Exc e, s')
           | (Div, s') => (Div, s')
           end.

#[export] Instance M_mret {S} : MRet (M S) := fun _ a s => (Val a, s).
#[export] Instance M_mbind {S} : MBind (M S) := fun _ _ f c => M_bind f c.

Definition get_self {S} : M S S := fun s => (Val s, s).
Definition set_self {S} (f : S -> S) : M S unit := fun s => (Val tt, f s).
Definition lift {S A} (r : res A) : M S A := fun s => (r, s).

(** [for x in xs: body x] *)
Fixpoint for_each {S A} (xs : list A) (body : A -> M S unit) : M S unit :=
  match xs with
  | [] => mret tt
  | x :: rest => body x ;; for_each rest body
  end.

(** ** Floating-point numbers *)

(** A binary format: [prec] bits of significand, and [emin] the exponent of
    the last bit of the subnormal numbers. *)
Record format : Type := mkFormat { prec : Z; emin : Z }.

(** IEEE 754 single and double precision. *)
Definition binary32 : format := mkFormat 24 (-149).
Definition binary64 : format := mkFormat 53 (-1074).

Definition pow2 (e : Z) : Q := 2 ^ e.

(** The integer part of the binary logarithm of a positive number. *)
Definition ilog2 (x : Q) : Z :=
  let c := (Z.log2 (Qnum x) - Z.log2 (Zpos (Qden x)))%Z in
  if Qle_bool (pow2 c) x then c else (c - 1)%Z.

(** The nearest integer, the even one on a tie. *)
Definition rne (s : Q) : Z :=
  let f := Qfloor s in
  match Qcompare (s - inject_Z f) (1 # 2) with
  | Lt => f
  | Gt => (f + 1)%Z
  | Eq => if Z.even f then f else (f + 1)%Z
  end.

(** The exponent of the last bit of the significand of [x] in the format. *)
Definition fexp (f : format) (x : Q) : Z :=
  Z.max (ilog2 (Qabs x) - (prec f - 1)) (emin f).

(** Rounding to the nearest number of the format, ties to even; the
    result is given in lowest terms. *)
Definition round (f : format) (x : Q) : Q :=
  if Qeq_bool x 0 then 0
  else Qred (inject_Z (rne (x / pow2 (fexp f x))) * pow2 (fexp f x)).

(** [n] is an integer nearest to [s], and even if there are two. *)
Definition nearest_even (s : Q) (n : Z) : Prop :=
  Qabs (inject_Z n - s) < 1 # 2 \/
  (Qabs (inject_Z n - s) == 1 # 2 /\ Z.even n = true).

(** The numbers of a format. *)
Definition representable (f : format) (x : Q) : Prop :=
  exists m e : Z,
    x == inject_Z m * pow2 e /\ (Z.abs m < 2 ^ prec f)%Z /\ (emin f <= e)%Z.

(** The result of an operation on C [float]s, and on doubles. *)
Definition f32 : Q -> Q := round binary32.
Definition f64 : Q -> Q := round binary64.

(** The double that a decimal literal of the source denotes. *)
Definition py_float (q : Q) : Q := f64 q.

(** [math.pi], the double 0x400921FB54442D18, and [2*math.pi]. *)
Definition math_pi : Q := 884279719003555 # 281474976710656.
Definition two_pi : Q := f64 (2 * math_pi).

(** C's [fmod]: the remainder of the division truncated towards zero; it
    is exact. *)
Definition Qtrunc (x : Q) : Z := if Qlt_le_dec x 0 then Qceiling x else Qfloor x.
Definition fmod (x y : Q) : Q := x - y * inject_Z (Qtrunc (x / y)).

(** Python's [v % w] on floats, for [w] other than 0 (ZeroDivisionError
    otherwise; the only divisor here is [2*math.pi]): the remainder of
    [fmod], moved to the sign of [w] by one addition. *)
Definition py_mod (v w : Q) : Q :=
  let r := fmod v w in
  if Qeq_bool r 0 then 0
  else if negb (Bool.eqb (if Qlt_le_dec w 0 then true else false)
                         (if Qlt_le_dec r 0 then true else false))
       then f64 (r + w)
       else r.

(** ** mathutils.Vector and mathutils.Euler

    Both hold single-precision components; their arithmetic is that of C
    [float]s, and a number assigned to a component is rounded to single
    precision. *)

Record Vector : Type := mkVector { vx : Q; vy : Q; vz : Q }.
Record Euler : Type := mkEuler { e0 : Q; e1 : Q; e2 : Q }.

(** [a + b] and [a - b] *)
Definition vadd (a b : Vector) : Vector :=
  mkVector (f32 (vx a + vx b)) (f32 (vy a + vy b)) (f32 (vz a + vz b)).
Definition vsub (a b : Vector) : Vector :=
  mkVector (f32 (vx a - vx b)) (f32 (vy a - vy b)) (f32 (vz a - vz b)).
(** A Python number as a C [float]: converted to a double, then cast. *)
Definition as_float (k : Q) : Q := f32 (f64 k).

(** [a * k] and [k * a] for a number [k], which is converted to a C
    [float] first. *)
Definition vscale (a : Vector) (k : Q) : Vector :=
  let s := as_float k in
  mkVector (f32 (vx a * s)) (f32 (vy a * s)) (f32 (vz a * s)).
Definition vscale_l (k : Q) (a : Vector) : Vector :=
  let s := as_float k in
  mkVector (f32 (s * vx a)) (f32 (s * vy a)) (f32 (s * vz a)).

(** Componentwise equality of the numbers held by two vectors. *)
Definition veq (a b : Vector) : Prop :=
  vx a == vx b /\ vy a == vy b /\ vz a == vz b.

(** [e[ax]] and [e[ax] = v] for [ax] in [range(3)]. *)
Definition euler_get (e : Euler) (ax : nat) : Q :=
  match ax with O => e0 e | 1%nat => e1 e | _ => e2 e end.
Definition euler_set (e : Euler) (ax : nat) (v : Q) : Euler :=
  match ax with
  | O => mkEuler (f32 v) (e1 e) (e2 e)
  | 1%nat => mkEuler (e0 e) (f32 v) (e2 e)
  | _ => mkEuler (e0 e) (e1 e) (f32 v)
  end.

Definition axis_x : Vector := mkVector 1 0 0.
Definition axis_y : Vector := mkVector 0 1 0.
Definition axis_z : Vector := mkVector 0 0 1.

(** A keypoint is the two-element list [[location, rotation_euler]]. *)
Definition keypoint : Type := Vector * Euler.

(** [objects[i]] on a Python list: IndexError out of range. *)
Definition py_index {A} (l : list A) (i : nat) : res A :=
  match l !! i with
  | Some a => Val a
  | None => Exc IndexError
  end.

(** ** helpers.minimize_objects_angular_distance *)

(** Lines 21-26 of helpers.py: the wrapped difference, in doubles. *)
Definition wrap_diff (next prev : Q) : Q :=
  let diff := f64 (next - prev) in
  let diff := py_mod diff two_pi in
  if Qlt_le_dec math_pi diff then f64 (diff - two_pi)
  else if Qlt_le_dec diff (- math_pi) then f64 (diff + two_pi)
  else diff.

(** The body of the inner loop (lines 21-27): reads [objects[i-1][1][ax]]
    and writes [objects[i][1][ax]] in place.  The poses of the list are
    distinct objects here; [unwrap_axis_in] below is the same loop body on
    poses that may be shared. *)
Definition unwrap_axis (objects : list keypoint) (i ax : nat) : res (list keypoint) :=
  oi ← py_index objects i;
  op ← py_index objects (i - 1);
  let diff := wrap_diff (euler_get (snd oi) ax) (euler_get (snd op) ax) in
  Val (<[i := (fst oi, euler_set (snd oi) ax (f64 (euler_get (snd op) ax + diff)))]> objects).

Fixpoint unwrap_axes (objects : list keypoint) (i : nat) (axes : list nat)
  : res (list keypoint) :=
  match axes with
  | [] => Val objects
  | ax :: rest => objects' ← unwrap_axis objects i ax; unwrap_axes objects' i rest
  end.

Fixpoint unwrap_from (objects : list keypoint) (indices : list nat)
  : res (list keypoint) :=
  match indices with
  | [] => Val objects
  | i :: rest => objects' ← unwrap_axes objects i (seq 0 3); unwrap_from objects' rest
  end.

Definition minimize_objects_angular_distance (objects : list keypoint)
  : res (list keypoint) :=
  unwrap_from objects (seq 1 (length objects - 1)).

(** ** The host environment (bpy, bmesh, mathutils) *)

(** A Blender object; objects are identified by their name. *)
Record Object : Type := mkObject { ob_name : string; ob_is_mesh : bool }.

#[export] Instance Object_eq_dec : EqDecision Object.
Proof. solve_decision. Defined.

(** An argument that may or may not be a [bpy.types.Object]. *)
Inductive pyarg : Type :=
  | PyObject (o : Object)
  | PyNone.

(** What [ray_cast] returns: [(hit, location, normal, index)]. *)
Definition Hit : Type := bool * Vector * Vector * Z.
Definition hit_result (h : Hit) : bool := fst (fst (fst h)).
Definition hit_location (h : Hit) : Vector := snd (fst (fst h)).
Definition hit_normal (h : Hit) : Vector := snd (fst h).
Definition hit_index (h : Hit) : Z := snd h.

(** An edge of a BMesh: the positions and normals of its two vertices. *)
Record BMEdge : Type := mkBMEdge {
  v1_co : Vector; v2_co : Vector; v1_normal : Vector; v2_normal : Vector
}.

(** The operations of the host that the code calls. *)
Record Host : Type := mkHost {
  (** [object.ray_cast(origin, direction, distance=...)] *)
  ray_cast : Object -> Vector -> Vector -> option Q -> Hit;
  (** [v.normalized()] *)
  normalized : Vector -> Vector;
  (** [normal.to_track_quat('Z', 'Y').to_euler("XYZ")] *)
  track_to_euler : Vector -> Euler;
  (** [math.atan2(y, x)] *)
  atan2 : Q -> Q -> Q;
  (** [ed.calc_length()] *)
  calc_length : BMEdge -> Q;
  (** A BMesh, its edges, the transformed and triangulated copy of an
      object's mesh, and the temporary object made from a BMesh. *)
  BMesh : Type;
  bm_edges : BMesh -> list BMEdge;
  bmesh_of_object : Object -> BMesh;
  object_of_bmesh : BMesh -> Object;
  (** The bisection of the target's mesh by a plane followed by the
      subdivision of the cut (get_contour): [None] when the cut is empty,
      otherwise the vertices of the slice object. *)
  bisect_plane : Object -> Vector -> Vector -> option (list Vector);
  (** [bpy.data.objects.get(name)] succeeds *)
  data_objects_has : string -> bool
}.

Section Carver.

Variable host : Host.

(** ** helpers.pointInsideMesh *)

(** The [while True] loop of lines 36-40, with an iteration budget. *)
Fixpoint count_crossings (fuel : nat) (object : Object) (axis orig : Vector)
    (count : nat) : res nat :=
  match fuel with
  | O => Div
  | S fuel' =>
      let r := ray_cast host object orig (vadd orig (vscale axis 10000)) None in
      if (hit_index r =? -1)%Z then Val count
      else count_crossings fuel' object axis
             (vadd (hit_location r) (vscale axis (py_float (1 # 100000)))) (count + 1)
  end.

Definition axes : list Vector := [axis_x; axis_y; axis_z].

(** The [for axis in axes] loop; the result is the flag [outside]. *)
Fixpoint axes_loop (fuel : nat) (point : Vector) (object : Object)
    (axs : list Vector) : res bool :=
  match axs with
  | [] => Val false
  | axis :: rest =>
      count ← count_crossings fuel object axis point 0;
      if Nat.even count then Val true
      else axes_loop fuel point object rest
  end.

Definition pointInsideMesh (fuel : nat) (point : Vector) (object : Object)
  : res bool :=
  outside ← axes_loop fuel point object axes;
  Val (negb outside).

(** The notions the parity test is described with: whether the cast from
    [orig] along [axis] misses, where the loop restarts after a hit, the
    origin of the [n]-th cast, and the number of crossings. *)
Definition cast_along (object : Object) (axis orig : Vector) : Hit :=
  ray_cast host object orig (vadd orig (vscale axis 10000)) None.
Definition misses (object : Object) (axis orig : Vector) : Prop :=
  hit_index (cast_along object axis orig) = (-1)%Z.
Definition restart (object : Object) (axis orig : Vector) : Vector :=
  vadd (hit_location (cast_along object axis orig)) (vscale axis (py_float (1 # 100000))).
Fixpoint nth_origin (object : Object) (axis orig : Vector) (n : nat) : Vector :=
  match n with
  | O => orig
  | S n' => nth_origin object axis (restart object axis orig) n'
  end.

Inductive crossings (object : Object) (axis : Vector) : Vector -> nat -> Prop :=
  | crossings_miss orig :
      misses object axis orig -> crossings object axis orig 0
  | crossings_hit orig n :
      ~ misses object axis orig ->
      crossings object axis (restart object axis orig) n ->
      crossings object axis orig (S n).

(** ** helpers.ray_cast_from_to *)

Definition ray_cast_from_to (origin target : Vector) (collision_object : Object)
  : Hit :=
  let direction := normalized host (vsub target origin) in
  ray_cast host collision_object origin direction None.

(** ** helpers.bmesh_check_intersect_objects *)

Definition bmesh_copy_from_object (obj : Object) : res (BMesh host) :=
  if ob_is_mesh obj then Val (bmesh_of_object host obj)
  else Exc AssertionError.

Definition EPS_NORMAL : Q := py_float (1 # 1000000).
Definition EPS_CENTER : Q := py_float (1 # 100).

(** [a.lerp(b, f)]: [(1 - f) * a + f * b] on C [float]s. *)
Definition lerp (a b : Vector) (f : Q) : Vector :=
  let fac := as_float f in
  let ifac := f32 (1 - fac) in
  mkVector (f32 (f32 (ifac * vx a) + f32 (fac * vx b)))
           (f32 (f32 (ifac * vy a) + f32 (fac * vy b)))
           (f32 (f32 (ifac * vz a) + f32 (fac * vz b))).

(** Lines 118-129: the ray cast along one edge; [true] when [index != -1]. *)
Definition edge_hits (target : Object) (ed : BMEdge) : bool :=
  let co_1 := v1_co ed in
  let co_2 := v2_co ed in
  let co_mid := vscale (vadd co_1 co_2) (1 # 2) in
  let no_mid := vscale (normalized host (vadd (v1_normal ed) (v2_normal ed))) EPS_NORMAL in
  let co_1 := vadd (lerp co_1 co_mid EPS_CENTER) no_mid in
  let co_2 := vadd (lerp co_2 co_mid EPS_CENTER) no_mid in
  let r := ray_cast host target co_1 (normalized host (vsub co_2 co_1))
             (Some (calc_length host ed)) in
  negb (hit_index r =? -1)%Z.

(** The [for ed in bm.edges] loop with its [break]. *)
Fixpoint edges_loop (target : Object) (eds : list BMEdge) : bool :=
  match eds with
  | [] => false
  | ed :: rest => if edge_hits target ed then true else edges_loop target rest
  end.

(** Lines 98-99: if [bm] has more edges, the two are swapped. *)
Definition simpler_first (bm bm2 : BMesh host) : BMesh host * BMesh host :=
  if (length (bm_edges host bm2) <? length (bm_edges host bm))%nat
  then (bm2, bm) else (bm, bm2).

Definition bmesh_check_intersect_objects (obj obj2 : Object) : res bool :=
  if decide (obj = obj2) then Exc AssertionError
  else
    bm ← bmesh_copy_from_object obj;
    bm2 ← bmesh_copy_from_object obj2;
    let '(bm, bm2) := simpler_first bm bm2 in
    let obj_tmp := object_of_bmesh host bm2 in
    Val (edges_loop obj_tmp (bm_edges host bm)).

(** ** cam.CAMTask *)

Record CAMTask : Type := mkCAMTask {
  cam_keypoints : list keypoint;
  cam_TARGET : Object;
  cam_TOOL : Object
}.

(** [CAMTask.__init__]: the arguments must be Blender objects. *)
Definition CAMTask_init (target tool : pyarg) : res CAMTask :=
  match target, tool with
  | PyObject tg, PyObject tl => Val (mkCAMTask [] tg tl)
  | _, _ => Exc ValueError
  end.

(** [CAMTask._build]: to be overridden. *)
Definition CAMTask__build : M CAMTask unit :=
  lift (Exc NotImplementedError).

(** [CAMTask.build]: runs [_build], logs, re-raises; returns [None]. *)
Definition CAMTask_build : M CAMTask unit := CAMTask__build.

(** ** cam.ContourTrace *)

Record ContourTrace : Type := mkContourTrace {
  ct_keypoints : list keypoint;
  ct_TARGET : Object;
  ct_TOOL : Object;
  ct_center : Vector;
  ct_plane_normal : Vector;
  ct_contour : option (list Vector)
}.

Definition ContourTrace_init (target tool : pyarg) (center plane_normal : Vector)
  : res ContourTrace :=
  base ← CAMTask_init target tool;
  Val (mkContourTrace (cam_keypoints base) (cam_TARGET base) (cam_TOOL base)
         center plane_normal None).

Definition ct_set_keypoints (k : list keypoint) (t : ContourTrace) : ContourTrace :=
  mkContourTrace k (ct_TARGET t) (ct_TOOL t) (ct_center t) (ct_plane_normal t)
    (ct_contour t).
Definition ct_set_contour (c : option (list Vector)) (t : ContourTrace) : ContourTrace :=
  mkContourTrace (ct_keypoints t) (ct_TARGET t) (ct_TOOL t) (ct_center t)
    (ct_plane_normal t) c.

(** [ContourTrace.get_contour] *)
Definition get_contour : M ContourTrace unit :=
  self ← get_self;
  match bisect_plane host (ct_TARGET self) (ct_center self) (ct_plane_normal self) with
  | None => mret tt
  | Some vertices => set_self (ct_set_contour (Some vertices))
  end.

Definition probe_pairs : list (Vector * Vector) :=
  [ (mkVector (1 # 2) (1 # 2) 0, mkVector (- (1 # 2)) (- (1 # 2)) 0);
    (mkVector (- (1 # 2)) (1 # 2) 0, mkVector (1 # 2) (- (1 # 2)) 0) ].

(** [a and not b], evaluated left to right with short circuit. *)
Definition inside_and_not_inside (fuel : nat) (a b : Vector) (target : Object)
  : res bool :=
  ia ← pointInsideMesh fuel a target;
  if ia : bool then ib ← pointInsideMesh fuel b target; Val (negb ib)
  else Val false.

(** Lines 70-78: the loop over the two probe pairs; [None] is the initial
    [result = [False]]. *)
Fixpoint probe_loop (fuel : nat) (target : Object) (point : Vector)
    (pairs : list (Vector * Vector)) : res (option Hit) :=
  match pairs with
  | [] => Val None
  | (p1, p2) :: rest =>
      let v1 := vadd point (vscale p1 (1 # 4)) in
      let v2 := vadd point (vscale p2 (1 # 4)) in
      c1 ← inside_and_not_inside fuel v1 v2 target;
      if c1 : bool then Val (Some (ray_cast_from_to v2 v1 target))
      else
        c2 ← inside_and_not_inside fuel v2 v1 target;
        if c2 : bool then Val (Some (ray_cast_from_to v1 v2 target))
        else probe_loop fuel target point rest
  end.

(** Lines 69-83: the body of the loop over the contour's vertices. *)
Definition sample_vertex (fuel : nat) (offset : Q) (point : Vector)
  : M ContourTrace unit :=
  self ← get_self;
  result ← lift (probe_loop fuel (ct_TARGET self) point probe_pairs);
  match result with
  | Some r =>
      if hit_result r then
        let rotation_euler := track_to_euler host (hit_normal r) in
        let location := vadd (hit_location r) (vscale (hit_normal r) offset) in
        set_self (fun t => ct_set_keypoints (ct_keypoints t ++ [(location, rotation_euler)]) t)
      else mret tt
  | None => mret tt
  end.

(** [ContourTrace.sample_for_normals] *)
Definition sample_for_normals (fuel : nat) (offset : Q) : M ContourTrace unit :=
  self ← get_self;
  match ct_contour self with
  | None => lift (Exc AttributeError)
  | Some vertices => for_each vertices (sample_vertex fuel offset)
  end.

Definition get_angle_z (obj : keypoint) : Q :=
  atan2 host (vy (fst obj)) (vx (fst obj)).

(** [sorted(l, key=key)]: stable, ascending. *)
Fixpoint insert_by {A} (key : A -> Q) (x : A) (l : list A) : list A :=
  match l with
  | [] => [x]
  | y :: l' => if Qle_bool (key x) (key y) then x :: l else y :: insert_by key x l'
  end.
Definition sorted {A} (l : list A) (key : A -> Q) : list A :=
  foldr (insert_by key) [] l.

(** [ContourTrace._build] *)
Definition ContourTrace__build (fuel : nat) : M ContourTrace unit :=
  get_contour;;
  self ← get_self;
  match ct_contour self with
  | Some _ =>
      sample_for_normals fuel 0;;
      set_self (fun t => ct_set_keypoints (sorted (ct_keypoints t) get_angle_z) t);;
      self ← get_self;
      k ← lift (minimize_objects_angular_distance (ct_keypoints self));
      set_self (ct_set_keypoints k)
  | None => mret tt
  end.

(** [CAMTask.build] inherited by ContourTrace. *)
Definition ContourTrace_build (fuel : nat) : M ContourTrace unit :=
  ContourTrace__build fuel.

(** [CAMTask.get_keypoints]: the value of the copy. *)
Definition ContourTrace_get_keypoints (t : ContourTrace) : list keypoint :=
  ct_keypoints t.

(** ** cam.MultiContourTrace *)

Record MultiContourTrace : Type := mkMultiContourTrace {
  mt_keypoints : list keypoint;
  mt_TARGET : Object;
  mt_TOOL : Object;
  mt_start : Vector;
  mt_cuts : Z;
  mt_sub_tasks : list ContourTrace;
  mt_height : Q
}.

(** [MultiContourTrace.__init__]; [plane_normal] is accepted and dropped. *)
Definition MultiContourTrace_init (target tool : pyarg) (start : Vector)
    (height : Q) (cuts : Z) (plane_normal : Vector) : res MultiContourTrace :=
  base ← CAMTask_init target tool;
  Val (mkMultiContourTrace (cam_keypoints base) (cam_TARGET base) (cam_TOOL base)
         start cuts [] height).

Definition mt_append_sub_task (task : ContourTrace) (t : MultiContourTrace)
  : MultiContourTrace :=
  mkMultiContourTrace (mt_keypoints t) (mt_TARGET t) (mt_TOOL t) (mt_start t)
    (mt_cuts t) (mt_sub_tasks t ++ [task]) (mt_height t).

(** [MultiContourTrace.get_keypoints] *)
Definition MultiContourTrace_get_keypoints (t : MultiContourTrace) : list keypoint :=
  foldl (fun points task => points ++ ContourTrace_get_keypoints task) []
        (mt_sub_tasks t).

(** [v / k] for a vector and a number: [k] is converted to a C [float],
    and the components are multiplied by its reciprocal. *)
Definition vdiv (a : Vector) (k : Q) : res Vector :=
  let s := as_float k in
  if Qeq_bool s 0 then Exc ZeroDivisionError
  else
    let r := f32 (1 / s) in
    Val (mkVector (f32 (vx a * r)) (f32 (vy a * r)) (f32 (vz a * r))).

(** [range(n)] *)
Definition py_range (n : Z) : list Z :=
  map Z.of_nat (seq 0 (Z.to_nat n)).

(** [end = self.start.copy(); end.z += self.height]: the sum is a double,
    stored in single precision. *)
Definition end_point (start : Vector) (height : Q) : Vector :=
  mkVector (vx start) (vy start) (f32 (f64 (vz start + f64 height))).

(** Lines 161-164: the body of the loop over the slices. *)
Definition build_slice (fuel : nat) (axis dv : Vector) (i : Z)
  : M MultiContourTrace unit :=
  self ← get_self;
  let plane_co := vadd (mt_start self) (vscale_l (inject_Z i) dv) in
  task ← lift (ContourTrace_init (PyObject (mt_TARGET self)) (PyObject (mt_TOOL self))
                 plane_co axis);
  match ContourTrace_build fuel task with
  | (Val _, task') => set_self (mt_append_sub_task task')
  | (Exc e, _) => lift (Exc e)
  | (Div, _) => lift Div
  end.

(** [MultiContourTrace._build] *)
Definition MultiContourTrace__build (fuel : nat) : M MultiContourTrace unit :=
  self ← get_self;
  let start := mt_start self in
  let end_ := end_point start (mt_height self) in
  let axis := vsub end_ start in
  dv ← lift (vdiv axis (inject_Z (mt_cuts self)));
  for_each (py_range (mt_cuts self + 1)) (build_slice fuel axis dv).

Definition MultiContourTrace_build (fuel : nat) : M MultiContourTrace unit :=
  MultiContourTrace__build fuel.

(** ** The tasks a job holds *)

Inductive task : Type :=
  | TaskBase (t : CAMTask)
  | TaskContour (t : ContourTrace)
  | TaskMulti (t : MultiContourTrace)
  | NotATask.

(** [hasattr(task, 'build')] *)
Definition has_build (t : task) : bool :=
  match t with NotATask => false | _ => true end.

(** [task.get_keypoints()] *)
Definition task_get_keypoints (t : task) : list keypoint :=
  match t with
  | TaskBase c => cam_keypoints c
  | TaskContour c => ContourTrace_get_keypoints c
  | TaskMulti m => MultiContourTrace_get_keypoints m
  | NotATask => []
  end.

(** [task.build()]: every [build] is [CAMTask.build], which has no
    [return] statement; the value of the call is [None]. *)
Definition task_build (fuel : nat) : M task (option (list keypoint)) :=
  fun t =>
    match t with
    | TaskBase c =>
        let '(r, c') := CAMTask_build c in (r ;; Val None, TaskBase c')
    | TaskContour c =>
        let '(r, c') := ContourTrace_build fuel c in (r ;; Val None, TaskContour c')
    | TaskMulti m =>
        let '(r, m') := MultiContourTrace_build fuel m in (r ;; Val None, TaskMulti m')
    | NotATask => (Exc AttributeError, NotATask)
    end.

(** ** jobs.XYZIJK_Job *)

Record XYZIJK_Job : Type := mkJob {
  job_TOOL : Object;
  job_TARGET : Object;
  job_origin : Vector;
  tasks : list task;
  keypoints : list keypoint
}.

Definition XYZIJK_Job_init (target tool : pyarg) (tasks : list task) (origin : Vector)
  : res XYZIJK_Job :=
  match target, tool with
  | PyObject tg, PyObject tl => Val (mkJob tl tg origin tasks [])
  | _, _ => Exc ValueError
  end.

(** Lines 103-107: the loop over the tasks.  The tasks are built in place;
    [kps] is [self.keypoints]. *)
Fixpoint build_tasks (fuel : nat) (ts : list task) (kps : list keypoint)
  : res unit * list task * list keypoint :=
  match ts with
  | [] => (Val tt, [], kps)
  | t :: rest =>
      if has_build t then
        match task_build fuel t with
        | (Val task_keypoints, t') =>
            let kps' :=
              match task_keypoints with
              | Some (k :: ks) => kps ++ k :: ks
              | _ => kps
              end in
            let '(r, rest', kps'') := build_tasks fuel rest kps' in
            (r, t' :: rest', kps'')
        | (Exc e, t') => (Exc e, t' :: rest, kps)
        | (Div, t') => (Div, t' :: rest, kps)
        end
      else
        let '(r, rest', kps') := build_tasks fuel rest kps in
        (r, t :: rest', kps')
  end.

(** [XYZIJK_Job.build] *)
Definition XYZIJK_Job_build (fuel : nat) : M XYZIJK_Job unit :=
  fun self =>
    if negb (data_objects_has host (ob_name (job_TOOL self)))
       || negb (data_objects_has host (ob_name (job_TARGET self)))
    then (Exc ValueError, self)
    else
      let '(r, ts, kps) := build_tasks fuel (tasks self) [] in
      (r, mkJob (job_TOOL self) (job_TARGET self) (job_origin self) ts kps).

(** [XYZIJK_Job.add_task] *)
Definition add_task (t : task) (self : XYZIJK_Job) : XYZIJK_Job :=
  mkJob (job_TOOL self) (job_TARGET self) (job_origin self) (tasks self ++ [t])
    (keypoints self).

End Carver.

(** ** Sample hosts *)

Definition origin : Vector := mkVector 0 0 0.
Definition no_hit : Hit := (false, origin, origin, (-1)%Z).

(** A host given by its ray cast, its plane bisection and the edges of its
    meshes; the remaining operations need no geometry here. *)
Definition plain_host (rc : Object -> Vector -> Vector -> option Q -> Hit)
    (bisect : Object -> Vector -> Vector -> option (list Vector))
    (edges : Object -> list BMEdge) : Host :=
  {| ray_cast := rc;
     normalized := fun v => v;
     track_to_euler := fun n => mkEuler (vx n) (vy n) (vz n);
     atan2 := fun y x => y - x;
     calc_length := fun _ => 1;
     BMesh := list BMEdge;
     bm_edges := fun bm => bm;
     bmesh_of_object := edges;
     object_of_bmesh := fun _ => mkObject "~temp~" true;
     bisect_plane := bisect;
     data_objects_has := fun _ => true |}.

(** A scene without geometry: every ray misses, every plane cuts nothing. *)
Definition empty_host : Host :=
  plain_host (fun _ _ _ _ => no_hit) (fun _ _ _ => None) (fun _ => []).

(** A degenerate scene in which every ray reports a hit. *)
Definition sticky_host : Host :=
  plain_host (fun _ orig _ _ => (true, orig, origin, 0%Z)) (fun _ _ _ => None)
    (fun _ => []).

(** The solid half space [x + y + z < 0].  A ray that starts inside, or
    starts outside and heads inwards, hits the boundary at the origin, with
    normal (1, 1, 1); any other ray misses.  Every plane cuts the contour
    with the single vertex (0, 0, 0), and every mesh has the single edge from
    (-1, 0, 0) to (1, 0, 0). *)
Definition half_space_host : Host :=
  plain_host
    (fun _ orig dir _ =>
       if Qlt_le_dec (vx orig + vy orig + vz orig) 0
       then (true, origin, mkVector 1 1 1, 0%Z)
       else if Qlt_le_dec (vx dir + vy dir + vz dir) 0
            then (true, origin, mkVector 1 1 1, 0%Z)
            else no_hit)
    (fun _ _ _ => Some [origin])
    (fun _ => [mkBMEdge (mkVector (-1) 0 0) (mkVector 1 0 0) axis_z axis_z]).

Definition TARGET : Object := mkObject "TARGET" true.
Definition TOOL : Object := mkObject "tool_control" true.
Definition inner_point : Vector := mkVector (-1) (-1) (-1).

(** The task of main.py: [MultiContourTrace(TARGET, TOOL,
    start=Vector((0,0,0)), height=.5, cuts=3)]. *)
Definition main_task : MultiContourTrace :=
  mkMultiContourTrace [] TARGET TOOL origin 3 [] (1 # 2).

(** The same task, started at the height 1e8. *)
Definition far_task : MultiContourTrace :=
  mkMultiContourTrace [] TARGET TOOL (mkVector 0 0 100000000) 3 [] (1 # 2).

(** ** The object store: who shares what with whom

    [get_keypoints] promises a copy that shares nothing with the task.  To
    state that, the lists, vectors and Euler triples of a keypoint sequence
    are laid out in a store of objects addressed by location, as Python holds
    them; a list holds the locations of its items. *)

Definition loc : Type := positive.

Inductive pyobj : Type :=
  | PyVector (v : Vector)
  | PyEuler (e : Euler)
  | PyList (items : list loc).

Abbreviation heap := (gmap loc pyobj).
Abbreviation memo := (gmap loc loc).

(** [copy.deepcopy(x, memo)]: an object already in [memo] is answered from
    it; a vector or Euler triple is copied to a new object; a list gets a new
    empty list [y], registered in [memo] before its items are copied and
    appended one by one.  [depth] bounds the recursion depth. *)
Fixpoint copy_items (copy : loc -> heap * memo -> option (loc * (heap * memo)))
    (y : loc) (items : list loc) (st : heap * memo) : option (heap * memo) :=
  match items with
  | [] => Some st
  | a :: rest =>
      match copy a st with
      | None => None
      | Some (a', (h', m')) =>
          match h' !! y with
          | Some (PyList acc) =>
              copy_items copy y rest (<[y := PyList (acc ++ [a'])]> h', m')
          | _ => None
          end
      end
  end.

Fixpoint deepcopy (depth : nat) (x : loc) (st : heap * memo)
  : option (loc * (heap * memo)) :=
  match depth with
  | O => None
  | S depth' =>
      match snd st !! x with
      | Some y => Some (y, st)
      | None =>
          let y := fresh (dom (fst st)) in
          match fst st !! x with
          | None => None
          | Some (PyVector v) =>
              Some (y, (<[y := PyVector v]> (fst st), <[x := y]> (snd st)))
          | Some (PyEuler e) =>
              Some (y, (<[y := PyEuler e]> (fst st), <[x := y]> (snd st)))
          | Some (PyList items) =>
              match copy_items (deepcopy depth') y items
                      (<[y := PyList []]> (fst st), <[x := y]> (snd st)) with
              | None => None
              | Some st' => Some (y, st')
              end
          end
      end
  end.

(** [CAMTask.get_keypoints] on the store: [keypoints] is the location of
    the list held in [self._keypoints]. *)
Definition CAMTask_get_keypoints_in (depth : nat) (keypoints : loc) (h : heap)
  : option (loc * heap) :=
  match deepcopy depth keypoints (h, ∅) with
  | Some (y, (h', _)) => Some (y, h')
  | None => None
  end.

(** [points += ys] *)
Definition list_extend (points ys : loc) (h : heap) : option heap :=
  match h !! points, h !! ys with
  | Some (PyList ps), Some (PyList items) => Some (<[points := PyList (ps ++ items)]> h)
  | _, _ => None
  end.

(** The loop of [MultiContourTrace.get_keypoints]; [sub_tasks] holds, for
    each sub-task, the location of its [_keypoints] list. *)
Fixpoint collect_keypoints (depth : nat) (points : loc) (sub_tasks : list loc)
    (h : heap) : option heap :=
  match sub_tasks with
  | [] => Some h
  | task :: rest =>
      match CAMTask_get_keypoints_in depth task h with
      | Some (ys, h') =>
          match list_extend points ys h' with
          | Some h'' => collect_keypoints depth points rest h''
          | None => None
          end
      | None => None
      end
  end.

Definition MultiContourTrace_get_keypoints_in (depth : nat) (sub_tasks : list loc)
    (h : heap) : option (loc * heap) :=
  let points := fresh (dom h) in
  match collect_keypoints depth points sub_tasks (<[points := PyList []]> h) with
  | Some h' => Some (points, h')
  | None => None
  end.

(** Reading a keypoint sequence out of the store. *)
Definition read_vector (h : heap) (l : loc) : option Vector :=
  match h !! l with Some (PyVector v) => Some v | _ => None end.
Definition read_euler (h : heap) (l : loc) : option Euler :=
  match h !! l with Some (PyEuler e) => Some e | _ => None end.
Definition read_keypoint (h : heap) (l : loc) : option keypoint :=
  match h !! l with
  | Some (PyList [a; b]) =>
      match read_vector h a, read_euler h b with
      | Some v, Some e => Some (v, e)
      | _, _ => None
      end
  | _ => None
  end.
Definition read_keypoints (h : heap) (l : loc) : option (list keypoint) :=
  match h !! l with
  | Some (PyList ps) => mapM (read_keypoint h) ps
  | _ => None
  end.

(** ** helpers.minimize_objects_angular_distance on the store

    The loop assigns to a component of the rotation held by a pose.  When
    two entries of [objects] are, or hold, one and the same object, such an
    assignment is seen through both; the store keeps track of that. *)

(** [v[ax]] and [v[ax] = x] for [ax] in [range(3)]. *)
Definition vector_get (v : Vector) (ax : nat) : Q :=
  match ax with O => vx v | 1%nat => vy v | _ => vz v end.
Definition vector_set (v : Vector) (ax : nat) (x : Q) : Vector :=
  match ax with
  | O => mkVector (f32 x) (vy v) (vz v)
  | 1%nat => mkVector (vx v) (f32 x) (vz v)
  | _ => mkVector (vx v) (vy v) (f32 x)
  end.

(** [objects[i][1]]: the second item of the pose at index [i]. *)
Definition pose_rotation (h : heap) (poses : list loc) (i : nat) : res loc :=
  p ← py_index poses i;
  match h !! p with
  | Some (PyList items) => py_index items 1
  | _ => Exc TypeError
  end.

(** [r[ax]]: a number when [r] is an Euler triple or a vector, some other
    object when [r] is a list. *)
Definition read_component (h : heap) (r : loc) (ax : nat) : res (option Q) :=
  match h !! r with
  | Some (PyEuler e) => Val (Some (euler_get e ax))
  | Some (PyVector v) => Val (Some (vector_get v ax))
  | Some (PyList items) => _ ← py_index items ax; Val None
  | None => Exc TypeError
  end.

(** [r[ax] = x] *)
Definition write_component (h : heap) (r : loc) (ax : nat) (x : Q) : res heap :=
  match h !! r with
  | Some (PyEuler e) => Val (<[r := PyEuler (euler_set e ax x)]> h)
  | Some (PyVector v) => Val (<[r := PyVector (vector_set v ax x)]> h)
  | _ => Exc TypeError
  end.

(** The body of the inner loop (lines 21-27) on the store. *)
Definition unwrap_axis_in (poses : list loc) (i ax : nat) (h : heap) : res heap :=
  ri ← pose_rotation h poses i;
  next ← read_component h ri ax;
  rp ← pose_rotation h poses (i - 1);
  prev ← read_component h rp ax;
  match next, prev with
  | Some next, Some prev =>
      let diff := wrap_diff next prev in
      write_component h ri ax (f64 (prev + diff))
  | _, _ => Exc TypeError
  end.

Fixpoint unwrap_axes_in (poses : list loc) (i : nat) (axes : list nat) (h : heap)
  : res heap :=
  match axes with
  | [] => Val h
  | ax :: rest => h' ← unwrap_axis_in poses i ax h; unwrap_axes_in poses i rest h'
  end.

Fixpoint unwrap_from_in (poses : list loc) (indices : list nat) (h : heap)
  : res heap :=
  match indices with
  | [] => Val h
  | i :: rest => h' ← unwrap_axes_in poses i (seq 0 3) h; unwrap_from_in poses rest h'
  end.

(** [minimize_objects_angular_distance(objects)] for the list at
    [objects]; the list itself is returned, so the result is the store. *)
Definition minimize_objects_angular_distance_in (objects : loc) (h : heap) : res heap :=
  match h !! objects with
  | Some (PyList poses) => unwrap_from_in poses (seq 1 (length poses - 1)) h
  | _ => Exc TypeError
  end.

(** The rotation object that a pose holds, and the rotation objects of the
    poses of a list. *)
Definition rotation_of (h : heap) (p : loc) : option loc :=
  match h !! p with
  | Some (PyList [_; b]) => Some b
  | _ => None
  end.
Definition rotations (h : heap) (objects : loc) : option (list loc) :=
  match h !! objects with
  | Some (PyList poses) => mapM (rotation_of h) poses
  | _ => None
  end.

(** [z] is the object at [x] or one of the objects below it. *)
Inductive reach (h : heap) : loc -> loc -> Prop :=
  | reach_here x : reach h x x
  | reach_item x items a z :
      h !! x = Some (PyList items) -> a ∈ items -> reach h a z -> reach h x z.

(** A series of assignments to objects of the store. *)
Definition mutate (ws : list (loc * pyobj)) (h : heap) : heap :=
  foldl (fun h w => <[fst w := snd w]> h) h ws.

(** The shape of what hangs below a location. *)
#[warnings="-register-all"]
Inductive tree : Type :=
  | TVec (v : Vector)
  | TEul (e : Euler)
  | TList (ts : list tree).

Fixpoint tsize (t : tree) : nat :=
  match t with
  | TList ts => S (foldr (fun t n => tsize t + n)%nat O ts)
  | _ => 1%nat
  end.

Fixpoint tdepth (t : tree) : nat :=
  match t with
  | TList ts => S (foldr (fun t n => Nat.max (tdepth t) n) O ts)
  | _ => 1%nat
  end.

#[warnings="-register-all"]
Inductive decode (h : heap) : loc -> tree -> Prop :=
  | decode_vec x v : h !! x = Some (PyVector v) -> decode h x (TVec v)
  | decode_eul x e : h !! x = Some (PyEuler e) -> decode h x (TEul e)
  | decode_list x items ts :
      h !! x = Some (PyList items) ->
      Forall2 (decode h) items ts ->
      decode h x (TList ts).

Definition tree_of_keypoint (k : keypoint) : tree :=
  TList [TVec (fst k); TEul (snd k)].
Definition tree_of_keypoints (ks : list keypoint) : tree :=
  TList (map tree_of_keypoint ks).

(** ** Reference behaviour of the sampling loop

    What the loop over the contour's vertices appends to [_keypoints]. *)

Definition vertex_samples (host : Host) (fuel : nat) (target : Object) (offset : Q)
    (point : Vector) : res (list keypoint) :=
  result ← probe_loop host fuel target point probe_pairs;
  Val (match result with
       | Some r =>
           if hit_result r then
             [(vadd (hit_location r) (vscale (hit_normal r) offset),
               track_to_euler host (hit_normal r))]
           else []
       | None => []
       end).

Fixpoint contour_samples (host : Host) (fuel : nat) (target : Object) (offset : Q)
    (vertices : list Vector) : res (list keypoint) :=
  match vertices with
  | [] => Val []
  | v :: rest =>
      ks ← vertex_samples host fuel target offset v;
      ks' ← contour_samples host fuel target offset rest;
      Val (ks ++ ks')
  end.

(** The contour a build works on: the new cut, or else the one kept from
    an earlier build. *)
Definition contour_after (host : Host) (t : ContourTrace) : option (list Vector) :=
  match bisect_plane host (ct_TARGET t) (ct_center t) (ct_plane_normal t) with
  | Some vertices => Some vertices
  | None => ct_contour t
  end.

(** The local variables [axis] and [dv] of [MultiContourTrace._build]. *)
Definition slice_axis (start : Vector) (height : Q) : Vector :=
  vsub (end_point start height) start.
Definition slice_step (start : Vector) (height : Q) (cuts : Z) : Vector :=
  let axis := slice_axis start height in
  let r := f32 (1 / as_float (inject_Z cuts)) in
  mkVector (f32 (vx axis * r)) (f32 (vy axis * r)) (f32 (vz axis * r)).

(** A task with further sub-tasks appended. *)
Definition mt_extend_sub_tasks (built : list ContourTrace) (t : MultiContourTrace)
  : MultiContourTrace :=
  mkMultiContourTrace (mt_keypoints t) (mt_TARGET t) (mt_TOOL t) (mt_start t)
    (mt_cuts t) (mt_sub_tasks t ++ built) (mt_height t).

(** The sub-task that [MultiContourTrace._build] creates for slice [i]. *)
Definition new_slice (t : MultiContourTrace) (axis dv : Vector) (i : Z) : ContourTrace :=
  mkContourTrace [] (mt_TARGET t) (mt_TOOL t)
    (vadd (mt_start t) (vscale_l (inject_Z i) dv)) axis None.

(** ** Reference behaviour for the unwrapping loop *)

Definition unwrap_angle (prev next : Q) : Q :=
  f32 (f64 (prev + wrap_diff next prev)).
Definition unwrap_euler (prev e : Euler) : Euler :=
  mkEuler (unwrap_angle (e0 prev) (e0 e))
          (unwrap_angle (e1 prev) (e1 e))
          (unwrap_angle (e2 prev) (e2 e)).

Fixpoint unwrap_chain (prev : Euler) (rest : list keypoint) : list keypoint :=
  match rest with
  | [] => []
  | k :: tl =>
      let e' := unwrap_euler prev (snd k) in
      (fst k, e') :: unwrap_chain e' tl
  end.

(** ** Sample tasks, jobs and stores *)

Definition main_contour : ContourTrace :=
  mkContourTrace [] TARGET TOOL origin axis_z None.

(** The job of main.py. *)
Definition main_job : XYZIJK_Job :=
  mkJob TOOL TARGET origin [TaskMulti main_task] [].

(** A job whose second task is a plain [CAMTask]. *)
Definition base_task : CAMTask := mkCAMTask [] TARGET TOOL.
Definition failing_job : XYZIJK_Job :=
  mkJob TOOL TARGET origin
    [TaskContour main_contour; TaskBase base_task; TaskMulti main_task] [].

Definition sample_pose : keypoint := (origin, mkEuler 1 1 1).

(** Two keypoint sequences in a store: [1] holds two poses that share their
    vector and Euler objects, [6] holds the first of them again. *)
Definition sample_store : heap :=
  list_to_map
    [ (1%positive, PyList [2; 5]%positive);
      (2%positive, PyList [3; 4]%positive);
      (3%positive, PyVector origin);
      (4%positive, PyEuler (mkEuler 1 1 1));
      (5%positive, PyList [3; 4]%positive);
      (6%positive, PyList [2]%positive) ].

(** Two poses, distinct objects, in a store: the list at [1] holds the
    poses [2] and [5], with the angles -2.719475 and 0.42211765 about X. *)
Definition unwrap_store : heap :=
  list_to_map
    [ (1%positive, PyList [2; 5]%positive);
      (2%positive, PyList [3; 4]%positive);
      (3%positive, PyVector origin);
      (4%positive, PyEuler (mkEuler (- (11406305 # 4194304)) 0 0));
      (5%positive, PyList [6; 7]%positive);
      (6%positive, PyVector origin);
      (7%positive, PyEuler (mkEuler (7081959 # 16777216) 0 0)) ].

(** Three poses with the angles 0, 3 and 6 about X, the first of which is
    in the list at [1] a second time, at its end. *)
Definition shared_store : heap :=
  list_to_map
    [ (1%positive, PyList [2; 5; 8; 2]%positive);
      (2%positive, PyList [3; 4]%positive);
      (3%positive, PyVector origin);
      (4%positive, PyEuler (mkEuler 0 0 0));
      (5%positive, PyList [6; 7]%positive);
      (6%positive, PyVector origin);
      (7%positive, PyEuler (mkEuler 3 0 0));
      (8%positive, PyList [9; 10]%positive);
      (9%positive, PyVector origin);
      (10%positive, PyEuler (mkEuler 6 0 0)) ].

(** ** Notions used in the statements and proofs *)

(** A task that completes its build, with the state it is left in; an
    object without [build] is skipped. *)
Definition builds_to (host : Host) (fuel : nat) (a a' : task) : Prop :=
  if has_build a then exists ret, task_build host fuel a = (Val ret, a') else a' = a.

(** For a set [D] of objects of the store [h0]: the objects of [D] are as
    in [h0], the memo answers with objects outside [D], and a list outside
    [D] holds only objects outside [D]. *)
Definition outside_inv (D : gset loc) (h0 : heap) (st : heap * memo) : Prop :=
  (forall l, l ∈ D -> fst st !! l = h0 !! l) /\
  (forall x y, snd st !! x = Some y -> y ∉ D) /\
  (forall y items a,
     y ∉ D -> fst st !! y = Some (PyList items) -> a ∈ items -> a ∉ D).

(** While a copy that started in the store [h0] runs: [A] are the lists
    whose copy is under way and [Y] their unfinished copies; [g] is the
    finished part of the store [h], which extends [h0] and avoids [Y]; the
    memo answers for a finished object with a copy that holds what the
    object holds. *)
Definition copy_inv (h0 : heap) (A Y : gset loc) (g h : heap) (m : memo) : Prop :=
  (h0 ⊆ g) /\ (g ⊆ h) /\
  (forall y, y ∈ Y -> (y ∉ dom g) /\ (y ∈ dom h)) /\
  (forall x y, m !! x = Some y -> x ∈ A \/ forall t, decode h0 x t -> decode g y t).

(** [copy] copies every object that holds [t], keeping [copy_inv]. *)
Definition copies_well (h0 : heap) (A Y : gset loc)
    (copy : loc -> heap * memo -> option (loc * (heap * memo))) (t : tree) : Prop :=
  forall x g h m,
    decode h0 x t -> copy_inv h0 A Y g h m ->
    (forall a t', a ∈ A -> decode h0 a t' -> (tsize t < tsize t')%nat) ->
    exists y g' h' m',
      copy x (h, m) = Some (y, (h', m')) /\ copy_inv h0 A Y g' h' m' /\
      (g ⊆ g') /\ (m ⊆ m') /\ decode g' y t /\
      (forall y0, y0 ∈ Y -> h' !! y0 = h !! y0).

(** ** cam.CAMTask.remove_unreachable_keypoints

    Placing the tool at a pose and applying the transform changes the scene;
    [place_tool] gives the host as it is afterwards. *)

Section Reachability.

Variable place_tool : Host -> Object -> Vector -> Euler -> Host.

(** Lines 45-51: the loop over the keypoints, collecting [marks]. *)
Fixpoint reachable_loop (host : Host) (tool target : Object) (kps marks : list keypoint)
  : res (list keypoint) * Host :=
  match kps with
  | [] => (Val marks, host)
  | (location, rotation_euler) :: rest =>
      let host' := place_tool host tool location rotation_euler in
      match bmesh_check_intersect_objects host' tool target with
      | Val true => reachable_loop host' tool target rest marks
      | Val false =>
          reachable_loop host' tool target rest (marks ++ [(location, rotation_euler)])
      | Exc e => (Exc e, host')
      | Div => (Div, host')
      end
  end.

Definition remove_unreachable_keypoints (host : Host) (self : CAMTask)
  : res unit * CAMTask * Host :=
  match reachable_loop host (cam_TOOL self) (cam_TARGET self) (cam_keypoints self) [] with
  | (Val marks, host') =>
      (Val tt, mkCAMTask marks (cam_TARGET self) (cam_TOOL self), host')
  | (Exc e, host') => (Exc e, self, host')
  | (Div, host') => (Div, self, host')
  end.

End Reachability.

(** ** jobs.XYZIJK_Job.animate *)







(** ** Further notions and sample hosts *)


(** [l] is in ascending order of [key]. *)
Definition ascending {A} (key : A -> Q) (l : list A) : Prop :=
  forall (i j : nat) (a b : A),
    (i < j)%nat -> l !! i = Some a -> l !! j = Some b -> key a <= key b.


(** The solid half space [x + y + z < 0] again, with the hit reported where
    the ray meets the boundary when it runs along the diagonal of the XY
    plane; every plane cuts the contour with the vertices (-1, 1, 0),
    (1, -1, 0) and (0, 0, 0), in this order. *)
Definition slanted_host : Host :=
  plain_host
    (fun _ orig dir _ =>
       let s := vx orig + vy orig + vz orig in
       let at_boundary :=
         (true, mkVector (vx orig - s / 2) (vy orig - s / 2) (vz orig),
          mkVector 1 1 1, 0%Z) in
       if Qlt_le_dec s 0 then at_boundary
       else if Qlt_le_dec (vx dir + vy dir + vz dir) 0 then at_boundary
            else no_hit)
    (fun _ _ _ => Some [mkVector (-1) 1 0; mkVector 1 (-1) 0; origin])
    (fun _ => []).

(** A scene in which rays along +X miss and every other ray reports a hit. *)
Definition x_open_host : Host :=
  plain_host
    (fun _ orig dest _ =>
       if Qlt_le_dec (vx orig) (vx dest) then no_hit else (true, orig, origin, 0%Z))
    (fun _ _ _ => None) (fun _ => []).

(** The half space, with a tool of one edge and any other mesh of two. *)
Definition two_mesh_host : Host :=
  plain_host (ray_cast half_space_host) (fun _ _ _ => Some [origin])
    (fun o =>
       if decide (o = TOOL)
       then [mkBMEdge (mkVector (-1) 0 0) (mkVector 1 0 0) axis_z axis_z]
       else [mkBMEdge (mkVector 1 0 0) (mkVector 2 0 0) axis_z axis_z;
             mkBMEdge (mkVector (-1) 0 0) (mkVector 1 0 0) axis_z axis_z]).

(** Meshes of one edge in a scene where no ray hits anything. *)
Definition clear_host : Host :=
  plain_host (fun _ _ _ _ => no_hit) (fun _ _ _ => None)
    (fun _ => [mkBMEdge (mkVector (-1) 0 0) (mkVector 1 0 0) axis_z axis_z]).

(** Placing the tool at a position with negative x puts it across the
    boundary of the half space; anywhere else it is clear of everything. *)
Definition sample_place_tool (h : Host) (tool : Object) (location : Vector)
    (rotation_euler : Euler) : Host :=
  if Qlt_le_dec (vx location) 0 then half_space_host else clear_host.

(** A task holding two poses. *)
Definition two_pose_task : CAMTask :=
  mkCAMTask [(mkVector (-1) 0 0, mkEuler 0 0 0); (mkVector 1 0 0, mkEuler 0 0 0)]
    TARGET TOOL.


(** A task whose tool is its own target. *)
Definition self_tool_task : CAMTask :=
  mkCAMTask [(mkVector 1 0 0, mkEuler 0 0 0)] TARGET TARGET.


(** The half space, except that above the height 1/4 every ray reports a
    hit; the contour cut by a plane is the single vertex at its centre. *)
Definition looping_above_host : Host :=
  plain_host
    (fun o orig dir d =>
       if Qlt_le_dec (vz orig) (1 # 4) then ray_cast half_space_host o orig dir d
       else (true, orig, mkVector 1 1 1, 0%Z))
    (fun _ center _ => Some [center])
    (fun _ => []).

(** * Properties *)

(** ** Powers of two and binary logarithms *)

Lemma pow2_pos (e : Z) : 0 < pow2 e.
Proof. apply Qpower_0_lt. reflexivity. Qed.

Lemma pow2_plus (a b : Z) : pow2 (a + b) == pow2 a * pow2 b.
Proof. apply Qpower_plus. discriminate. Qed.

Lemma pow2_le (a b : Z) : (a <= b)%Z -> pow2 a <= pow2 b.
Proof. intros H. apply Qpower_le_compat_l; [exact H|discriminate]. Qed.

Lemma pow2_lt (a b : Z) : (a < b)%Z -> pow2 a < pow2 b.
Proof. intros H. apply Qpower_lt_compat_l; [exact H|reflexivity]. Qed.

Lemma pow2_lt_inv (a b : Z) : pow2 a < pow2 b -> (a < b)%Z.
Proof. intros H. apply (Qpower_lt_compat_l_inv 2); [exact H|reflexivity]. Qed.

Lemma pow2_Z (n : Z) : (0 <= n)%Z -> pow2 n == inject_Z (2 ^ n).
Proof. intros H. unfold pow2. rewrite Zpower_Qpower by exact H. reflexivity. Qed.

Lemma pow2_succ (a : Z) : pow2 (a + 1) == 2 * pow2 a.
Proof. rewrite pow2_plus. change (pow2 1) with 2. ring. Qed.

Lemma pow2_pred (a : Z) : pow2 (a - 1) == pow2 a / 2.
Proof.
  assert (H : pow2 a == 2 * pow2 (a - 1)).
  { rewrite <- pow2_succ. replace (a - 1 + 1)%Z with a by lia. reflexivity. }
  rewrite H. field.
Qed.

(** [ilog2 x] is the integer part of the binary logarithm of [x]. *)
Lemma ilog2_spec (x : Q) : 0 < x -> pow2 (ilog2 x) <= x /\ x < pow2 (ilog2 x + 1).
Proof.
  intros Hx. destruct x as [n d]. unfold ilog2. cbn [Qnum Qden].
  assert (Hn : (0 < n)%Z) by (unfold Qlt in Hx; cbn in Hx; lia).
  destruct (Z.log2_spec n Hn) as [Hn1 Hn2].
  destruct (Z.log2_spec (Zpos d) (Pos2Z.is_pos d)) as [Hd1 Hd2].
  set (ln := Z.log2 n) in *. set (ld := Z.log2 (Zpos d)) in *.
  assert (Hln : (0 <= ln)%Z) by apply Z.log2_nonneg.
  assert (Hld : (0 <= ld)%Z) by apply Z.log2_nonneg.
  assert (Ex : n # d == inject_Z n / inject_Z (Zpos d)) by apply Qmake_Qdiv.
  assert (Hdpos : 0 < inject_Z (Zpos d)) by reflexivity.
  assert (Qn1 : pow2 ln <= inject_Z n).
  { rewrite pow2_Z by lia. rewrite <- Zle_Qle. exact Hn1. }
  assert (Qn2 : inject_Z n < pow2 (ln + 1)).
  { rewrite pow2_Z by lia. rewrite <- Zlt_Qlt. unfold Z.succ in Hn2. exact Hn2. }
  assert (Qd1 : pow2 ld <= inject_Z (Zpos d)).
  { rewrite pow2_Z by lia. rewrite <- Zle_Qle. exact Hd1. }
  assert (Qd2 : inject_Z (Zpos d) < pow2 (ld + 1)).
  { rewrite pow2_Z by lia. rewrite <- Zlt_Qlt. unfold Z.succ in Hd2. exact Hd2. }
  assert (Hup : n # d < pow2 (ln - ld + 1)).
  { rewrite Ex. apply Qlt_shift_div_r; [exact Hdpos|].
    apply Qlt_le_trans with (pow2 (ln + 1)); [exact Qn2|].
    replace (ln + 1)%Z with ((ln - ld + 1) + ld)%Z by lia.
    rewrite pow2_plus. apply Qmult_le_l; [apply pow2_pos|exact Qd1]. }
  assert (Hlo : pow2 (ln - ld - 1) <= n # d).
  { rewrite Ex. apply Qle_shift_div_l; [exact Hdpos|].
    apply Qle_trans with (pow2 ln); [|exact Qn1].
    replace ln with ((ln - ld - 1) + (ld + 1))%Z at 2 by lia.
    rewrite pow2_plus. apply Qmult_le_l; [apply pow2_pos|]. apply Qlt_le_weak. exact Qd2. }
  destruct (Qle_bool (pow2 (ln - ld)) (n # d)) eqn:E.
  - apply Qle_bool_iff in E. split; [exact E|exact Hup].
  - assert (Hlt : n # d < pow2 (ln - ld)).
    { apply Qnot_le_lt. intros H. apply Qle_bool_iff in H. congruence. }
    split; [exact Hlo|]. replace (ln - ld - 1 + 1)%Z with (ln - ld)%Z by lia. exact Hlt.
Qed.

Lemma ilog2_unique (x : Q) (a : Z) :
  pow2 a <= x -> x < pow2 (a + 1) -> ilog2 x = a.
Proof.
  intros H1 H2.
  assert (Hx : 0 < x) by (apply Qlt_le_trans with (pow2 a); [apply pow2_pos|exact H1]).
  destruct (ilog2_spec x Hx) as [H3 H4].
  assert (ilog2 x < a + 1)%Z by (apply pow2_lt_inv; lra).
  assert (a < ilog2 x + 1)%Z by (apply pow2_lt_inv; lra).
  lia.
Qed.

Lemma ilog2_comp (x y : Q) : 0 < x -> x == y -> ilog2 x = ilog2 y.
Proof.
  intros Hx E. symmetry. destruct (ilog2_spec x Hx) as [H1 H2].
  apply ilog2_unique; rewrite <- E; assumption.
Qed.

Lemma ilog2_le (x y : Q) : 0 < x -> x <= y -> (ilog2 x <= ilog2 y)%Z.
Proof.
  intros Hx Hxy.
  destruct (ilog2_spec x Hx) as [H1 H2].
  destruct (ilog2_spec y) as [H3 H4]; [lra|].
  assert (ilog2 x < ilog2 y + 1)%Z by (apply pow2_lt_inv; lra).
  lia.
Qed.

Lemma ilog2_lt_pow2 (x : Q) (k : Z) : 0 < x -> x < pow2 k -> (ilog2 x < k)%Z.
Proof.
  intros Hx Hk. destruct (ilog2_spec x Hx) as [H1 H2].
  apply pow2_lt_inv. lra.
Qed.

(** ** Rounding to the nearest integer, ties to even *)

Lemma rne_nearest (s : Q) : nearest_even s (rne s).
Proof.
  unfold nearest_even, rne.
  pose proof (Qfloor_le s) as Hlo. pose proof (Qlt_floor s) as Hhi.
  rewrite inject_Z_plus in Hhi. change (inject_Z 1) with 1 in Hhi.
  set (f := Qfloor s) in *.
  destruct (Qcompare_spec (s - inject_Z f) (1 # 2)) as [E|E|E].
  - destruct (Z.even f) eqn:Ev.
    + right. split; [|exact Ev]. rewrite Qabs_neg by lra. lra.
    + right. split.
      * rewrite inject_Z_plus. change (inject_Z 1) with 1. rewrite Qabs_pos by lra. lra.
      * rewrite Z.even_add. rewrite Ev. reflexivity.
  - left. apply Qabs_Qlt_condition. lra.
  - left. rewrite inject_Z_plus. change (inject_Z 1) with 1.
    apply Qabs_Qlt_condition. lra.
Qed.

Lemma nearest_even_unique (s : Q) (n m : Z) :
  nearest_even s n -> nearest_even s m -> n = m.
Proof.
  assert (Hstrict : forall a b : Z,
            nearest_even s a -> nearest_even s b -> a = (b + 1)%Z -> False).
  { intros a b Ha Hb ->.
    assert (Ba : Qabs (inject_Z (b + 1) - s) <= 1 # 2) by (destruct Ha as [H|[H _]]; lra).
    assert (Bb : Qabs (inject_Z b - s) <= 1 # 2) by (destruct Hb as [H|[H _]]; lra).
    rewrite inject_Z_plus in Ba. change (inject_Z 1) with 1 in Ba.
    apply Qabs_Qle_condition in Ba, Bb.
    assert (Es : s == inject_Z b + (1 # 2)) by lra.
    assert (Ea : Qabs (inject_Z (b + 1) - s) == 1 # 2).
    { rewrite inject_Z_plus. change (inject_Z 1) with 1. rewrite Qabs_pos by lra. lra. }
    assert (Eb : Qabs (inject_Z b - s) == 1 # 2).
    { rewrite Qabs_neg by lra. lra. }
    destruct Ha as [Ha|[_ Eva]]; [lra|].
    destruct Hb as [Hb|[_ Evb]]; [lra|].
    rewrite Z.even_add, Evb in Eva. discriminate. }
  intros Hn Hm.
  assert (Bn : Qabs (inject_Z n - s) <= 1 # 2) by (destruct Hn as [H|[H _]]; lra).
  assert (Bm : Qabs (inject_Z m - s) <= 1 # 2) by (destruct Hm as [H|[H _]]; lra).
  apply Qabs_Qle_condition in Bn, Bm.
  assert (Dz : (-1 <= n - m <= 1)%Z).
  { split.
    - rewrite Zle_Qle. unfold Z.sub. rewrite inject_Z_plus, inject_Z_opp.
      change (inject_Z (-1)) with (- (1)). lra.
    - rewrite Zle_Qle. unfold Z.sub. rewrite inject_Z_plus, inject_Z_opp.
      change (inject_Z 1) with 1. lra. }
  destruct (Z.eq_dec n m) as [|Hne]; [assumption|exfalso].
  assert (Hcase : (n = m + 1 \/ m = n + 1)%Z) by lia.
  destruct Hcase as [E|E]; eauto.
Qed.

Lemma rne_unique (s : Q) (n : Z) : nearest_even s n -> rne s = n.
Proof. intros H. apply (nearest_even_unique s); [apply rne_nearest|exact H]. Qed.

Lemma nearest_even_comp (s t : Q) (n : Z) : s == t -> nearest_even s n -> nearest_even t n.
Proof. intros E. unfold nearest_even. rewrite E. tauto. Qed.

Lemma rne_comp (s t : Q) : s == t -> rne s = rne t.
Proof.
  intros E. apply rne_unique. apply (nearest_even_comp t s); [symmetry; exact E|].
  apply rne_nearest.
Qed.

Lemma rne_Z (s : Q) (n : Z) : s == inject_Z n -> rne s = n.
Proof.
  intros E. apply rne_unique. left. rewrite E.
  setoid_replace (inject_Z n - inject_Z n) with 0 using relation Qeq by ring. reflexivity.
Qed.

Lemma rne_opp (s : Q) : rne (- s) = (- rne s)%Z.
Proof.
  apply rne_unique. pose proof (rne_nearest s) as H. unfold nearest_even in *.
  rewrite inject_Z_opp, Z.even_opp.
  setoid_replace (- inject_Z (rne s) - - s) with (- (inject_Z (rne s) - s)) using relation Qeq by ring.
  rewrite Qabs_opp. exact H.
Qed.

Lemma rne_error (s : Q) : Qabs (inject_Z (rne s) - s) <= 1 # 2.
Proof. destruct (rne_nearest s) as [H|[H _]]; lra. Qed.

Lemma rne_mono (s t : Q) : s <= t -> (rne s <= rne t)%Z.
Proof.
  intros Hst. destruct (Z.le_gt_cases (rne s) (rne t)) as [|Hgt]; [assumption|exfalso].
  pose proof (rne_error s) as Bs. pose proof (rne_error t) as Bt.
  apply Qabs_Qle_condition in Bs, Bt.
  assert (Hq : inject_Z (rne t) + 1 <= inject_Z (rne s)).
  { change 1 with (inject_Z 1). rewrite <- inject_Z_plus, <- Zle_Qle. lia. }
  assert (E : s == t) by lra.
  apply rne_comp in E. lia.
Qed.

(** ** Rounding to a format *)

Lemma Qabs_pos_lt (x : Q) : ~ x == 0 -> 0 < Qabs x.
Proof.
  intros Hx. pose proof (Qabs_nonneg x) as H. apply Qle_lt_or_eq in H.
  destruct H as [H|H]; [exact H|].
  exfalso. apply Hx. pose proof (Qle_Qabs x) as H1. pose proof (Qle_Qabs (- x)) as H2.
  rewrite Qabs_opp in H2. lra.
Qed.

Lemma fexp_comp (f : format) (x y : Q) : ~ x == 0 -> x == y -> fexp f x = fexp f y.
Proof.
  intros Hx E. unfold fexp. f_equal. f_equal. apply ilog2_comp.
  - apply Qabs_pos_lt. exact Hx.
  - apply Qabs_wd. exact E.
Qed.

Lemma round_comp (f : format) (x y : Q) : x == y -> round f x == round f y.
Proof.
  intros E. unfold round.
  assert (Eb : Qeq_bool x 0 = Qeq_bool y 0) by (apply Qeqb_comp; [exact E|reflexivity]).
  rewrite <- Eb. destruct (Qeq_bool x 0) eqn:E0; [reflexivity|].
  apply Qeq_bool_neq in E0.
  rewrite <- (fexp_comp f x y E0 E).
  rewrite (rne_comp (x / pow2 (fexp f x)) (y / pow2 (fexp f x)))
    by (unfold Qdiv; apply Qmult_comp; [exact E|reflexivity]).
  reflexivity.
Qed.

Lemma round_zero (f : format) (x : Q) : x == 0 -> round f x = 0.
Proof. intros E. unfold round. rewrite (Qeq_eq_bool _ _ E). reflexivity. Qed.

Lemma round_opp (f : format) (x : Q) : round f (- x) == - round f x.
Proof.
  unfold round. destruct (Qeq_bool x 0) eqn:E0.
  - apply Qeq_bool_iff in E0. rewrite (Qeq_eq_bool (- x) 0) by lra. reflexivity.
  - assert (Hx := Qeq_bool_neq _ _ E0).
    destruct (Qeq_bool (- x) 0) eqn:E1.
    { apply Qeq_bool_iff in E1. exfalso. apply Hx. lra. }
    assert (Ee : fexp f (- x) = fexp f x).
    { unfold fexp. f_equal. f_equal. apply ilog2_comp.
      - apply Qabs_pos_lt. intros E. apply Hx. lra.
      - apply Qabs_opp. }
    rewrite Ee, !Qred_correct.
    rewrite (rne_comp (- x / pow2 (fexp f x)) (- (x / pow2 (fexp f x)))).
    + rewrite rne_opp, inject_Z_opp. ring.
    + field. apply Qnot_eq_sym, Qlt_not_eq, pow2_pos.
Qed.

Lemma representable_comp (f : format) (x y : Q) :
  x == y -> representable f x -> representable f y.
Proof.
  intros E (m & e & Ex & H). exists m, e. split; [rewrite <- E; exact Ex|exact H].
Qed.

Section Rounding.

Variable f : format.
Hypothesis Hprec : (0 < prec f)%Z.

Lemma round_unfold (x : Q) :
  ~ x == 0 -> round f x == inject_Z (rne (x / pow2 (fexp f x))) * pow2 (fexp f x).
Proof.
  intros Hx. unfold round. destruct (Qeq_bool x 0) eqn:E; [|apply Qred_correct].
  apply Qeq_bool_iff in E. contradiction.
Qed.

Lemma Qabs_scaled (x : Q) (e : Z) : Qabs (x / pow2 e) == Qabs x / pow2 e.
Proof.
  unfold Qdiv. rewrite Qabs_Qmult, Qabs_Qinv, (Qabs_pos (pow2 e)); [reflexivity|].
  apply Qlt_le_weak, pow2_pos.
Qed.

Lemma fexp_lower (x : Q) : (ilog2 (Qabs x) + 1 - prec f <= fexp f x)%Z.
Proof. unfold fexp. lia. Qed.

Lemma fexp_emin (x : Q) : (emin f <= fexp f x)%Z.
Proof. unfold fexp. lia. Qed.

Lemma scaled_lt (x : Q) : ~ x == 0 -> Qabs (x / pow2 (fexp f x)) < pow2 (prec f).
Proof.
  intros Hx. rewrite Qabs_scaled.
  destruct (ilog2_spec (Qabs x) (Qabs_pos_lt x Hx)) as [_ Hhi].
  apply Qlt_shift_div_r; [apply pow2_pos|].
  rewrite <- pow2_plus.
  apply Qlt_le_trans with (pow2 (ilog2 (Qabs x) + 1)); [exact Hhi|].
  apply pow2_le. pose proof (fexp_lower x). lia.
Qed.

Lemma scaled_ge (x : Q) :
  ~ x == 0 -> (emin f < fexp f x)%Z -> pow2 (prec f - 1) <= Qabs (x / pow2 (fexp f x)).
Proof.
  intros Hx He. rewrite Qabs_scaled.
  destruct (ilog2_spec (Qabs x) (Qabs_pos_lt x Hx)) as [Hlo _].
  apply Qle_shift_div_l; [apply pow2_pos|].
  rewrite <- pow2_plus.
  apply Qle_trans with (pow2 (ilog2 (Qabs x))); [|exact Hlo].
  apply pow2_le. unfold fexp in *. lia.
Qed.

Lemma round_nonneg (x : Q) : 0 <= x -> 0 <= round f x.
Proof.
  intros Hx. destruct (Qeq_dec x 0) as [E|E].
  - rewrite (round_zero f x E). lra.
  - rewrite round_unfold by exact E.
    apply Qmult_le_0_compat; [|apply Qlt_le_weak, pow2_pos].
    change 0 with (inject_Z 0). rewrite <- Zle_Qle.
    rewrite <- (rne_Z 0 0) by reflexivity. apply rne_mono.
    apply Qle_shift_div_l; [apply pow2_pos|]. lra.
Qed.

Lemma round_nonpos (x : Q) : x <= 0 -> round f x <= 0.
Proof.
  intros Hx. assert (H : 0 <= round f (- x)) by (apply round_nonneg; lra).
  rewrite round_opp in H. lra.
Qed.

Lemma fexp_pos (x : Q) : 0 < x -> fexp f x = Z.max (ilog2 x - (prec f - 1)) (emin f).
Proof.
  intros Hx. unfold fexp. f_equal. f_equal. apply ilog2_comp.
  - apply Qabs_pos_lt. intros E. lra.
  - apply Qabs_pos. lra.
Qed.

Lemma round_pos_mono (x y : Q) : 0 < x -> x <= y -> round f x <= round f y.
Proof.
  intros Hx Hxy.
  assert (Hy : 0 < y) by lra.
  assert (Nx : ~ x == 0) by (intros E; lra).
  assert (Ny : ~ y == 0) by (intros E; lra).
  rewrite !round_unfold by assumption.
  assert (Hle : (fexp f x <= fexp f y)%Z).
  { rewrite !fexp_pos by assumption. pose proof (ilog2_le x y Hx Hxy). lia. }
  pose proof (scaled_lt x Nx) as Sx. rewrite Qabs_scaled, (Qabs_pos x) in Sx by lra.
  destruct (Z.eq_dec (fexp f x) (fexp f y)) as [Ee|Ene].
  - rewrite <- Ee. apply Qmult_le_compat_r; [|apply Qlt_le_weak, pow2_pos].
    rewrite <- Zle_Qle. apply rne_mono.
    apply Qmult_le_compat_r; [exact Hxy|]. apply Qlt_le_weak, Qinv_lt_0_compat, pow2_pos.
  - assert (Hlt : (fexp f x < fexp f y)%Z) by lia.
    pose proof (scaled_ge y Ny) as Sy. rewrite Qabs_scaled, (Qabs_pos y) in Sy by lra.
    pose proof (fexp_emin x).
    specialize (Sy ltac:(lia)).
    assert (Rx : (rne (x / pow2 (fexp f x)) <= 2 ^ prec f)%Z).
    { rewrite <- (rne_Z (pow2 (prec f)) (2 ^ prec f)) by (apply pow2_Z; lia).
      apply rne_mono. lra. }
    assert (Ry : (2 ^ (prec f - 1) <= rne (y / pow2 (fexp f y)))%Z).
    { rewrite <- (rne_Z (pow2 (prec f - 1)) (2 ^ (prec f - 1))) by (apply pow2_Z; lia).
      apply rne_mono. exact Sy. }
    apply Qle_trans with (pow2 (prec f + fexp f x)).
    + rewrite pow2_plus. apply Qmult_le_compat_r; [|apply Qlt_le_weak, pow2_pos].
      rewrite (pow2_Z (prec f)) by lia. rewrite <- Zle_Qle. exact Rx.
    + apply Qle_trans with (pow2 (prec f - 1 + fexp f y)); [apply pow2_le; lia|].
      rewrite pow2_plus. apply Qmult_le_compat_r; [|apply Qlt_le_weak, pow2_pos].
      rewrite (pow2_Z (prec f - 1)) by lia. rewrite <- Zle_Qle. exact Ry.
Qed.

(** Rounding is monotone. *)
Lemma round_mono (x y : Q) : x <= y -> round f x <= round f y.
Proof.
  intros Hxy. destruct (Qlt_le_dec 0 x) as [Hx|Hx].
  - apply round_pos_mono; assumption.
  - destruct (Qlt_le_dec y 0) as [Hy|Hy].
    + assert (H : round f (- y) <= round f (- x)) by (apply round_pos_mono; lra).
      rewrite !round_opp in H. lra.
    + pose proof (round_nonpos x Hx). pose proof (round_nonneg y Hy). lra.
Qed.


Lemma Qabs_inject_Z (m : Z) : Qabs (inject_Z m) == inject_Z (Z.abs m).
Proof. unfold inject_Z. symmetry. apply Zabs_Qabs. Qed.

Lemma round_fixed (x : Q) : representable f x -> round f x == x.
Proof.
  intros (m & e0 & Ex & Hm & He0).
  destruct (Qeq_dec x 0) as [E|Nx]; [rewrite (round_zero f x E); symmetry; exact E|].
  rewrite round_unfold by exact Nx.
  destruct (ilog2_spec (Qabs x) (Qabs_pos_lt x Nx)) as [Hlo _].
  assert (Ea : Qabs x == inject_Z (Z.abs m) * pow2 e0).
  { rewrite Ex, Qabs_Qmult, Qabs_inject_Z, (Qabs_pos (pow2 e0)); [reflexivity|].
    apply Qlt_le_weak, pow2_pos. }
  assert (Hj : (ilog2 (Qabs x) < prec f + e0)%Z).
  { apply pow2_lt_inv. apply Qle_lt_trans with (Qabs x); [exact Hlo|].
    rewrite Ea, pow2_plus. apply Qmult_lt_compat_r; [apply pow2_pos|].
    rewrite (pow2_Z (prec f)) by lia. rewrite <- Zlt_Qlt. exact Hm. }
  assert (Hle : (fexp f x <= e0)%Z) by (unfold fexp; lia).
  set (e := fexp f x) in *.
  assert (Es : x / pow2 e == inject_Z (m * 2 ^ (e0 - e))).
  { rewrite Ex, inject_Z_mult, <- (pow2_Z (e0 - e)) by lia.
    replace e0 with ((e0 - e) + e)%Z at 1 by lia. rewrite pow2_plus.
    field. apply Qnot_eq_sym, Qlt_not_eq, pow2_pos. }
  rewrite (rne_Z _ _ Es), inject_Z_mult, <- (pow2_Z (e0 - e)) by lia.
  rewrite Ex. replace e0 with ((e0 - e) + e)%Z at 2 by lia. rewrite pow2_plus. ring.
Qed.

Lemma round_representable (x : Q) : representable f (round f x).
Proof.
  destruct (Qeq_dec x 0) as [E|Nx].
  - rewrite (round_zero f x E). exists 0%Z, (emin f). split; [ring|]. split; [|lia].
    cbn. apply Z.pow_pos_nonneg; lia.
  - apply (representable_comp f _ _ (Qeq_sym _ _ (round_unfold x Nx))).
    pose proof (scaled_lt x Nx) as S. apply Qabs_Qlt_condition in S.
    set (s := x / pow2 (fexp f x)) in *.
    assert (Rhi : (rne s <= 2 ^ prec f)%Z).
    { rewrite <- (rne_Z (pow2 (prec f)) (2 ^ prec f)) by (apply pow2_Z; lia).
      apply rne_mono. lra. }
    assert (Rlo : (- 2 ^ prec f <= rne s)%Z).
    { rewrite <- (rne_Z (- pow2 (prec f)) (- 2 ^ prec f)).
      - apply rne_mono. lra.
      - rewrite inject_Z_opp, <- pow2_Z by lia. reflexivity. }
    pose proof (fexp_emin x) as He.
    assert (Hp2 : (2 ^ prec f = 2 * 2 ^ (prec f - 1))%Z).
    { rewrite <- Z.pow_succ_r by lia. f_equal. lia. }
    assert (Hpos : (0 < 2 ^ (prec f - 1))%Z) by (apply Z.pow_pos_nonneg; lia).
    destruct (Z.eq_dec (rne s) (2 ^ prec f)%Z) as [Eq|Ne];
      [|destruct (Z.eq_dec (rne s) (- 2 ^ prec f)%Z) as [Eq'|Ne']].
    + exists (2 ^ (prec f - 1))%Z, (fexp f x + 1)%Z.
      split; [|split; [lia|lia]].
      rewrite pow2_succ, Eq, Hp2, inject_Z_mult. change (inject_Z 2) with 2. ring.
    + exists (- 2 ^ (prec f - 1))%Z, (fexp f x + 1)%Z.
      split; [|split; [lia|lia]].
      rewrite pow2_succ, Eq', Hp2, !inject_Z_opp, inject_Z_mult.
      change (inject_Z 2) with 2. ring.
    + exists (rne s), (fexp f x). split; [reflexivity|]. split; [lia|lia].
Qed.

Lemma round_idem (x : Q) : round f (round f x) == round f x.
Proof. apply round_fixed, round_representable. Qed.

(** A value between two numbers of the format rounds to a value between
    them. *)
Lemma round_le_fixed (x c : Q) : round f c == c -> x <= c -> round f x <= c.
Proof. intros Hc Hx. rewrite <- Hc. apply round_mono. exact Hx. Qed.

Lemma round_ge_fixed (x c : Q) : round f c == c -> c <= x -> c <= round f x.
Proof. intros Hc Hx. rewrite <- Hc. apply round_mono. exact Hx. Qed.

(** The rounding error is at most half a unit in the last place. *)
Lemma round_error (x : Q) : Qabs (round f x - x) <= pow2 (fexp f x - 1).
Proof.
  destruct (Qeq_dec x 0) as [E|Nx].
  - rewrite (round_zero f x E).
    setoid_replace (0 - x) with 0 using relation Qeq by lra. apply Qlt_le_weak, pow2_pos.
  - rewrite round_unfold by exact Nx.
    set (e := fexp f x). set (s := x / pow2 e).
    assert (Ex : x == s * pow2 e).
    { unfold s. field. apply Qnot_eq_sym, Qlt_not_eq, pow2_pos. }
    setoid_replace (inject_Z (rne s) * pow2 e - x) with ((inject_Z (rne s) - s) * pow2 e) using relation Qeq
      by (rewrite Ex at 1; ring).
    rewrite Qabs_Qmult, (Qabs_pos (pow2 e)) by (apply Qlt_le_weak, pow2_pos).
    rewrite pow2_pred.
    pose proof (rne_error s) as H. pose proof (pow2_pos e) as Hp.
    setoid_replace (pow2 e / 2) with ((1 # 2) * pow2 e) using relation Qeq by field.
    apply Qmult_le_compat_r; [exact H|lra].
Qed.

Lemma round_error_below (x : Q) (k : Z) :
  Qabs x < pow2 k -> Qabs (round f x - x) <= pow2 (Z.max (k - prec f) (emin f) - 1).
Proof.
  intros Hk. destruct (Qeq_dec x 0) as [E|Nx].
  - rewrite (round_zero f x E).
    setoid_replace (0 - x) with 0 using relation Qeq by lra. apply Qlt_le_weak, pow2_pos.
  - apply Qle_trans with (pow2 (fexp f x - 1)); [apply round_error|].
    apply pow2_le.
    pose proof (ilog2_lt_pow2 (Qabs x) k (Qabs_pos_lt x Nx) Hk). unfold fexp. lia.
Qed.

End Rounding.

Lemma representable_wider (f g : format) (x : Q) :
  (prec f <= prec g)%Z -> (emin g <= emin f)%Z -> (0 < prec f)%Z ->
  representable f x -> representable g x.
Proof.
  intros Hp He H0 (m & e & Ex & Hm & Hee). exists m, e. split; [exact Ex|].
  split; [|lia].
  apply Z.lt_le_trans with (2 ^ prec f)%Z; [exact Hm|].
  apply Z.pow_le_mono_r; lia.
Qed.

Lemma f32_zero (x : Q) : x == 0 -> f32 x = 0.
Proof. apply round_zero. Qed.

Lemma f32_is_f64 (x : Q) : f32 x == x -> f64 x == x.
Proof.
  intros H. apply round_fixed; [reflexivity|].
  apply (representable_wider binary32); [cbn; lia|cbn; lia|reflexivity|].
  apply (representable_comp binary32 (f32 x) x H).
  apply round_representable. reflexivity.
Qed.

(** A power of two within the range of exponents is a number of the
    format. *)
Lemma round_pow2 (f : format) (k : Z) :
  (0 < prec f)%Z -> (emin f <= k)%Z -> round f (pow2 k) == pow2 k.
Proof.
  intros Hp Hk. apply round_fixed; [exact Hp|].
  exists 1%Z, k. split; [ring|]. split; [|exact Hk].
  cbn. apply Z.pow_gt_1; lia.
Qed.

(** The error of a double stored in single precision. *)
Lemma f32_f64_error (x : Q) (k : Z) :
  (-125 <= k)%Z -> Qabs x < pow2 k -> Qabs (f32 (f64 x) - x) <= pow2 (k - 23).
Proof.
  intros Hk Hx.
  assert (E1 : Qabs (f64 x - x) <= pow2 (k - 54)).
  { eapply Qle_trans; [apply (round_error_below binary64 x k Hx)|].
    apply pow2_le. cbn [prec emin binary64]. lia. }
  assert (B : Qabs (f64 x) < pow2 (k + 1)).
  { apply Qabs_Qlt_condition in Hx. destruct Hx as [Hx1 Hx2].
    assert (F : f64 (pow2 k) == pow2 k) by (apply round_pow2; [reflexivity|cbn; lia]).
    assert (F' : f64 (- pow2 k) == - pow2 k).
    { unfold f64. rewrite round_opp. fold f64. rewrite F. reflexivity. }
    pose proof (round_le_fixed binary64 eq_refl x (pow2 k) F (Qlt_le_weak _ _ Hx2)) as H1.
    pose proof (round_ge_fixed binary64 eq_refl x (- pow2 k) F' (Qlt_le_weak _ _ Hx1)) as H2.
    fold f64 in H1, H2. pose proof (pow2_lt k (k + 1) ltac:(lia)) as Hlt.
    apply Qabs_Qlt_condition. lra. }
  assert (E2 : Qabs (f32 (f64 x) - f64 x) <= pow2 (k - 24)).
  { eapply Qle_trans; [apply (round_error_below binary32 (f64 x) (k + 1) B)|].
    apply pow2_le. cbn [prec emin binary32]. lia. }
  assert (P1 : pow2 (k - 54) <= pow2 (k - 24)) by (apply pow2_le; lia).
  assert (P2 : pow2 (k - 23) == 2 * pow2 (k - 24)).
  { rewrite <- pow2_succ. replace (k - 24 + 1)%Z with (k - 23)%Z by lia. reflexivity. }
  assert (EK : f32 (f64 x) - x == (f32 (f64 x) - f64 x) + (f64 x - x)) by ring.
  rewrite EK. eapply Qle_trans; [apply Qabs_triangle|]. lra.
Qed.

(** ** Angular unwrapping *)

Lemma math_pi_pos : 0 < math_pi.
Proof. reflexivity. Qed.

Lemma two_pi_eq : two_pi == 2 * math_pi.
Proof. vm_compute. reflexivity. Qed.

Lemma f64_two_pi : f64 two_pi == two_pi.
Proof. apply round_idem. reflexivity. Qed.

Lemma f64_neg_math_pi : f64 (- math_pi) == - math_pi.
Proof. vm_compute. reflexivity. Qed.

Lemma fmod_bounds (x y : Q) :
  0 < y -> (0 <= x -> 0 <= fmod x y /\ fmod x y < y) /\
           (x < 0 -> - y < fmod x y /\ fmod x y <= 0).
Proof.
  intros Hy. unfold fmod, Qtrunc.
  assert (Ex : x == (x / y) * y) by (field; lra).
  destruct (Qlt_le_dec (x / y) 0) as [Hq|Hq].
  - assert (Hx : x < 0).
    { rewrite Ex. setoid_replace 0 with (0 * y) using relation Qeq by ring.
      apply Qmult_lt_compat_r; assumption. }
    split; [intros H; lra|intros _].
    pose proof (Qle_ceiling (x / y)) as H1. pose proof (Qceiling_lt (x / y)) as H2.
    unfold Z.sub in H2. rewrite inject_Z_plus, inject_Z_opp in H2.
    change (inject_Z 1) with 1 in H2.
    set (c := inject_Z (Qceiling (x / y))) in *. set (q := x / y) in *.
    assert (q * y <= c * y) by (apply Qmult_le_compat_r; lra).
    assert ((c + - (1)) * y < q * y) by (apply Qmult_lt_compat_r; lra).
    split; lra.
  - assert (Hx : 0 <= x).
    { rewrite Ex. apply Qmult_le_0_compat; lra. }
    split; [intros _|intros H; lra].
    pose proof (Qfloor_le (x / y)) as H1. pose proof (Qlt_floor (x / y)) as H2.
    rewrite inject_Z_plus in H2. change (inject_Z 1) with 1 in H2.
    set (c := inject_Z (Qfloor (x / y))) in *. set (q := x / y) in *.
    assert (c * y <= q * y) by (apply Qmult_le_compat_r; lra).
    assert (q * y < (c + 1) * y) by (apply Qmult_lt_compat_r; lra).
    split; lra.
Qed.

Lemma fmod_abs (x y : Q) : 0 < y -> - y < fmod x y /\ fmod x y < y.
Proof.
  intros Hy. destruct (fmod_bounds x y Hy) as [H1 H2].
  destruct (Qlt_le_dec x 0) as [Hx|Hx]; [specialize (H2 Hx)|specialize (H1 Hx)]; lra.
Qed.

(** What [py_mod] returns for a positive divisor that is a double. *)
Lemma py_mod_cases (v w : Q) :
  0 < w ->
  (0 <= fmod v w /\ py_mod v w == fmod v w) \/
  (fmod v w < 0 /\ py_mod v w = f64 (fmod v w + w)).
Proof.
  intros Hw. unfold py_mod.
  destruct (Qeq_bool (fmod v w) 0) eqn:E0.
  - apply Qeq_bool_iff in E0. left. split; lra.
  - apply Qeq_bool_neq in E0.
    destruct (Qlt_le_dec w 0) as [Hw'|_]; [lra|].
    destruct (Qlt_le_dec (fmod v w) 0) as [Hm|Hm]; cbn.
    + right. split; [exact Hm|reflexivity].
    + left. split; [exact Hm|reflexivity].
Qed.

Lemma py_mod_bounds (v w : Q) :
  0 < w -> f64 w == w -> 0 <= py_mod v w /\ py_mod v w <= w.
Proof.
  intros Hw Fw. pose proof (fmod_abs v w Hw) as [Hlo Hhi].
  destruct (py_mod_cases v w Hw) as [[H1 H2]|[H1 H2]].
  - rewrite H2. lra.
  - rewrite H2. split.
    + apply round_nonneg; lra.
    + apply round_le_fixed; [reflexivity|exact Fw|lra].
Qed.

Lemma wrap_diff_bounds (next prev : Q) :
  - math_pi <= wrap_diff next prev /\ wrap_diff next prev <= math_pi.
Proof.
  unfold wrap_diff. pose proof math_pi_pos as Hpi. pose proof two_pi_eq as E2.
  destruct (py_mod_bounds (f64 (next - prev)) two_pi) as [Hlo Hhi]; [lra|apply f64_two_pi|].
  set (m := py_mod (f64 (next - prev)) two_pi) in *.
  destruct (Qlt_le_dec math_pi m) as [H1|H1].
  - split.
    + apply round_ge_fixed; [reflexivity|apply f64_neg_math_pi|lra].
    + apply Qle_trans with 0; [|lra]. apply round_nonpos; lra.
  - destruct (Qlt_le_dec m (- math_pi)) as [H2|H2]; lra.
Qed.

(** The wrapped difference is the rounded difference moved by a whole
    number of turns, up to the rounding of the remainder. *)
Lemma wrap_diff_turns (next prev : Q) :
  exists k : Z,
    Qabs (wrap_diff next prev - (f64 (next - prev) + inject_Z k * (2 * math_pi)))
    <= pow2 (-50).
Proof.
  unfold wrap_diff. pose proof math_pi_pos as Hpi. pose proof two_pi_eq as E2.
  set (D := f64 (next - prev)).
  assert (Hw : 0 < two_pi) by lra.
  assert (Hpi4 : math_pi < 4) by reflexivity.
  pose proof (fmod_abs D two_pi Hw) as [Flo Fhi].
  destruct (py_mod_bounds D two_pi Hw f64_two_pi) as [Hlo Hhi].
  assert (Ef : fmod D two_pi == D - inject_Z (Qtrunc (D / two_pi)) * (2 * math_pi)).
  { unfold fmod. set (t := Qtrunc (D / two_pi)). rewrite E2. ring. }
  set (t := Qtrunc (D / two_pi)) in *.
  assert (Em : exists j : Z,
             Qabs (py_mod D two_pi - (D + inject_Z j * (2 * math_pi))) <= pow2 (-51)).
  { destruct (py_mod_cases D two_pi Hw) as [[H1 H2]|[H1 H2]].
    - exists (- t)%Z.
      assert (EK : py_mod D two_pi - (D + inject_Z (- t) * (2 * math_pi)) == 0).
      { rewrite H2, Ef, inject_Z_opp. ring. }
      rewrite EK. apply Qlt_le_weak, pow2_pos.
    - exists (- t + 1)%Z. rewrite H2.
      assert (EK : D + inject_Z (- t + 1) * (2 * math_pi) == fmod D two_pi + two_pi).
      { rewrite Ef, E2, inject_Z_plus, inject_Z_opp. change (inject_Z 1) with 1. ring. }
      rewrite EK.
      apply (round_error_below binary64 (fmod D two_pi + two_pi) 3).
      apply Qabs_Qlt_condition. change (pow2 3) with 8. lra. }
  destruct Em as (j & Hj).
  set (m := py_mod D two_pi) in *.
  set (T := 2 * math_pi) in *.
  assert (P : pow2 (-51) + pow2 (-52) <= pow2 (-50)) by (vm_compute; discriminate).
  pose proof (pow2_pos (-52)) as P52.
  destruct (Qlt_le_dec math_pi m) as [H1|H1].
  - exists (j - 1)%Z.
    assert (He : Qabs (f64 (m - two_pi) - (m - two_pi)) <= pow2 (-52)).
    { apply (round_error_below binary64 (m - two_pi) 2).
      apply Qabs_Qlt_condition. change (pow2 2) with 4. unfold T in *. lra. }
    assert (EK : f64 (m - two_pi) - (D + inject_Z (j - 1) * T) ==
                 (f64 (m - two_pi) - (m - two_pi)) + (m - (D + inject_Z j * T))).
    { generalize (f64 (m - two_pi)). intros X.
      unfold Z.sub. rewrite inject_Z_plus, inject_Z_opp, E2. change (inject_Z 1) with 1.
      unfold T. ring. }
    rewrite EK.
    eapply Qle_trans; [apply Qabs_triangle|]. lra.
  - destruct (Qlt_le_dec m (- math_pi)) as [H2|H2]; [lra|].
    exists j. lra.
Qed.

Lemma unwrap_axis_at (pre : list keypoint) (p k : keypoint) (l : list keypoint) (ax : nat) :
  unwrap_axis (pre ++ p :: k :: l) (S (length pre)) ax =
  Val (pre ++ p ::
         (fst k, euler_set (snd k) ax
                   (f64 (euler_get (snd p) ax
                         + wrap_diff (euler_get (snd k) ax) (euler_get (snd p) ax)))) :: l).
Proof.
  unfold unwrap_axis, py_index.
  replace (S (length pre) - 1)%nat with (length pre + 0)%nat by lia.
  replace (S (length pre)) with (length pre + 1)%nat by lia.
  rewrite !lookup_app_r by lia.
  replace (length pre + 1 - length pre)%nat with 1%nat by lia.
  replace (length pre + 0 - length pre)%nat with 0%nat by lia.
  simpl. f_equal.
  rewrite insert_app_r. reflexivity.
Qed.

Lemma unwrap_axes_at (pre : list keypoint) (p k : keypoint) (l : list keypoint) :
  unwrap_axes (pre ++ p :: k :: l) (S (length pre)) (seq 0 3) =
  Val (pre ++ p :: (fst k, unwrap_euler (snd p) (snd k)) :: l).
Proof.
  simpl. rewrite unwrap_axis_at. simpl.
  rewrite unwrap_axis_at. simpl.
  rewrite unwrap_axis_at. simpl.
  destruct k as [loc [a b c]], p as [ploc [pa pb pc]]. reflexivity.
Qed.

Lemma unwrap_from_at (l pre : list keypoint) (p : keypoint) :
  unwrap_from (pre ++ p :: l) (seq (S (length pre)) (length l)) =
  Val (pre ++ p :: unwrap_chain (snd p) l).
Proof.
  revert pre p. induction l as [|k l IH]; intros pre p; [reflexivity|].
  cbn [length seq unwrap_from unwrap_chain].
  rewrite unwrap_axes_at. cbn [mbind res_mbind res_bind].
  specialize (IH (pre ++ [p]) (fst k, unwrap_euler (snd p) (snd k))).
  rewrite length_app in IH. cbn [length] in IH.
  replace (length pre + 1)%nat with (S (length pre)) in IH by lia.
  rewrite <- !app_assoc in IH. exact IH.
Qed.

Lemma minimize_cons (k : keypoint) (l : list keypoint) :
  minimize_objects_angular_distance (k :: l) = Val (k :: unwrap_chain (snd k) l).
Proof.
  unfold minimize_objects_angular_distance. cbn [length].
  replace (S (length l) - 1)%nat with (length l) by lia.
  exact (unwrap_from_at l [] k).
Qed.

Lemma minimize_nil : minimize_objects_angular_distance [] = Val [].
Proof. reflexivity. Qed.

Lemma unwrap_chain_length (prev : Euler) (l : list keypoint) :
  length (unwrap_chain prev l) = length l.
Proof. revert prev. induction l as [|k l IH]; intros prev; simpl; [|rewrite IH]; reflexivity. Qed.

Lemma euler_get_unwrap (prev e : Euler) (ax : nat) :
  euler_get (unwrap_euler prev e) ax =
  unwrap_angle (euler_get prev ax) (euler_get e ax).
Proof. destruct ax as [|[|ax]]; reflexivity. Qed.

(** Consecutive entries of [p :: unwrap_chain (snd p) l]. *)
Lemma unwrap_chain_lookup (l : list keypoint) (p : keypoint) (i : nat) (a b n : keypoint) :
  (p :: unwrap_chain (snd p) l) !! i = Some a ->
  (p :: unwrap_chain (snd p) l) !! S i = Some b ->
  (p :: l) !! S i = Some n ->
  fst b = fst n /\ snd b = unwrap_euler (snd a) (snd n).
Proof.
  revert p i a b n. induction l as [|k l IH]; intros p i a b n Ha Hb Hn.
  - destruct i; discriminate.
  - destruct i as [|i].
    + simpl in *. inversion Ha; inversion Hb; inversion Hn; subst. split; reflexivity.
    + cbn [unwrap_chain] in Ha, Hb.
      change ((fst k, unwrap_euler (snd p) (snd k))
              :: unwrap_chain (snd (fst k, unwrap_euler (snd p) (snd k))) l) with
        ((fst k, unwrap_euler (snd p) (snd k))
              :: unwrap_chain (unwrap_euler (snd p) (snd k)) l) in IH.
      eapply (IH (fst k, unwrap_euler (snd p) (snd k)) i a b n).
      * exact Ha.
      * exact Hb.
      * exact Hn.
Qed.


(** What the loop makes of one angle: the angle before it plus a wrapped
    difference [d], rounded to a double and stored in single precision.  [d]
    lies within [-pi, pi], and is the difference of the two angles moved by a
    whole number of turns, up to the rounding of the remainder. *)
Lemma unwrap_angle_spec (prev next : Q) :
  exists d : Q,
    unwrap_angle prev next = f32 (f64 (prev + d)) /\
    - math_pi <= d /\ d <= math_pi /\
    (exists k : Z,
       Qabs (d - (f64 (next - prev) + inject_Z k * (2 * math_pi))) <= pow2 (-50)) /\
    (forall e : Z,
       (-125 <= e)%Z -> Qabs (prev + d) < pow2 e ->
       Qabs (unwrap_angle prev next - prev - d) <= pow2 (e - 23)).
Proof.
  exists (wrap_diff next prev). split; [reflexivity|].
  destruct (wrap_diff_bounds next prev) as [Hlo Hhi].
  split; [exact Hlo|]. split; [exact Hhi|]. split; [apply wrap_diff_turns|].
  intros e He Hb. unfold unwrap_angle.
  pose proof (f32_f64_error (prev + wrap_diff next prev) e He Hb) as H.
  assert (EK : f32 (f64 (prev + wrap_diff next prev)) - prev - wrap_diff next prev ==
               f32 (f64 (prev + wrap_diff next prev)) - (prev + wrap_diff next prev))
    by ring.
  rewrite EK. exact H.
Qed.

(** The loop on a list of distinct poses. *)
Lemma minimize_values (ks : list keypoint) :
  exists out,
    minimize_objects_angular_distance ks = Val out /\
    length out = length ks /\
    out !! 0%nat = ks !! 0%nat /\
    forall (i : nat) (a b n : keypoint),
      out !! i = Some a -> out !! S i = Some b -> ks !! S i = Some n ->
      fst b = fst n /\ snd b = unwrap_euler (snd a) (snd n).
Proof.
  destruct ks as [|p l].
  - exists []. do 3 (split; [reflexivity|]). intros i a b n Ha. discriminate.
  - exists (p :: unwrap_chain (snd p) l). split; [apply minimize_cons|].
    split; [simpl; rewrite unwrap_chain_length; reflexivity|].
    split; [reflexivity|].
    intros i a b n Ha Hb Hn. exact (unwrap_chain_lookup l p i a b n Ha Hb Hn).
Qed.

(** *** The loop on the store *)

Lemma read_keypoint_inv (h : heap) (p : loc) (k : keypoint) :
  read_keypoint h p = Some k ->
  exists a b,
    h !! p = Some (PyList [a; b]) /\ h !! a = Some (PyVector (fst k)) /\
    h !! b = Some (PyEuler (snd k)).
Proof.
  unfold read_keypoint, read_vector, read_euler. intros H.
  destruct (h !! p) as [[v|e|items]|] eqn:Hp; try discriminate.
  destruct items as [|a [|b [|c items]]]; try discriminate.
  destruct (h !! a) as [[v|e|items]|] eqn:Ha; try discriminate.
  destruct (h !! b) as [[v'|e|items]|] eqn:Hb; try discriminate.
  inversion H; subst. exists a, b. auto.
Qed.

Lemma pose_rotation_at (h : heap) (poses : list loc) (i : nat) (p a b : loc) :
  poses !! i = Some p -> h !! p = Some (PyList [a; b]) ->
  pose_rotation h poses i = Val b.
Proof.
  intros Hp Hh. unfold pose_rotation, py_index. rewrite Hp.
  cbn [mbind res_mbind res_bind]. rewrite Hh. reflexivity.
Qed.

Lemma read_component_euler (h : heap) (r : loc) (e : Euler) (ax : nat) :
  h !! r = Some (PyEuler e) -> read_component h r ax = Val (Some (euler_get e ax)).
Proof. intros Hr. unfold read_component. rewrite Hr. reflexivity. Qed.

(** Writing a rotation leaves the poses that hold another rotation as they
    were, and changes the rotation of the poses that hold it. *)
Lemma read_keypoint_insert (h : heap) (r : loc) (e0 e : Euler) (p b : loc) (k : keypoint) :
  h !! r = Some (PyEuler e0) ->
  read_keypoint h p = Some k -> rotation_of h p = Some b ->
  rotation_of (<[r := PyEuler e]> h) p = Some b /\
  read_keypoint (<[r := PyEuler e]> h) p = Some (if decide (b = r) then (fst k, e) else k).
Proof.
  intros Hr Hk Hb.
  destruct (read_keypoint_inv h p k Hk) as (a & b' & Hp & Ha & Hb').
  assert (b' = b) by (unfold rotation_of in Hb; rewrite Hp in Hb; congruence). subst b'.
  assert (Npr : r <> p) by (intros ->; congruence).
  assert (Nar : r <> a) by (intros ->; congruence).
  unfold rotation_of, read_keypoint, read_vector, read_euler.
  rewrite (lookup_insert_ne h r p) by exact Npr. rewrite Hp.
  split; [reflexivity|].
  rewrite (lookup_insert_ne h r a) by exact Nar. rewrite Ha.
  destruct (decide (b = r)) as [->|Nbr].
  - rewrite lookup_insert_eq. reflexivity.
  - rewrite lookup_insert_ne by congruence. rewrite Hb'. destruct k; reflexivity.
Qed.

(** One step of the loop on the store is the step on the values, when the
    poses hold distinct rotation objects. *)
Lemma unwrap_axis_sim (h : heap) (poses bs : list loc) (ks ks' : list keypoint)
    (i ax : nat) :
  Forall2 (fun p k => read_keypoint h p = Some k) poses ks ->
  Forall2 (fun p b => rotation_of h p = Some b) poses bs ->
  NoDup bs ->
  unwrap_axis ks i ax = Val ks' ->
  exists h',
    unwrap_axis_in poses i ax h = Val h' /\
    Forall2 (fun p k => read_keypoint h' p = Some k) poses ks' /\
    Forall2 (fun p b => rotation_of h' p = Some b) poses bs /\
    (forall l, l ∉ bs -> h' !! l = h !! l).
Proof.
  intros Hks Hbs Hnd Hstep.
  unfold unwrap_axis, py_index in Hstep.
  destruct (ks !! i) as [ki|] eqn:Hki; [|discriminate].
  destruct (ks !! (i - 1)%nat) as [kp|] eqn:Hkp; [|discriminate].
  cbn [mbind res_mbind res_bind] in Hstep. inversion Hstep; subst ks'; clear Hstep.
  destruct (Forall2_lookup_r _ _ _ _ _ Hks Hki) as (pi & Hpi & Hri).
  destruct (Forall2_lookup_r _ _ _ _ _ Hks Hkp) as (pp & Hpp & Hrp).
  destruct (Forall2_lookup_l _ _ _ _ _ Hbs Hpi) as (bi & Hbi & Hroti).
  destruct (read_keypoint_inv _ _ _ Hri) as (ai & bi' & Hhpi & Hhai & Hhbi).
  destruct (read_keypoint_inv _ _ _ Hrp) as (ap & bp & Hhpp & Hhap & Hhbp).
  assert (bi' = bi) by (unfold rotation_of in Hroti; rewrite Hhpi in Hroti; congruence).
  subst bi'.
  set (e' := euler_set (snd ki) ax
               (f64 (euler_get (snd kp) ax
                     + wrap_diff (euler_get (snd ki) ax) (euler_get (snd kp) ax)))).
  exists (<[bi := PyEuler e']> h).
  split; [|split; [|split]].
  - unfold unwrap_axis_in.
    rewrite (pose_rotation_at h poses i pi ai bi Hpi Hhpi).
    cbn [mbind res_mbind res_bind].
    rewrite (read_component_euler h bi (snd ki) ax Hhbi).
    cbn [mbind res_mbind res_bind].
    rewrite (pose_rotation_at h poses (i - 1) pp ap bp Hpp Hhpp).
    cbn [mbind res_mbind res_bind].
    rewrite (read_component_euler h bp (snd kp) ax Hhbp).
    cbn [mbind res_mbind res_bind].
    unfold write_component. rewrite Hhbi. reflexivity.
  - apply Forall2_same_length_lookup. split.
    + rewrite length_insert. eapply Forall2_length. exact Hks.
    + intros j pj k' Hpj Hk'.
      destruct (Forall2_lookup_l _ _ _ _ _ Hks Hpj) as (kj & Hkj & Hrj).
      destruct (Forall2_lookup_l _ _ _ _ _ Hbs Hpj) as (bj & Hbj & Hrotj).
      destruct (read_keypoint_insert h bi (snd ki) e' pj bj kj Hhbi Hrj Hrotj) as [_ Hnew].
      rewrite Hnew. f_equal.
      destruct (decide (j = i)) as [->|Nji].
      * rewrite list_lookup_insert_eq in Hk' by (eapply lookup_lt_Some; exact Hki).
        rewrite Hpi in Hpj. inversion Hpj; subst pj.
        rewrite Hbi in Hbj. inversion Hbj; subst bj.
        rewrite Hki in Hkj. inversion Hkj; subst kj.
        rewrite decide_True by reflexivity. congruence.
      * rewrite list_lookup_insert_ne in Hk' by congruence.
        rewrite Hkj in Hk'. inversion Hk'; subst k'.
        rewrite decide_False; [reflexivity|].
        intros ->. apply Nji. exact (NoDup_lookup bs j i bi Hnd Hbj Hbi).
  - apply Forall2_same_length_lookup. split; [eapply Forall2_length; exact Hbs|].
    intros j pj bj Hpj Hbj.
    destruct (Forall2_lookup_l _ _ _ _ _ Hks Hpj) as (kj & Hkj & Hrj).
    destruct (Forall2_lookup_l _ _ _ _ _ Hbs Hpj) as (bj' & Hbj' & Hrotj).
    rewrite Hbj in Hbj'. inversion Hbj'; subst bj'.
    exact (proj1 (read_keypoint_insert h bi (snd ki) e' pj bj kj Hhbi Hrj Hrotj)).
  - intros l Hl. apply lookup_insert_ne. intros ->. apply Hl.
    eapply list_elem_of_lookup_2. exact Hbi.
Qed.

Lemma unwrap_axes_sim (poses bs : list loc) (i : nat) (axes : list nat) :
  NoDup bs ->
  forall (h : heap) (ks ks' : list keypoint),
    Forall2 (fun p k => read_keypoint h p = Some k) poses ks ->
    Forall2 (fun p b => rotation_of h p = Some b) poses bs ->
    unwrap_axes ks i axes = Val ks' ->
    exists h',
      unwrap_axes_in poses i axes h = Val h' /\
      Forall2 (fun p k => read_keypoint h' p = Some k) poses ks' /\
      Forall2 (fun p b => rotation_of h' p = Some b) poses bs /\
      (forall l, l ∉ bs -> h' !! l = h !! l).
Proof.
  intros Hnd. induction axes as [|ax axes IH]; intros h ks ks' Hks Hbs Hrun.
  - inversion Hrun; subst. exists h. auto.
  - cbn [unwrap_axes] in Hrun.
    destruct (unwrap_axis ks i ax) as [ks1|e|] eqn:H1; try discriminate.
    cbn [mbind res_mbind res_bind] in Hrun.
    destruct (unwrap_axis_sim h poses bs ks ks1 i ax Hks Hbs Hnd H1)
      as (h1 & Hs1 & Hks1 & Hbs1 & Hf1).
    destruct (IH h1 ks1 ks' Hks1 Hbs1 Hrun) as (h' & Hs & Hks' & Hbs' & Hf).
    exists h'. cbn [unwrap_axes_in]. rewrite Hs1. cbn [mbind res_mbind res_bind].
    split; [exact Hs|]. split; [exact Hks'|]. split; [exact Hbs'|].
    intros l Hl. rewrite Hf, Hf1 by exact Hl. reflexivity.
Qed.

Lemma unwrap_from_sim (poses bs : list loc) (indices : list nat) :
  NoDup bs ->
  forall (h : heap) (ks ks' : list keypoint),
    Forall2 (fun p k => read_keypoint h p = Some k) poses ks ->
    Forall2 (fun p b => rotation_of h p = Some b) poses bs ->
    unwrap_from ks indices = Val ks' ->
    exists h',
      unwrap_from_in poses indices h = Val h' /\
      Forall2 (fun p k => read_keypoint h' p = Some k) poses ks' /\
      Forall2 (fun p b => rotation_of h' p = Some b) poses bs /\
      (forall l, l ∉ bs -> h' !! l = h !! l).
Proof.
  intros Hnd. induction indices as [|i indices IH]; intros h ks ks' Hks Hbs Hrun.
  - inversion Hrun; subst. exists h. auto.
  - cbn [unwrap_from] in Hrun.
    destruct (unwrap_axes ks i (seq 0 3)) as [ks1|e|] eqn:H1; try discriminate.
    cbn [mbind res_mbind res_bind] in Hrun.
    destruct (unwrap_axes_sim poses bs i (seq 0 3) Hnd h ks ks1 Hks Hbs H1)
      as (h1 & Hs1 & Hks1 & Hbs1 & Hf1).
    destruct (IH h1 ks1 ks' Hks1 Hbs1 Hrun) as (h' & Hs & Hks' & Hbs' & Hf).
    exists h'. cbn [unwrap_from_in]. rewrite Hs1. cbn [mbind res_mbind res_bind].
    split; [exact Hs|]. split; [exact Hks'|]. split; [exact Hbs'|].
    intros l Hl. rewrite Hf, Hf1 by exact Hl. reflexivity.
Qed.

(** C4, amended.  For a list of poses that hold distinct rotation objects,
    angular unwrapping completes and changes nothing but those rotations;
    the list then reads as a sequence of the same length with the same first
    pose and the same positions, which is also what the loop on the values
    gives.  On each axis, each later angle is the angle before it in the
    output plus a wrapped difference [d], the sum rounded to a double and
    stored in single precision.  [d] lies within [-pi, pi]; it is the
    difference between the pose's input angle and the angle before it,
    rounded to a double and moved by a whole number of turns, up to 2^-50 for
    the rounding of the remainder.  The step between the two output angles
    is [d] up to the rounding of the sum: up to 2^(e-23) when the sum is
    below 2^e in magnitude. *)
Theorem minimize_unwraps (h : heap) (objects : loc) (ks : list keypoint)
    (bs : list loc) :
  read_keypoints h objects = Some ks ->
  rotations h objects = Some bs ->
  NoDup bs ->
  exists h' out,
    minimize_objects_angular_distance_in objects h = Val h' /\
    read_keypoints h' objects = Some out /\
    minimize_objects_angular_distance ks = Val out /\
    (forall l, l ∉ bs -> h' !! l = h !! l) /\
    length out = length ks /\
    out !! 0%nat = ks !! 0%nat /\
    forall (i ax : nat) (a b n : keypoint),
      out !! i = Some a -> out !! S i = Some b -> ks !! S i = Some n ->
      fst b = fst n /\
      exists d : Q,
        euler_get (snd b) ax = f32 (f64 (euler_get (snd a) ax + d)) /\
        - math_pi <= d /\ d <= math_pi /\
        (exists k : Z,
           Qabs (d - (f64 (euler_get (snd n) ax - euler_get (snd a) ax)
                      + inject_Z k * (2 * math_pi))) <= pow2 (-50)) /\
        (forall e : Z,
           (-125 <= e)%Z -> Qabs (euler_get (snd a) ax + d) < pow2 e ->
           Qabs (euler_get (snd b) ax - euler_get (snd a) ax - d) <= pow2 (e - 23)).
Proof.
  intros Hread Hrot Hnd.
  unfold read_keypoints in Hread. unfold rotations in Hrot.
  destruct (h !! objects) as [[v|e|poses]|] eqn:Hobj; try discriminate.
  apply mapM_Some in Hread. apply mapM_Some in Hrot.
  destruct (minimize_values ks) as (out & Hmin & Hlen & Hfirst & Hsteps).
  assert (Hrun := Hmin). unfold minimize_objects_angular_distance in Hrun.
  destruct (unwrap_from_sim poses bs (seq 1 (length ks - 1)) Hnd h ks out Hread Hrot Hrun)
    as (h' & Hs & Hks' & _ & Hframe).
  assert (Hout : objects ∉ bs).
  { intros Hin. apply list_elem_of_lookup_1 in Hin as (j & Hj).
    destruct (Forall2_lookup_r _ _ _ _ _ Hrot Hj) as (pj & Hpj & Hrj).
    destruct (Forall2_lookup_l _ _ _ _ _ Hread Hpj) as (kj & _ & Hkj).
    destruct (read_keypoint_inv _ _ _ Hkj) as (a & b & Hp & _ & Hb).
    unfold rotation_of in Hrj. rewrite Hp in Hrj. inversion Hrj; subst b. congruence. }
  exists h', out.
  split.
  { unfold minimize_objects_angular_distance_in. rewrite Hobj.
    rewrite (Forall2_length _ _ _ Hread). exact Hs. }
  split.
  { unfold read_keypoints. rewrite (Hframe objects Hout), Hobj.
    apply mapM_Some. exact Hks'. }
  split; [exact Hmin|]. split; [exact Hframe|]. split; [exact Hlen|].
  split; [exact Hfirst|].
  intros i ax a b n Ha Hb Hn.
  destruct (Hsteps i a b n Ha Hb Hn) as [Hloc Hrotn].
  split; [exact Hloc|].
  rewrite Hrotn, euler_get_unwrap.
  destruct (unwrap_angle_spec (euler_get (snd a) ax) (euler_get (snd n) ax))
    as (d & Hd & Hlo & Hhi & Hk & Herr).
  exists d. rewrite <- Hd. auto.
Qed.

(** Two distinct poses with the angles -2.719475 and 0.42211765 about X:
    the second is moved to -5.8610678. *)
Lemma minimize_unwraps_witness :
  exists h' out,
    minimize_objects_angular_distance_in 1%positive unwrap_store = Val h' /\
    read_keypoints h' 1%positive = Some out /\
    map (fun k => Qred (e0 (snd k))) out =
      [- (11406305 # 4194304); - (6145775 # 1048576)].
Proof.
  destruct (minimize_unwraps unwrap_store 1%positive
              [(origin, mkEuler (- (11406305 # 4194304)) 0 0);
               (origin, mkEuler (7081959 # 16777216) 0 0)]
              [4; 7]%positive)
    as (h' & out & Hrun & Hread & Hmin & _).
  - vm_compute. reflexivity.
  - vm_compute. reflexivity.
  - apply NoDup_cons. split; [rewrite list_elem_of_singleton; discriminate|apply NoDup_singleton].
  - exists h', out. split; [exact Hrun|]. split; [exact Hread|].
    vm_compute in Hmin. inversion Hmin; subst out. vm_compute. reflexivity.
Defined.

(** C4 as stated fails.  For the two single-precision angles -2.719475 and
    0.42211765, on distinct poses, the step between the output angles is
    -3.14159274, below -pi: the sum of the angle before and the wrapped
    difference is rounded when it is stored.  And in a list that holds its
    first pose a second time at its end, with the angles 0, 3, 6 and 0, the
    last step of the loop moves that pose to 6.2831855, which leaves a step
    of -3.28 between the first two poses. *)
Lemma minimize_step_counterexample :
  (exists h' a b,
     minimize_objects_angular_distance_in 1%positive unwrap_store = Val h' /\
     read_keypoints h' 1%positive = Some [a; b] /\
     euler_get (snd b) 0 - euler_get (snd a) 0 < - math_pi) /\
  (exists h' a b c d,
     minimize_objects_angular_distance_in 1%positive shared_store = Val h' /\
     read_keypoints h' 1%positive = Some [a; b; c; d] /\
     euler_get (snd b) 0 - euler_get (snd a) 0 < - math_pi).
Proof.
  split.
  - eexists _, _, _. split; [vm_compute; reflexivity|].
    split; [vm_compute; reflexivity|]. vm_compute. reflexivity.
  - eexists _, _, _, _, _. split; [vm_compute; reflexivity|].
    split; [vm_compute; reflexivity|]. vm_compute. reflexivity.
Qed.


(** ** The parity test *)

Section PointInside.

Variable host : Host.
Variable object : Object.

Lemma count_crossings_miss (fuel : nat) (axis orig : Vector) (count : nat) :
  misses host object axis orig ->
  count_crossings host (S fuel) object axis orig count = Val count.
Proof.
  unfold misses, cast_along. intros H. simpl. rewrite H. reflexivity.
Qed.

Lemma count_crossings_hit (fuel : nat) (axis orig : Vector) (count : nat) :
  ~ misses host object axis orig ->
  count_crossings host (S fuel) object axis orig count =
  count_crossings host fuel object axis (restart host object axis orig) (count + 1).
Proof.
  unfold misses, cast_along, restart. intros H. simpl.
  destruct (Z.eqb_spec (hit_index (ray_cast host object orig
              (vadd orig (vscale axis 10000)) None)) (-1)) as [E|E];
    [contradiction|reflexivity].
Qed.

Lemma misses_dec (axis orig : Vector) :
  {misses host object axis orig} + {~ misses host object axis orig}.
Proof. unfold misses. apply Z.eq_dec. Qed.

(** The loop never raises. *)
Lemma count_crossings_no_exc (fuel : nat) (axis orig : Vector) (count : nat) (e : exn) :
  count_crossings host fuel object axis orig count <> Exc e.
Proof.
  revert orig count. induction fuel as [|fuel IH]; intros orig count; [discriminate|].
  destruct (misses_dec axis orig) as [Hm|Hm].
  - rewrite count_crossings_miss by exact Hm. discriminate.
  - rewrite count_crossings_hit by exact Hm. apply IH.
Qed.

(** With budget to spare, the loop returns the number of crossings. *)
Lemma count_crossings_complete (axis orig : Vector) (n : nat) :
  crossings host object axis orig n ->
  forall fuel count, (n < fuel)%nat ->
    count_crossings host fuel object axis orig count = Val (count + n)%nat.
Proof.
  induction 1 as [orig Hm|orig n Hm _ IH]; intros fuel count Hlt.
  - destruct fuel as [|fuel]; [lia|].
    rewrite count_crossings_miss by exact Hm. f_equal. lia.
  - destruct fuel as [|fuel]; [lia|].
    rewrite count_crossings_hit by exact Hm.
    rewrite IH by lia. f_equal. lia.
Qed.

(** What the loop returns is the number of crossings. *)
Lemma count_crossings_sound (fuel : nat) (axis orig : Vector) (count r : nat) :
  count_crossings host fuel object axis orig count = Val r ->
  exists n, r = (count + n)%nat /\ (n < fuel)%nat /\ crossings host object axis orig n.
Proof.
  revert orig count. induction fuel as [|fuel IH]; intros orig count H; [discriminate|].
  destruct (misses_dec axis orig) as [Hm|Hm].
  - rewrite count_crossings_miss in H by exact Hm. inversion H; subst.
    exists 0%nat. split; [lia|]. split; [lia|]. constructor. exact Hm.
  - rewrite count_crossings_hit in H by exact Hm.
    destruct (IH _ _ H) as (n & -> & Hlt & Hc).
    exists (S n). split; [lia|]. split; [lia|]. constructor; assumption.
Qed.

Lemma crossings_functional (axis orig : Vector) (n n' : nat) :
  crossings host object axis orig n -> crossings host object axis orig n' -> n = n'.
Proof.
  intros H. revert n'. induction H as [orig Hm|orig n Hm _ IH]; intros n' H'.
  - inversion H'; subst; [reflexivity|contradiction].
  - inversion H'; subst; [contradiction|]. f_equal. apply IH. assumption.
Qed.

(** The number of crossings is the index of the first cast that misses. *)
Lemma crossings_nth_origin (axis orig : Vector) (n : nat) :
  crossings host object axis orig n <->
  misses host object axis (nth_origin host object axis orig n) /\
  forall k, (k < n)%nat -> ~ misses host object axis (nth_origin host object axis orig k).
Proof.
  split.
  - induction 1 as [orig Hm|orig n Hm _ [IH1 IH2]].
    + split; [exact Hm|]. intros k Hk. lia.
    + split; [exact IH1|]. intros [|k] Hk; [exact Hm|]. apply IH2. lia.
  - revert orig. induction n as [|n IH]; intros orig [H1 H2].
    + constructor. exact H1.
    + constructor.
      * apply (H2 0%nat). lia.
      * apply IH. split; [exact H1|]. intros k Hk. apply (H2 (S k)). lia.
Qed.

(** If some cast of the restart sequence misses, there is a first one. *)
Lemma first_miss (axis orig : Vector) (n : nat) :
  misses host object axis (nth_origin host object axis orig n) ->
  exists c, (c <= n)%nat /\ crossings host object axis orig c.
Proof.
  revert orig. induction n as [|n IH]; intros orig H.
  - exists 0%nat. split; [lia|]. constructor. exact H.
  - destruct (misses_dec axis orig) as [Hm|Hm].
    + exists 0%nat. split; [lia|]. constructor. exact Hm.
    + destruct (IH _ H) as (c & Hc & Hcr).
      exists (S c). split; [lia|]. constructor; assumption.
Qed.

End PointInside.

(** The result of the test, from the three crossing counts it computes. *)
Lemma pointInsideMesh_from_counts (host : Host) (fuel : nat) (point : Vector)
    (object : Object) (cx cy cz : nat) :
  count_crossings host fuel object axis_x point 0 = Val cx ->
  count_crossings host fuel object axis_y point 0 = Val cy ->
  count_crossings host fuel object axis_z point 0 = Val cz ->
  pointInsideMesh host fuel point object =
  Val (Nat.odd cx && Nat.odd cy && Nat.odd cz).
Proof.
  intros Hx Hy Hz. unfold pointInsideMesh, axes. cbn [axes_loop].
  rewrite Hx. cbn [mbind res_mbind res_bind].
  unfold Nat.odd. destruct (Nat.even cx); [reflexivity|].
  rewrite Hy. cbn [mbind res_mbind res_bind].
  destruct (Nat.even cy); [reflexivity|].
  rewrite Hz. cbn [mbind res_mbind res_bind].
  destruct (Nat.even cz); reflexivity.
Qed.

(** C7.  With the ray cast an arbitrary function of the host: when the three
    restart loops count [cx], [cy] and [cz] crossings along the principal
    axes, the test returns, for every large enough iteration budget, a value
    that is true exactly when all three counts are odd, and false exactly
    when one of them is even. *)
Theorem pointInsideMesh_parity (host : Host) (point : Vector) (object : Object)
    (cx cy cz : nat) :
  crossings host object axis_x point cx ->
  crossings host object axis_y point cy ->
  crossings host object axis_z point cz ->
  exists b : bool,
    (exists fuel0, forall fuel, (fuel0 <= fuel)%nat ->
       pointInsideMesh host fuel point object = Val b) /\
    (b = true <-> Nat.Odd cx /\ Nat.Odd cy /\ Nat.Odd cz) /\
    (b = false <-> Nat.Even cx \/ Nat.Even cy \/ Nat.Even cz).
Proof.
  intros Hx Hy Hz.
  exists (Nat.odd cx && Nat.odd cy && Nat.odd cz). split.
  - exists (S (cx + cy + cz)). intros fuel Hf.
    apply pointInsideMesh_from_counts.
    + apply (count_crossings_complete host object axis_x point cx Hx fuel 0%nat). lia.
    + apply (count_crossings_complete host object axis_y point cy Hy fuel 0%nat). lia.
    + apply (count_crossings_complete host object axis_z point cz Hz fuel 0%nat). lia.
  - rewrite <- !Nat.odd_spec, <- !Nat.even_spec. unfold Nat.odd.
    destruct (Nat.even cx), (Nat.even cy), (Nat.even cz); simpl; intuition congruence.
Qed.

(** From a point inside the half space each axis crosses the boundary once. *)
Lemma pointInsideMesh_parity_witness :
  exists b : bool,
    (exists fuel0, forall fuel, (fuel0 <= fuel)%nat ->
       pointInsideMesh half_space_host fuel inner_point TARGET = Val b) /\
    (b = true <-> Nat.Odd 1 /\ Nat.Odd 1 /\ Nat.Odd 1) /\
    (b = false <-> Nat.Even 1 \/ Nat.Even 1 \/ Nat.Even 1).
Proof.
  apply (pointInsideMesh_parity half_space_host inner_point TARGET 1 1 1).
  - apply crossings_hit; [discriminate|]. apply crossings_miss. reflexivity.
  - apply crossings_hit; [discriminate|]. apply crossings_miss. reflexivity.
  - apply crossings_hit; [discriminate|]. apply crossings_miss. reflexivity.
Defined.

(** Whatever the budget, a returned [True] comes from three odd counts, and
    a returned [False] from an even one. *)
Lemma pointInsideMesh_inv (host : Host) (fuel : nat) (point : Vector)
    (object : Object) (b : bool) :
  pointInsideMesh host fuel point object = Val b ->
  if b then
    exists cx cy cz,
      crossings host object axis_x point cx /\ crossings host object axis_y point cy /\
      crossings host object axis_z point cz /\ Nat.Odd cx /\ Nat.Odd cy /\ Nat.Odd cz
  else
    exists axis c, axis ∈ axes /\ crossings host object axis point c /\ Nat.Even c.
Proof.
  unfold pointInsideMesh, axes. cbn [axes_loop].
  destruct (count_crossings host fuel object axis_x point 0) as [cx| |] eqn:Hx;
    cbn [mbind res_mbind res_bind]; try discriminate.
  apply count_crossings_sound in Hx as (nx & -> & _ & Hx). simpl.
  destruct (Nat.even nx) eqn:Ex.
  { simpl. intros [= <-]. exists axis_x, nx.
    split; [set_solver|]. split; [exact Hx|]. apply Nat.even_spec. exact Ex. }
  destruct (count_crossings host fuel object axis_y point 0) as [cy| |] eqn:Hy;
    cbn [mbind res_mbind res_bind]; try discriminate.
  apply count_crossings_sound in Hy as (ny & -> & _ & Hy). simpl.
  destruct (Nat.even ny) eqn:Ey.
  { simpl. intros [= <-]. exists axis_y, ny.
    split; [set_solver|]. split; [exact Hy|]. apply Nat.even_spec. exact Ey. }
  destruct (count_crossings host fuel object axis_z point 0) as [cz| |] eqn:Hz;
    cbn [mbind res_mbind res_bind]; try discriminate.
  apply count_crossings_sound in Hz as (nz & -> & _ & Hz). simpl.
  destruct (Nat.even nz) eqn:Ez.
  { simpl. intros [= <-]. exists axis_z, nz.
    split; [set_solver|]. split; [exact Hz|]. apply Nat.even_spec. exact Ez. }
  simpl. intros [= <-]. exists nx, ny, nz.
  rewrite <- !Nat.odd_spec. unfold Nat.odd. rewrite Ex, Ey, Ez. simpl. tauto.
Qed.

(** C8.  The restart loop along one axis stops, for some iteration budget,
    exactly when some cast of the restart sequence reports a miss; and there
    is ray-cast behaviour, every cast reporting a hit, under which no budget
    suffices. *)
Theorem restart_loop_termination :
  (forall host object axis orig,
     (exists fuel count, count_crossings host fuel object axis orig 0 = Val count) <->
     (exists n, misses host object axis (nth_origin host object axis orig n))) /\
  (exists host, forall object axis orig fuel,
     count_crossings host fuel object axis orig 0 = Div).
Proof.
  split.
  - intros host object axis orig. split.
    + intros (fuel & count & H).
      apply count_crossings_sound in H as (n & _ & _ & Hc).
      exists n. apply crossings_nth_origin in Hc. tauto.
    + intros (n & Hn).
      destruct (first_miss host object axis orig n Hn) as (c & _ & Hc).
      exists (S c), c.
      apply (count_crossings_complete host object axis orig c Hc (S c) 0%nat). lia.
  - exists sticky_host. intros object axis orig fuel.
    generalize 0%nat. revert orig.
    induction fuel as [|fuel IH]; intros orig count; [reflexivity|].
    rewrite count_crossings_hit; [apply IH|].
    unfold misses. simpl. discriminate.
Qed.

(** ** Building a contour trace *)

Lemma minimize_total (l : list keypoint) :
  exists k, minimize_objects_angular_distance l = Val k /\ length k = length l.
Proof.
  destruct l as [|p l].
  - exists []. split; reflexivity.
  - exists (p :: unwrap_chain (snd p) l). split; [apply minimize_cons|].
    simpl. rewrite unwrap_chain_length. reflexivity.
Qed.

Lemma insert_by_length {A} (key : A -> Q) (x : A) (l : list A) :
  length (insert_by key x l) = S (length l).
Proof.
  induction l as [|y l IH]; simpl; [reflexivity|].
  destruct (Qle_bool (key x) (key y)); simpl; [|rewrite IH]; reflexivity.
Qed.

Lemma sorted_length {A} (l : list A) (key : A -> Q) : length (sorted l key) = length l.
Proof.
  unfold sorted. induction l as [|x l IH]; simpl; [reflexivity|].
  rewrite insert_by_length, IH. reflexivity.
Qed.

Lemma ct_set_keypoints_same (t : ContourTrace) : ct_set_keypoints (ct_keypoints t) t = t.
Proof. destruct t; reflexivity. Qed.

(** Unfolds the plumbing of the two monads. *)
Ltac monad_simpl :=
  unfold mbind, mret, M_mbind, M_mret, res_mbind, res_mret, M_bind,
    get_self, set_self, lift;
  cbn beta iota.
Ltac monad_simpl_in H :=
  unfold mbind, mret, M_mbind, M_mret, res_mbind, res_mret, M_bind,
    get_self, set_self, lift in H;
  cbn beta iota in H.

Lemma for_each_cons {S A} (x : A) (xs : list A) (body : A -> M S unit) (s : S) :
  for_each (x :: xs) body s =
  match body x s with
  | (Val _, s') => for_each xs body s'
  | (Exc e, s') => (Exc e, s')
  | (Div, s') => (Div, s')
  end.
Proof. reflexivity. Qed.

#[local] Arguments minimize_objects_angular_distance : simpl never.
#[local] Arguments sorted : simpl never.

Section ContourTraceBuild.

Variable host : Host.
Variable fuel : nat.

(** One vertex: the task gains what [vertex_samples] lists, nothing else
    changes. *)
Lemma sample_vertex_spec (offset : Q) (point : Vector) (t : ContourTrace) :
  sample_vertex host fuel offset point t =
  match vertex_samples host fuel (ct_TARGET t) offset point with
  | Val ks => (Val tt, ct_set_keypoints (ct_keypoints t ++ ks) t)
  | Exc e => (Exc e, t)
  | Div => (Div, t)
  end.
Proof.
  unfold sample_vertex, vertex_samples. monad_simpl.
  destruct (probe_loop host fuel (ct_TARGET t) point probe_pairs) as [[r|]| |];
    cbn [res_bind]; try reflexivity.
  - destruct (hit_result r); [reflexivity|].
    cbn. rewrite app_nil_r, ct_set_keypoints_same. reflexivity.
  - cbn. rewrite app_nil_r, ct_set_keypoints_same. reflexivity.
Qed.

(** The loop over the vertices, when it completes. *)
Lemma sample_loop_ok (offset : Q) (vertices : list Vector) (t t' : ContourTrace) :
  for_each vertices (sample_vertex host fuel offset) t = (Val tt, t') ->
  exists ks,
    contour_samples host fuel (ct_TARGET t) offset vertices = Val ks /\
    t' = ct_set_keypoints (ct_keypoints t ++ ks) t.
Proof.
  revert t. induction vertices as [|v vertices IH]; intros t H.
  - inversion H; subst. exists []. split; [reflexivity|].
    rewrite app_nil_r, ct_set_keypoints_same. reflexivity.
  - rewrite for_each_cons, sample_vertex_spec in H. cbn [contour_samples].
    destruct (vertex_samples host fuel (ct_TARGET t) offset v) as [ks| |];
      try discriminate.
    apply IH in H as (ks' & Hks' & ->). cbn in Hks'.
    exists (ks ++ ks'). monad_simpl. cbn [res_bind]. rewrite Hks'. split; [reflexivity|].
    cbn. rewrite app_assoc. reflexivity.
Qed.

Lemma sample_loop_complete (offset : Q) (vertices : list Vector) (t : ContourTrace)
    (ks : list keypoint) :
  contour_samples host fuel (ct_TARGET t) offset vertices = Val ks ->
  for_each vertices (sample_vertex host fuel offset) t =
  (Val tt, ct_set_keypoints (ct_keypoints t ++ ks) t).
Proof.
  revert t ks. induction vertices as [|v vertices IH]; intros t ks H.
  - inversion H; subst. cbn. rewrite app_nil_r, ct_set_keypoints_same. reflexivity.
  - cbn [contour_samples] in H. monad_simpl_in H.
    rewrite for_each_cons, sample_vertex_spec.
    destruct (vertex_samples host fuel (ct_TARGET t) offset v) as [k1| |];
      try discriminate.
    cbn [res_bind] in H.
    destruct (contour_samples host fuel (ct_TARGET t) offset vertices) as [k2| |] eqn:E;
      try discriminate.
    inversion H; subst.
    rewrite (IH (ct_set_keypoints (ct_keypoints t ++ k1) t) k2) by exact E.
    cbn. rewrite app_assoc. reflexivity.
Qed.

(** A completed build: the samples of the contour are appended to the
    keypoints already there, and the whole is sorted and unwrapped. *)
Lemma ContourTrace_build_ok (t t' : ContourTrace) :
  ContourTrace_build host fuel t = (Val tt, t') ->
  match contour_after host t with
  | None => t' = t
  | Some vertices =>
      exists ks k,
        contour_samples host fuel (ct_TARGET t) 0 vertices = Val ks /\
        minimize_objects_angular_distance
          (sorted (ct_keypoints t ++ ks) (get_angle_z host)) = Val k /\
        t' = mkContourTrace k (ct_TARGET t) (ct_TOOL t) (ct_center t)
               (ct_plane_normal t) (Some vertices)
  end.
Proof.
  unfold ContourTrace_build, ContourTrace__build, contour_after, get_contour,
    sample_for_normals.
  monad_simpl.
  destruct (bisect_plane host (ct_TARGET t) (ct_center t) (ct_plane_normal t))
    as [vertices|] eqn:Hb.
  - cbn. intros H.
    destruct (for_each vertices (sample_vertex host fuel 0) (ct_set_contour (Some vertices) t))
      as [[[]| |] t1] eqn:Hloop; try discriminate.
    apply sample_loop_ok in Hloop as (ks & Hks & ->).
    cbn in H, Hks.
    destruct (minimize_total (sorted (ct_keypoints t ++ ks) (get_angle_z host)))
      as (k & Hk & _).
    rewrite Hk in H. cbn in H. inversion H; subst.
    exists ks, k. auto.
  - cbn. destruct (ct_contour t) as [vertices|] eqn:Hc.
    + cbn. rewrite Hc. intros H.
      destruct (for_each vertices (sample_vertex host fuel 0) t)
        as [[[]| |] t1] eqn:Hloop; try discriminate.
      apply sample_loop_ok in Hloop as (ks & Hks & ->).
      cbn in H.
      destruct (minimize_total (sorted (ct_keypoints t ++ ks) (get_angle_z host)))
        as (k & Hk & _).
      rewrite Hk in H. cbn in H. inversion H; subst.
      exists ks, k. do 2 (split; [assumption|]).
      unfold ct_set_keypoints. cbn. rewrite Hc. reflexivity.
    + intros H. inversion H. reflexivity.
Qed.

End ContourTraceBuild.

Lemma minimize_length (l k : list keypoint) :
  minimize_objects_angular_distance l = Val k -> length k = length l.
Proof.
  intros H. destruct (minimize_total l) as (k' & Hk' & Hlen).
  rewrite H in Hk'. inversion Hk'; subst. exact Hlen.
Qed.

(** A completed build leaves the task's target, tool and plane alone. *)
Lemma ContourTrace_build_frame (host : Host) (fuel : nat) (t t' : ContourTrace) :
  ContourTrace_build host fuel t = (Val tt, t') ->
  ct_TARGET t' = ct_TARGET t /\ ct_TOOL t' = ct_TOOL t /\
  ct_center t' = ct_center t /\ ct_plane_normal t' = ct_plane_normal t.
Proof.
  intros H. apply ContourTrace_build_ok in H.
  destruct (contour_after host t) as [vertices|].
  - destruct H as (ks & k & _ & _ & ->). auto.
  - subst. auto.
Qed.

(** The number of keypoints after a completed build. *)
Lemma ContourTrace_build_length (host : Host) (fuel : nat) (t t' : ContourTrace) :
  ContourTrace_build host fuel t = (Val tt, t') ->
  match contour_after host t with
  | None => t' = t
  | Some vertices =>
      exists ks,
        contour_samples host fuel (ct_TARGET t) 0 vertices = Val ks /\
        length (ct_keypoints t') = (length (ct_keypoints t) + length ks)%nat /\
        ct_contour t' = Some vertices
  end.
Proof.
  intros H. apply ContourTrace_build_ok in H.
  destruct (contour_after host t) as [vertices|]; [|exact H].
  destruct H as (ks & k & Hks & Hk & ->).
  exists ks. split; [exact Hks|]. split; [|reflexivity].
  apply minimize_length in Hk. cbn [ct_keypoints].
  rewrite Hk, sorted_length, length_app. reflexivity.
Qed.

(** Building a contour trace a second time adds the samples a second time. *)
Lemma ContourTrace_rebuild_doubles (host : Host) (fuel : nat) (target tool : pyarg)
    (center plane_normal : Vector) (t t1 t2 : ContourTrace) :
  ContourTrace_init target tool center plane_normal = Val t ->
  ContourTrace_build host fuel t = (Val tt, t1) ->
  ContourTrace_build host fuel t1 = (Val tt, t2) ->
  length (ct_keypoints t2) = (2 * length (ct_keypoints t1))%nat.
Proof.
  intros Hinit H1 H2.
  destruct target as [tg|], tool as [tl|]; try discriminate.
  inversion Hinit; subst; clear Hinit.
  pose proof (ContourTrace_build_frame _ _ _ _ H1) as (Ftg & Ftl & Fc & Fn).
  apply ContourTrace_build_length in H1, H2.
  unfold contour_after in *. rewrite Ftg, Fc, Fn in H2. cbn in *.
  destruct (bisect_plane host tg center plane_normal) as [vertices|].
  - destruct H1 as (ks & Hks & Hlen & Hc).
    destruct H2 as (ks2 & Hks2 & Hlen2 & _).
    rewrite Hks in Hks2. inversion Hks2; subst. cbn in Hlen. lia.
  - subst t1. cbn in H2. subst t2. reflexivity.
Qed.

(** ** Building a multi-contour trace *)

Lemma mt_extend_nil (t : MultiContourTrace) : mt_extend_sub_tasks [] t = t.
Proof. destruct t. unfold mt_extend_sub_tasks. cbn. rewrite app_nil_r. reflexivity. Qed.

Lemma mt_extend_append (c : ContourTrace) (built : list ContourTrace) (t : MultiContourTrace) :
  mt_extend_sub_tasks built (mt_append_sub_task c t) = mt_extend_sub_tasks (c :: built) t.
Proof.
  unfold mt_extend_sub_tasks, mt_append_sub_task. cbn.
  rewrite <- app_assoc. reflexivity.
Qed.

Section MultiContourTraceBuild.

Variable host : Host.
Variable fuel : nat.

(** One slice: a new contour trace is built and, if that completes,
    appended. *)
Lemma build_slice_spec (axis dv : Vector) (i : Z) (t : MultiContourTrace) :
  build_slice host fuel axis dv i t =
  match ContourTrace_build host fuel (new_slice t axis dv i) with
  | (Val _, task') => (Val tt, mt_append_sub_task task' t)
  | (Exc e, _) => (Exc e, t)
  | (Div, _) => (Div, t)
  end.
Proof.
  unfold build_slice, ContourTrace_init, CAMTask_init, new_slice. monad_simpl.
  cbn [res_bind cam_keypoints cam_TARGET cam_TOOL].
  destruct (ContourTrace_build host fuel _) as [[u|e|] task']; reflexivity.
Qed.

(** The loop over the slices: the sub-tasks built so far are appended in
    slice order; the loop completes only if every slice was built. *)
Lemma slices_loop_spec (axis dv : Vector) (slices : list Z) (t t' : MultiContourTrace)
    (r : res unit) :
  for_each slices (build_slice host fuel axis dv) t = (r, t') ->
  exists built,
    t' = mt_extend_sub_tasks built t /\
    Forall2 (fun i child =>
               ContourTrace_build host fuel (new_slice t axis dv i) = (Val tt, child))
            (take (length built) slices) built /\
    (r = Val tt -> length built = length slices).
Proof.
  revert t. induction slices as [|i slices IH]; intros t H.
  - inversion H; subst. exists []. rewrite mt_extend_nil.
    split; [reflexivity|]. split; [constructor|reflexivity].
  - rewrite for_each_cons, build_slice_spec in H.
    destruct (ContourTrace_build host fuel (new_slice t axis dv i))
      as [[[]|e|] task'] eqn:Hb.
    + apply IH in H as (built & -> & HF & Hlen).
      exists (task' :: built). rewrite mt_extend_append.
      split; [reflexivity|]. split.
      * cbn [length take]. constructor; [exact Hb|exact HF].
      * intros Hr. cbn [length]. rewrite Hlen by exact Hr. reflexivity.
    + inversion H; subst. exists []. rewrite mt_extend_nil.
      split; [reflexivity|]. split; [constructor|discriminate].
    + inversion H; subst. exists []. rewrite mt_extend_nil.
      split; [reflexivity|]. split; [constructor|discriminate].
Qed.

(** If every slice can be built, the loop completes. *)
Lemma slices_loop_complete (axis dv : Vector) (slices : list Z) (t : MultiContourTrace) :
  (forall i, i ∈ slices ->
     exists child, ContourTrace_build host fuel (new_slice t axis dv i) = (Val tt, child)) ->
  exists t', for_each slices (build_slice host fuel axis dv) t = (Val tt, t').
Proof.
  revert t. induction slices as [|i slices IH]; intros t H.
  - exists t. reflexivity.
  - rewrite for_each_cons, build_slice_spec.
    destruct (H i) as (child & Hc); [set_solver|]. rewrite Hc.
    apply IH. intros j Hj. apply H. set_solver.
Qed.

Lemma vdiv_nonzero (a : Vector) (k : Q) :
  ~ as_float k == 0 ->
  vdiv a k = Val (mkVector (f32 (vx a * f32 (1 / as_float k)))
                           (f32 (vy a * f32 (1 / as_float k)))
                           (f32 (vz a * f32 (1 / as_float k)))).
Proof.
  intros Hk. unfold vdiv. destruct (Qeq_bool (as_float k) 0) eqn:E; [|reflexivity].
  apply Qeq_bool_iff in E. contradiction.
Qed.

(** A number of magnitude 1 or more keeps it as a C [float]. *)
Lemma as_float_ge_1 (k : Q) : 1 <= k -> 1 <= as_float k.
Proof.
  intros Hk. unfold as_float.
  assert (F1 : f32 1 == 1) by (vm_compute; reflexivity).
  assert (D1 : f64 1 == 1) by (vm_compute; reflexivity).
  apply (round_ge_fixed binary32 eq_refl _ 1 F1).
  apply (round_ge_fixed binary64 eq_refl _ 1 D1). exact Hk.
Qed.

Lemma as_float_le_m1 (k : Q) : k <= - (1) -> as_float k <= - (1).
Proof.
  intros Hk. unfold as_float.
  assert (F1 : f32 (- (1)) == - (1)) by (vm_compute; reflexivity).
  assert (D1 : f64 (- (1)) == - (1)) by (vm_compute; reflexivity).
  apply (round_le_fixed binary32 eq_refl _ (- (1)) F1).
  apply (round_le_fixed binary64 eq_refl _ (- (1)) D1). exact Hk.
Qed.

(** An integer other than 0 is not 0 as a C [float]. *)
Lemma as_float_inject_Z_nonzero (c : Z) : c <> 0%Z -> ~ as_float (inject_Z c) == 0.
Proof.
  intros Hc E.
  destruct (Z.lt_trichotomy c 0) as [H|[H|H]]; [|contradiction|].
  - assert (Hq : inject_Z c <= - (1)).
    { change (- (1)) with (inject_Z (-1)). rewrite <- Zle_Qle. lia. }
    pose proof (as_float_le_m1 _ Hq). lra.
  - assert (Hq : 1 <= inject_Z c).
    { change 1 with (inject_Z 1). rewrite <- Zle_Qle. lia. }
    pose proof (as_float_ge_1 _ Hq). lra.
Qed.

(** [MultiContourTrace._build] is the loop over [range(cuts + 1)], unless
    [cuts] is 0. *)
Lemma MultiContourTrace_build_unfold (t : MultiContourTrace) :
  mt_cuts t <> 0%Z ->
  MultiContourTrace_build host fuel t =
  for_each (py_range (mt_cuts t + 1))
    (build_slice host fuel (slice_axis (mt_start t) (mt_height t))
       (slice_step (mt_start t) (mt_height t) (mt_cuts t))) t.
Proof.
  intros Hc. unfold MultiContourTrace_build, MultiContourTrace__build. monad_simpl.
  fold (slice_axis (mt_start t) (mt_height t)).
  rewrite vdiv_nonzero; [reflexivity|].
  apply as_float_inject_Z_nonzero. exact Hc.
Qed.

Lemma MultiContourTrace_build_zero_cuts (t : MultiContourTrace) :
  mt_cuts t = 0%Z ->
  MultiContourTrace_build host fuel t = (Exc ZeroDivisionError, t).
Proof.
  intros Hc. unfold MultiContourTrace_build, MultiContourTrace__build. monad_simpl.
  rewrite Hc. reflexivity.
Qed.

End MultiContourTraceBuild.

Lemma py_range_length (n : Z) : length (py_range n) = Z.to_nat n.
Proof. unfold py_range. rewrite length_map, length_seq. reflexivity. Qed.

Lemma py_range_lookup (n i : Z) :
  (0 <= i < n)%Z -> py_range n !! Z.to_nat i = Some i.
Proof.
  intros Hi. unfold py_range.
  rewrite list_lookup_fmap, lookup_seq_lt by lia.
  cbn. f_equal. lia.
Qed.

Lemma py_range_elem (n i : Z) : i ∈ py_range n -> (0 <= i < n)%Z.
Proof.
  unfold py_range. intros H. apply list_elem_of_fmap in H as (k & -> & Hk).
  apply elem_of_seq in Hk. lia.
Qed.

(** [get_keypoints] of a multi-contour trace is the concatenation of the
    sub-tasks' keypoints. *)
Lemma MultiContourTrace_get_keypoints_concat (t : MultiContourTrace) :
  MultiContourTrace_get_keypoints t = concat (map ct_keypoints (mt_sub_tasks t)).
Proof.
  unfold MultiContourTrace_get_keypoints, ContourTrace_get_keypoints.
  assert (G : forall l acc,
            foldl (fun points task => points ++ ct_keypoints task) acc l =
            acc ++ concat (map ct_keypoints l)).
  { induction l as [|c l IH]; intros acc; cbn.
    - rewrite app_nil_r. reflexivity.
    - rewrite IH, <- app_assoc. reflexivity. }
  apply (G _ []).
Qed.

Lemma concat_length_sum {A} (ls : list (list A)) :
  length (concat ls) = sum_list (map length ls).
Proof.
  induction ls as [|l ls IH]; cbn; [reflexivity|].
  rewrite length_app, IH. reflexivity.
Qed.

(** The start-to-end vector and the step between two slices point along
    Z; their third components are computed in single precision. *)
Lemma slice_axis_components (start : Vector) (height : Q) :
  slice_axis start height =
  mkVector 0 0 (f32 (f32 (f64 (vz start + f64 height)) - vz start)).
Proof.
  unfold slice_axis, vsub, end_point. cbn [vx vy vz].
  rewrite (f32_zero (vx start - vx start)) by ring.
  rewrite (f32_zero (vy start - vy start)) by ring.
  reflexivity.
Qed.

Lemma slice_step_components (start : Vector) (height : Q) (cuts : Z) :
  slice_step start height cuts =
  mkVector 0 0
    (f32 (f32 (f32 (f64 (vz start + f64 height)) - vz start)
          * f32 (1 / as_float (inject_Z cuts)))).
Proof.
  unfold slice_step. rewrite slice_axis_components. cbn [vx vy vz].
  rewrite !(f32_zero (0 * _)) by ring.
  reflexivity.
Qed.

(** The centre of slice [i]: the start, moved along Z only. *)
Lemma slice_centre (start : Vector) (k dz : Q) :
  veq (vadd start (vscale_l k (mkVector 0 0 dz)))
      (mkVector (f32 (vx start)) (f32 (vy start))
                (f32 (vz start + f32 (as_float k * dz)))).
Proof.
  unfold veq, vadd, vscale_l. cbn [vx vy vz].
  rewrite !(f32_zero (as_float k * 0)) by ring.
  repeat split; try reflexivity; apply round_comp; ring.
Qed.

(** With a height that is not negative, above a start that is a
    single-precision number, the step between two slices is not negative. *)
Lemma slice_step_nonneg (z height : Q) (cuts : Z) :
  0 <= height -> f32 z == z -> (1 <= cuts)%Z ->
  0 <= f32 (f32 (f32 (f64 (z + f64 height)) - z) * f32 (1 / as_float (inject_Z cuts))).
Proof.
  intros Hh Hz Hc.
  assert (Dz : f64 z == z) by (apply f32_is_f64; exact Hz).
  assert (H1 : 0 <= f64 height) by (apply round_nonneg; exact Hh).
  assert (H2 : z <= f64 (z + f64 height)).
  { apply (round_ge_fixed binary64 eq_refl _ z Dz). lra. }
  assert (H3 : z <= f32 (f64 (z + f64 height))).
  { apply (round_ge_fixed binary32 eq_refl _ z Hz). exact H2. }
  assert (H4 : 0 <= f32 (f32 (f64 (z + f64 height)) - z)).
  { apply round_nonneg. lra. }
  assert (H5 : 1 <= as_float (inject_Z cuts)).
  { apply as_float_ge_1. change 1 with (inject_Z 1). rewrite <- Zle_Qle. exact Hc. }
  assert (H6 : 0 <= f32 (1 / as_float (inject_Z cuts))).
  { apply round_nonneg. apply Qle_shift_div_l; lra. }
  apply round_nonneg. apply Qmult_le_0_compat; assumption.
Qed.

(** C5, amended.  For [cuts >= 1], building a new multi-contour trace whose
    slices can all be built completes with exactly [cuts + 1] sub-tasks.
    The centre of slice [i] has the x and y of the start, and the height
    [z + i * dz] computed in single precision, where the step [dz] is the
    third component of [(end - start) / cuts] as the code computes it: the
    rounded [az] times the rounded reciprocal of [cuts].  Every slice has the
    start-to-end vector (0, 0, az) as plane normal.  When the height is not
    negative and the start's z is a single-precision number, the centres
    ascend with [i].  [get_keypoints] is the concatenation of the sub-tasks'
    keypoints in slice order, its length the sum of their lengths.  The
    start's z and the height are taken within 2^100, where nothing
    overflows. *)
Theorem multi_contour_slices (host : Host) (fuel : nat) (target tool : Object)
    (start : Vector) (height : Q) (cuts : Z) (plane_normal : Vector)
    (t : MultiContourTrace) :
  (1 <= cuts)%Z ->
  Qabs (vz start) <= pow2 100 -> Qabs height <= pow2 100 ->
  MultiContourTrace_init (PyObject target) (PyObject tool) start height cuts
    plane_normal = Val t ->
  (forall i, (0 <= i <= cuts)%Z ->
     exists child,
       ContourTrace_build host fuel
         (new_slice t (slice_axis start height) (slice_step start height cuts) i)
       = (Val tt, child)) ->
  let az := f32 (f32 (f64 (vz start + f64 height)) - vz start) in
  let dz := f32 (az * f32 (1 / as_float (inject_Z cuts))) in
  exists t',
    MultiContourTrace_build host fuel t = (Val tt, t') /\
    length (mt_sub_tasks t') = Z.to_nat (cuts + 1) /\
    (forall i, (0 <= i <= cuts)%Z ->
       exists child,
         mt_sub_tasks t' !! Z.to_nat i = Some child /\
         veq (ct_center child)
             (mkVector (f32 (vx start)) (f32 (vy start))
                       (f32 (vz start + f32 (as_float (inject_Z i) * dz)))) /\
         ct_plane_normal child = vsub (end_point start height) start /\
         ct_plane_normal child = mkVector 0 0 az) /\
    (0 <= height -> f32 (vz start) == vz start ->
     forall i j ci cj,
       (0 <= i <= j)%Z -> (j <= cuts)%Z ->
       mt_sub_tasks t' !! Z.to_nat i = Some ci ->
       mt_sub_tasks t' !! Z.to_nat j = Some cj ->
       vz (ct_center ci) <= vz (ct_center cj)) /\
    MultiContourTrace_get_keypoints t' = concat (map ct_keypoints (mt_sub_tasks t')) /\
    length (MultiContourTrace_get_keypoints t') =
      sum_list (map (fun c => length (ct_keypoints c)) (mt_sub_tasks t')).
Proof.
  intros Hcuts _ _ Hinit Hchildren az dz.
  cbn in Hinit. inversion Hinit; subst t; clear Hinit.
  set (t := mkMultiContourTrace [] target tool start cuts [] height) in *.
  assert (Hnz : mt_cuts t <> 0%Z) by (cbn; lia).
  destruct (slices_loop_complete host fuel (slice_axis start height)
              (slice_step start height cuts) (py_range (cuts + 1)) t) as (t' & Ht').
  { intros i Hi. apply py_range_elem in Hi. apply Hchildren. lia. }
  exists t'. rewrite (MultiContourTrace_build_unfold host fuel t Hnz).
  split; [exact Ht'|].
  apply slices_loop_spec in Ht' as (built & -> & HF & Hlen).
  specialize (Hlen eq_refl). rewrite py_range_length in Hlen.
  rewrite take_ge in HF by (rewrite py_range_length; lia).
  cbn [mt_extend_sub_tasks mt_sub_tasks t app].
  assert (Hchild : forall i, (0 <= i <= cuts)%Z ->
            exists child,
              built !! Z.to_nat i = Some child /\
              ct_center child =
                vadd start (vscale_l (inject_Z i) (mkVector 0 0 dz)) /\
              ct_plane_normal child = vsub (end_point start height) start /\
              ct_plane_normal child = mkVector 0 0 az).
  { intros i Hi.
    destruct (Forall2_lookup_l _ _ _ (Z.to_nat i) i HF) as (child & Hchild & Hb).
    { apply py_range_lookup. lia. }
    exists child. split; [exact Hchild|].
    apply ContourTrace_build_frame in Hb as (_ & _ & -> & ->).
    cbn [new_slice ct_center ct_plane_normal mt_start t].
    split; [rewrite slice_step_components; reflexivity|].
    split; [reflexivity|apply slice_axis_components]. }
  split; [exact Hlen|]. split; [|split].
  - intros i Hi. destruct (Hchild i Hi) as (child & Hl & Hc & Hn).
    exists child. split; [exact Hl|]. split; [|exact Hn].
    rewrite Hc. apply slice_centre.
  - intros Hh Hz i j ci cj Hij Hj Hi' Hj'.
    destruct (Hchild i ltac:(lia)) as (ci' & Hl1 & Hc1 & _).
    destruct (Hchild j ltac:(lia)) as (cj' & Hl2 & Hc2 & _).
    rewrite Hl1 in Hi'. rewrite Hl2 in Hj'.
    inversion Hi'; inversion Hj'; subst ci' cj'.
    rewrite Hc1, Hc2. unfold vadd, vscale_l. cbn [vx vy vz].
    pose proof (slice_step_nonneg (vz start) height cuts Hh Hz Hcuts) as Hdz.
    fold az in Hdz. fold dz in Hdz.
    apply (round_mono binary32 eq_refl). apply Qplus_le_r.
    apply (round_mono binary32 eq_refl).
    apply Qmult_le_compat_r; [|exact Hdz].
    unfold as_float. apply (round_mono binary32 eq_refl), (round_mono binary64 eq_refl).
    rewrite <- Zle_Qle. lia.
  - rewrite MultiContourTrace_get_keypoints_concat. cbn [mt_sub_tasks].
    split; [reflexivity|].
    rewrite concat_length_sum, map_map. reflexivity.
Qed.

(** The task of main.py in the half space: four slices, at the heights 0,
    0.1666666716, 0.3333333433 and 0.5 that single precision gives. *)
Lemma multi_contour_slices_witness :
  exists t',
    MultiContourTrace_build half_space_host 2 main_task = (Val tt, t') /\
    length (mt_sub_tasks t') = 4%nat /\
    map (fun c => Qred (vz (ct_center c))) (mt_sub_tasks t') =
      [0; 11184811 # 67108864; 11184811 # 33554432; 1 # 2] /\
    length (MultiContourTrace_get_keypoints t') = 4%nat.
Proof.
  destruct (multi_contour_slices half_space_host 2 TARGET TOOL origin (1 # 2) 3
              axis_z main_task) as (t' & Hb & Hlen & _ & _ & _).
  - lia.
  - vm_compute. discriminate.
  - vm_compute. discriminate.
  - reflexivity.
  - intros i Hi.
    assert (Hcases : i = 0%Z \/ i = 1%Z \/ i = 2%Z \/ i = 3%Z) by lia.
    destruct Hcases as [->|[->|[->| ->]]]; eexists; vm_compute; reflexivity.
  - exists t'. split; [exact Hb|]. split; [exact Hlen|].
    vm_compute in Hb. inversion Hb; subst t'. split; reflexivity.
Defined.

(** C5 as stated fails.  From the start (0, 0, 1e8) with height 0.5 and 3
    cuts, the end point is the start again, as 1e8 + 0.5 is not a
    single-precision number: the four slices all have the start as centre,
    and not the equally spaced points start + i * (0.5 / 3); their plane
    normal is the zero vector. *)
Lemma multi_contour_slices_counterexample :
  exists t',
    MultiContourTrace_build half_space_host 2 far_task = (Val tt, t') /\
    length (mt_sub_tasks t') = 4%nat /\
    Forall (fun child =>
              veq (ct_center child) (mt_start far_task) /\
              veq (ct_plane_normal child) origin)
           (mt_sub_tasks t') /\
    (forall child,
       mt_sub_tasks t' !! 3%nat = Some child ->
       ~ vz (ct_center child) ==
         vz (mt_start far_task) + 3 * (mt_height far_task / 3)).
Proof.
  exists (snd (MultiContourTrace_build half_space_host 2 far_task)).
  split; [vm_compute; reflexivity|]. split; [vm_compute; reflexivity|]. split.
  - vm_compute. repeat constructor.
  - intros child H. vm_compute in H. inversion H; subst child.
    vm_compute. discriminate.
Qed.

(** Whatever the outcome of a build, the sub-tasks it appended were built
    from the slices in order. *)
Lemma MultiContourTrace_build_sub_tasks (host : Host) (fuel : nat)
    (t t' : MultiContourTrace) (r : res unit) :
  MultiContourTrace_build host fuel t = (r, t') ->
  exists built,
    t' = mt_extend_sub_tasks built t /\
    Forall2 (fun i child =>
               ContourTrace_build host fuel
                 (new_slice t (slice_axis (mt_start t) (mt_height t))
                    (slice_step (mt_start t) (mt_height t) (mt_cuts t)) i)
               = (Val tt, child))
            (take (length built) (py_range (mt_cuts t + 1))) built /\
    (r = Val tt -> length built = Z.to_nat (mt_cuts t + 1)).
Proof.
  intros H. destruct (Z.eq_dec (mt_cuts t) 0%Z) as [Hz|Hnz].
  - rewrite MultiContourTrace_build_zero_cuts in H by exact Hz.
    inversion H; subst. exists []. rewrite mt_extend_nil.
    split; [reflexivity|]. split; [constructor|discriminate].
  - rewrite MultiContourTrace_build_unfold in H by exact Hnz.
    apply slices_loop_spec in H as (built & -> & HF & Hlen).
    exists built. split; [reflexivity|]. split; [exact HF|].
    intros Hr. rewrite Hlen by exact Hr. apply py_range_length.
Qed.

(** C10, amended.  Two multi-contour traces made with different
    [plane_normal] arguments, everything else equal, are the same task:
    their builds have the same outcome, the same sub-tasks and the same
    keypoints.  The normal of every sub-task is the start-to-end vector
    (0, 0, az), with [az] the difference of the end's and the start's z as
    single precision gives it; it is the height when the start's z is 0 and
    the height is a single-precision number.  The start's z and the height
    are taken within 2^100, where nothing overflows. *)
Theorem plane_normal_ignored (host : Host) (fuel : nat) (target tool : pyarg)
    (start : Vector) (height : Q) (cuts : Z) (pn1 pn2 : Vector)
    (t1 t2 t1' t2' : MultiContourTrace) (r1 r2 : res unit) :
  Qabs (vz start) <= pow2 100 -> Qabs height <= pow2 100 ->
  MultiContourTrace_init target tool start height cuts pn1 = Val t1 ->
  MultiContourTrace_init target tool start height cuts pn2 = Val t2 ->
  MultiContourTrace_build host fuel t1 = (r1, t1') ->
  MultiContourTrace_build host fuel t2 = (r2, t2') ->
  let az := f32 (f32 (f64 (vz start + f64 height)) - vz start) in
  t1 = t2 /\ r1 = r2 /\
  mt_sub_tasks t1' = mt_sub_tasks t2' /\
  MultiContourTrace_get_keypoints t1' = MultiContourTrace_get_keypoints t2' /\
  Forall (fun child =>
            ct_plane_normal child = vsub (end_point start height) start /\
            ct_plane_normal child = mkVector 0 0 az)
         (mt_sub_tasks t1') /\
  (vz start == 0 -> f32 height == height -> az == height).
Proof.
  intros _ _ Hi1 Hi2 Hb1 Hb2 az.
  assert (E : t1 = t2).
  { unfold MultiContourTrace_init in Hi1, Hi2. rewrite Hi1 in Hi2.
    inversion Hi2. reflexivity. }
  subst t2. rewrite Hb1 in Hb2. inversion Hb2; subst.
  do 4 (split; [reflexivity|]).
  assert (Hs : mt_start t1 = start /\ mt_height t1 = height /\ mt_sub_tasks t1 = []).
  { unfold MultiContourTrace_init in Hi1.
    destruct (CAMTask_init target tool); cbn in Hi1; try discriminate.
    inversion Hi1; subst. auto. }
  destruct Hs as (Hstart & Hheight & Hsub).
  split.
  - apply MultiContourTrace_build_sub_tasks in Hb1 as (built & -> & HF & _).
    cbn [mt_extend_sub_tasks mt_sub_tasks]. rewrite Hsub, Hstart, Hheight in *.
    cbn [app]. clear Hb2.
    induction HF as [|i child slices built Hb _ IH]; constructor; [|exact IH].
    apply ContourTrace_build_frame in Hb as (_ & _ & _ & ->).
    cbn [new_slice ct_plane_normal].
    split; [reflexivity|apply slice_axis_components].
  - intros Hz Hh. unfold az.
    assert (Dh : f64 height == height) by (apply f32_is_f64; exact Hh).
    assert (E1 : f64 (vz start + f64 height) == height).
    { rewrite <- Dh at 2. apply round_comp. rewrite Dh, Hz. ring. }
    assert (E2 : f32 (f64 (vz start + f64 height)) == height).
    { rewrite <- Hh at 2. apply round_comp. exact E1. }
    rewrite <- Hh at 2. apply round_comp. rewrite E2, Hz. ring.
Qed.

(** The task of main.py, made once with normal (0, 0, 1) and once with
    normal (1, 0, 0): four slices either way, each with the normal
    (0, 0, 0.5). *)
Lemma plane_normal_ignored_witness :
  length (mt_sub_tasks (snd (MultiContourTrace_build half_space_host 2 main_task))) = 4%nat /\
  Forall (fun child =>
            ct_plane_normal child = vsub (end_point origin (1 # 2)) origin /\
            ct_plane_normal child =
              mkVector 0 0 (f32 (f32 (f64 (vz origin + f64 (1 # 2))) - vz origin)))
         (mt_sub_tasks (snd (MultiContourTrace_build half_space_host 2 main_task))) /\
  f32 (f32 (f64 (vz origin + f64 (1 # 2))) - vz origin) == 1 # 2.
Proof.
  destruct (plane_normal_ignored half_space_host 2 (PyObject TARGET) (PyObject TOOL)
              origin (1 # 2) 3 axis_z axis_x main_task main_task
              (snd (MultiContourTrace_build half_space_host 2 main_task))
              (snd (MultiContourTrace_build half_space_host 2 main_task))
              (Val tt) (Val tt))
    as (_ & _ & _ & _ & Hnormals & Hheight).
  - vm_compute. discriminate.
  - vm_compute. discriminate.
  - reflexivity.
  - reflexivity.
  - vm_compute. reflexivity.
  - vm_compute. reflexivity.
  - split; [vm_compute; reflexivity|]. split; [exact Hnormals|].
    apply Hheight; vm_compute; reflexivity.
Defined.

(** C10 as stated fails.  From the start (0, 0, 1e8) with height 0.5 the
    normal of every slice is (0, 0, 0), not (0, 0, 0.5). *)
Lemma plane_normal_height_counterexample :
  exists t',
    MultiContourTrace_build half_space_host 2 far_task = (Val tt, t') /\
    mt_sub_tasks t' <> [] /\
    Forall (fun child =>
              veq (ct_plane_normal child) origin /\
              ~ veq (ct_plane_normal child) (mkVector 0 0 (mt_height far_task)))
           (mt_sub_tasks t').
Proof.
  exists (snd (MultiContourTrace_build half_space_host 2 far_task)).
  split; [vm_compute; reflexivity|]. split; [vm_compute; discriminate|].
  vm_compute. repeat constructor; intros (_ & _ & H); discriminate H.
Qed.

(** ** Building twice *)

Lemma Forall2_functional {A B} (R : A -> B -> Prop) (l : list A) (k1 k2 : list B) :
  (forall a b1 b2, R a b1 -> R a b2 -> b1 = b2) ->
  Forall2 R l k1 -> Forall2 R l k2 -> k1 = k2.
Proof.
  intros HR H1. revert k2. induction H1 as [|a b l k1 Hab _ IH]; intros k2 H2.
  - inversion H2. reflexivity.
  - inversion H2; subst. f_equal; [eapply HR; eassumption|apply IH; assumption].
Qed.

(** Building a multi-contour trace a second time appends the same
    sub-tasks a second time. *)
Lemma MultiContourTrace_rebuild_appends (host : Host) (fuel : nat)
    (t t1 t2 : MultiContourTrace) :
  MultiContourTrace_build host fuel t = (Val tt, t1) ->
  MultiContourTrace_build host fuel t1 = (Val tt, t2) ->
  exists built,
    mt_sub_tasks t1 = mt_sub_tasks t ++ built /\
    mt_sub_tasks t2 = mt_sub_tasks t ++ built ++ built /\
    length built = Z.to_nat (mt_cuts t + 1).
Proof.
  intros H1 H2.
  apply MultiContourTrace_build_sub_tasks in H1 as (built & -> & HF1 & Hlen1).
  apply MultiContourTrace_build_sub_tasks in H2 as (built2 & -> & HF2 & Hlen2).
  specialize (Hlen1 eq_refl). specialize (Hlen2 eq_refl).
  cbn [mt_extend_sub_tasks mt_cuts mt_start mt_height mt_sub_tasks] in *.
  rewrite take_ge in HF1 by (rewrite py_range_length; lia).
  rewrite take_ge in HF2 by (rewrite py_range_length; lia).
  assert (E : built2 = built).
  { eapply Forall2_functional; [|exact HF2|exact HF1].
    cbn. intros i b1 b2 Hb1 Hb2.
    unfold new_slice in Hb1, Hb2. cbn in Hb1, Hb2.
    rewrite Hb1 in Hb2. inversion Hb2. reflexivity. }
  subst built2. exists built.
  split; [reflexivity|]. split; [|exact Hlen1].
  rewrite <- app_assoc. reflexivity.
Qed.

(** C2, on the code as it is.  In the half space, one build of a contour
    trace gives one keypoint and a second build gives two; one build of the
    task of main.py gives four sub-tasks and four keypoints, a second build
    gives eight of each.  A rebuild appends to the previous result. *)
Theorem rebuild_appends :
  (exists t1 t2,
     ContourTrace_build half_space_host 2 main_contour = (Val tt, t1) /\
     ContourTrace_build half_space_host 2 t1 = (Val tt, t2) /\
     length (ContourTrace_get_keypoints t1) = 1%nat /\
     length (ContourTrace_get_keypoints t2) = 2%nat /\
     ContourTrace_get_keypoints t2 <> ContourTrace_get_keypoints t1) /\
  (exists t1 t2,
     MultiContourTrace_build half_space_host 2 main_task = (Val tt, t1) /\
     MultiContourTrace_build half_space_host 2 t1 = (Val tt, t2) /\
     length (mt_sub_tasks t1) = 4%nat /\ length (mt_sub_tasks t2) = 8%nat /\
     length (MultiContourTrace_get_keypoints t1) = 4%nat /\
     length (MultiContourTrace_get_keypoints t2) = 8%nat /\
     MultiContourTrace_get_keypoints t2 <> MultiContourTrace_get_keypoints t1).
Proof.
  split.
  - exists (snd (ContourTrace_build half_space_host 2 main_contour)).
    exists (snd (ContourTrace_build half_space_host 2
                   (snd (ContourTrace_build half_space_host 2 main_contour)))).
    split; [vm_compute; reflexivity|]. split; [vm_compute; reflexivity|].
    split; [vm_compute; reflexivity|]. split; [vm_compute; reflexivity|].
    intros E. apply (f_equal length) in E. vm_compute in E. discriminate.
  - exists (snd (MultiContourTrace_build half_space_host 2 main_task)).
    exists (snd (MultiContourTrace_build half_space_host 2
                   (snd (MultiContourTrace_build half_space_host 2 main_task)))).
    split; [vm_compute; reflexivity|]. split; [vm_compute; reflexivity|].
    split; [vm_compute; reflexivity|]. split; [vm_compute; reflexivity|].
    split; [vm_compute; reflexivity|]. split; [vm_compute; reflexivity|].
    intros E. apply (f_equal length) in E. vm_compute in E. discriminate.
Qed.

(** ** Building a job *)

(** The value of [task.build()] is always [None]. *)
Lemma task_build_returns_None (host : Host) (fuel : nat) (t t' : task)
    (ret : option (list keypoint)) :
  task_build host fuel t = (Val ret, t') -> ret = None.
Proof.
  unfold task_build. destruct t as [c|c|m|].
  - destruct (CAMTask_build c) as [[u|e|] c']; cbn; intros H; inversion H; reflexivity.
  - destruct (ContourTrace_build host fuel c) as [[u|e|] c']; cbn; intros H;
      inversion H; reflexivity.
  - destruct (MultiContourTrace_build host fuel m) as [[u|e|] m']; cbn; intros H;
      inversion H; reflexivity.
  - discriminate.
Qed.

(** The loop over the tasks never adds to [self.keypoints]. *)
Lemma build_tasks_keypoints (host : Host) (fuel : nat) (ts ts' : list task)
    (kps kps' : list keypoint) (r : res unit) :
  build_tasks host fuel ts kps = (r, ts', kps') -> kps' = kps.
Proof.
  revert ts' kps kps' r. induction ts as [|t ts IH]; intros ts' kps kps' r H.
  - inversion H. reflexivity.
  - cbn [build_tasks] in H. destruct (has_build t).
    + destruct (task_build host fuel t) as [[ret|e|] t1] eqn:Hb.
      * apply task_build_returns_None in Hb. subst ret.
        destruct (build_tasks host fuel ts kps) as [[r1 ts1] k1] eqn:Hrest.
        inversion H; subst. eapply IH. exact Hrest.
      * inversion H. reflexivity.
      * inversion H. reflexivity.
    + destruct (build_tasks host fuel ts kps) as [[r1 ts1] k1] eqn:Hrest.
      inversion H; subst. eapply IH. exact Hrest.
Qed.

(** However the build of a job ends, its flat keypoint sequence is
    empty. *)
Lemma XYZIJK_Job_build_keypoints (host : Host) (fuel : nat) (job job' : XYZIJK_Job)
    (r : res unit) :
  XYZIJK_Job_build host fuel job = (r, job') ->
  keypoints job' = [] \/ job' = job.
Proof.
  unfold XYZIJK_Job_build.
  destruct (negb _ || negb _).
  - intros H. inversion H. right. reflexivity.
  - destruct (build_tasks host fuel (tasks job) []) as [[r1 ts] kps] eqn:Hb.
    intros H. inversion H; subst. left. cbn.
    eapply build_tasks_keypoints. exact Hb.
Qed.

(** C1, on the code as it is.  The job of main.py builds without error in
    the half space; its task then holds four keypoints, and the job's flat
    keypoint sequence is empty. *)
Theorem job_keypoints_not_aggregated :
  exists job',
    XYZIJK_Job_build half_space_host 2 main_job = (Val tt, job') /\
    length (concat (map task_get_keypoints (tasks job'))) = 4%nat /\
    keypoints job' = [] /\
    keypoints job' <> concat (map task_get_keypoints (tasks job')).
Proof.
  exists (snd (XYZIJK_Job_build half_space_host 2 main_job)).
  split; [vm_compute; reflexivity|]. split; [vm_compute; reflexivity|].
  split; [vm_compute; reflexivity|].
  intros E. apply (f_equal length) in E. vm_compute in E. discriminate.
Qed.




(** ** The mesh-intersection test *)





(** ** Deep copies share nothing *)

Section DeepCopyFresh.

(** [D] is a set of objects that exist before the copy starts, in the
    store [h0]. *)
Variable D : gset loc.
Variable h0 : heap.
Hypothesis D_allocated : D ⊆ dom h0.

Lemma fresh_outside (h : heap) :
  (forall l, l ∈ D -> h !! l = h0 !! l) -> fresh (dom h) ∉ D.
Proof.
  intros Hag Hin. apply (is_fresh (dom h)).
  apply elem_of_dom. rewrite (Hag _ Hin). apply elem_of_dom.
  apply D_allocated. exact Hin.
Qed.

Lemma outside_inv_alloc (h : heap) (m : memo) (x : loc) (o : pyobj) :
  outside_inv D h0 (h, m) ->
  (forall items, o = PyList items -> items = []) ->
  outside_inv D h0 (<[fresh (dom h) := o]> h, <[x := fresh (dom h)]> m).
Proof.
  intros (Hag & Hm & Hcl) Ho.
  pose proof (fresh_outside h Hag) as Hy. unfold outside_inv. cbn [fst snd] in *.
  split; [|split].
  - intros l Hl. rewrite lookup_insert_ne; [apply Hag; exact Hl|].
    intros E. rewrite E in Hy. contradiction.
  - intros x' y'. rewrite lookup_insert. case_decide.
    + intros [= E]. rewrite <- E. exact Hy.
    + apply Hm.
  - intros y' items a Hy'. rewrite lookup_insert. case_decide.
    + intros [= E]. rewrite (Ho items E). intros Ha. inversion Ha.
    + apply Hcl. exact Hy'.
Qed.

Lemma copy_items_outside (copy : loc -> heap * memo -> option (loc * (heap * memo)))
    (y : loc) (items : list loc) (st st' : heap * memo) :
  (forall a s a' s', copy a s = Some (a', s') -> outside_inv D h0 s ->
                     outside_inv D h0 s' /\ a' ∉ D) ->
  y ∉ D ->
  copy_items copy y items st = Some st' ->
  outside_inv D h0 st -> outside_inv D h0 st'.
Proof.
  intros Hcopy Hy. revert st. induction items as [|a items IH]; intros st H Hinv.
  - inversion H; subst. exact Hinv.
  - cbn [copy_items] in H.
    destruct (copy a st) as [[a' [h1 m1]]|] eqn:Ha; [|discriminate].
    destruct (Hcopy _ _ _ _ Ha Hinv) as ((Hag & Hm & Hcl) & Ha').
    cbn [fst snd] in *.
    destruct (h1 !! y) as [[| |acc]|] eqn:Hacc; try discriminate.
    eapply IH; [exact H|].
    split; [|split]; cbn [fst snd].
    + intros l Hl. rewrite lookup_insert_ne; [apply Hag; exact Hl|].
      intros E. rewrite E in Hy. contradiction.
    + exact Hm.
    + intros y' its b Hy'. rewrite lookup_insert. case_decide.
      * intros [= E]. rewrite <- E. intros Hb. apply elem_of_app in Hb as [Hb|Hb].
        -- exact (Hcl y acc b Hy Hacc Hb).
        -- apply list_elem_of_singleton in Hb. subst b. exact Ha'.
      * apply Hcl. exact Hy'.
Qed.

Lemma deepcopy_outside (depth : nat) (x y : loc) (st st' : heap * memo) :
  deepcopy depth x st = Some (y, st') ->
  outside_inv D h0 st -> outside_inv D h0 st' /\ y ∉ D.
Proof.
  revert x y st st'. induction depth as [|depth IH]; intros x y st st' H Hinv;
    [discriminate|].
  cbn [deepcopy] in H. destruct st as [h m]. cbn [fst snd] in H.
  destruct (m !! x) as [y0|] eqn:Hmx.
  - inversion H; subst. split; [exact Hinv|].
    destruct Hinv as (_ & Hm & _). eapply Hm. exact Hmx.
  - pose proof (fresh_outside h (proj1 Hinv)) as Hy.
    destruct (h !! x) as [[v|e|items]|] eqn:Hx; try discriminate.
    + inversion H; subst. split; [|exact Hy].
      apply outside_inv_alloc; [exact Hinv|discriminate].
    + inversion H; subst. split; [|exact Hy].
      apply outside_inv_alloc; [exact Hinv|discriminate].
    + destruct (copy_items _ _ _ _) as [st1|] eqn:Hloop; [|discriminate].
      inversion H; subst. split; [|exact Hy].
      eapply copy_items_outside; [|exact Hy|exact Hloop|].
      * intros a s a' s'. apply IH.
      * apply outside_inv_alloc; [exact Hinv|]. intros its [= <-]. reflexivity.
Qed.

(** Below an object outside [D] there are only objects outside [D]. *)
Lemma reach_outside (st : heap * memo) (y z : loc) :
  outside_inv D h0 st -> y ∉ D -> reach (fst st) y z -> z ∉ D.
Proof.
  intros (_ & _ & Hcl) Hy Hr. induction Hr as [x|x items a z Hx Ha _ IH].
  - exact Hy.
  - apply IH. exact (Hcl x items a Hy Hx Ha).
Qed.

End DeepCopyFresh.

(** ** Deep copies hold the same values *)

Lemma tree_ind_nested (P : tree -> Prop) :
  (forall v, P (TVec v)) -> (forall e, P (TEul e)) ->
  (forall ts, Forall P ts -> P (TList ts)) ->
  forall t, P t.
Proof.
  intros Hv He Hl. fix IH 1. intros [v|e|ts]; [apply Hv|apply He|].
  apply Hl. revert ts. fix IHts 1. intros [|t ts].
  - constructor.
  - constructor; [apply IH|apply IHts].
Qed.

Lemma tsize_item (t : tree) (ts : list tree) : t ∈ ts -> (tsize t < tsize (TList ts))%nat.
Proof.
  cbn [tsize]. induction ts as [|t' ts IH]; intros Hin; [inversion Hin|].
  apply elem_of_cons in Hin as [->|Hin]; cbn [foldr]; [lia|].
  specialize (IH Hin). lia.
Qed.

Lemma tdepth_item (t : tree) (ts : list tree) :
  t ∈ ts -> (tdepth t < tdepth (TList ts))%nat.
Proof.
  cbn [tdepth]. induction ts as [|t' ts IH]; intros Hin; [inversion Hin|].
  apply elem_of_cons in Hin as [->|Hin]; cbn [foldr]; [lia|].
  specialize (IH Hin). lia.
Qed.

Lemma tdepth_pos (t : tree) : (1 <= tdepth t)%nat.
Proof. destruct t; cbn; lia. Qed.

Lemma decode_list_inv (h : heap) (x : loc) (ts : list tree) :
  decode h x (TList ts) ->
  exists items, h !! x = Some (PyList items) /\ Forall2 (decode h) items ts.
Proof. intros H. inversion H; subst. eauto. Qed.

Lemma decode_functional (h : heap) (t : tree) :
  forall x t', decode h x t -> decode h x t' -> t = t'.
Proof.
  induction t as [v|e|ts IH] using tree_ind_nested; intros x t' H H'.
  - inversion H; subst. inversion H'; subst; congruence.
  - inversion H; subst. inversion H'; subst; congruence.
  - apply decode_list_inv in H as (items & Hx & HF).
    inversion H'; subst; try congruence.
    f_equal. rewrite Hx in H. inversion H; subst items0. clear H H' Hx.
    revert ts0 H0. induction HF as [|a t items ts Ha HF IHF]; intros ts0 HF0.
    + inversion HF0. reflexivity.
    + apply Forall2_cons_inv_l in HF0 as (t0 & ts1 & Ha0 & HF1 & ->).
      pose proof (Forall_inv IH) as IHt. pose proof (Forall_inv_tail IH) as IHts.
      f_equal; [exact (IHt a t0 Ha Ha0)|exact (IHF IHts ts1 HF1)].
Qed.

Lemma decode_mono (g g' : heap) (t : tree) :
  g ⊆ g' -> forall x, decode g x t -> decode g' x t.
Proof.
  intros Hsub. induction t as [v|e|ts IH] using tree_ind_nested; intros x H.
  - inversion H; subst. constructor. eapply lookup_weaken; eassumption.
  - inversion H; subst. constructor. eapply lookup_weaken; eassumption.
  - apply decode_list_inv in H as (items & Hx & HF).
    econstructor; [eapply lookup_weaken; eassumption|].
    clear Hx. induction HF as [|a t items ts Ha HF IHF]; constructor.
    + exact (Forall_inv IH a Ha).
    + exact (IHF (Forall_inv_tail IH)).
Qed.

Lemma Forall2_decode_mono (g g' : heap) (items : list loc) (ts : list tree) :
  g ⊆ g' -> Forall2 (decode g) items ts -> Forall2 (decode g') items ts.
Proof.
  intros Hsub HF. induction HF; constructor; [eapply decode_mono; eassumption|assumption].
Qed.

Section DeepCopyValue.

(** [h0] is the store before the copy starts. *)
Variable h0 : heap.

Lemma copy_items_decode (A Y : gset loc)
    (copy : loc -> heap * memo -> option (loc * (heap * memo))) (y : loc)
    (items : list loc) (ts : list tree) :
  y ∈ Y ->
  Forall2 (decode h0) items ts ->
  Forall (copies_well h0 A Y copy) ts ->
  (forall t a t', t ∈ ts -> a ∈ A -> decode h0 a t' -> (tsize t < tsize t')%nat) ->
  forall g h m acc,
    copy_inv h0 A Y g h m -> h !! y = Some (PyList acc) ->
    exists g' h' m' acc',
      copy_items copy y items (h, m) = Some (h', m') /\ copy_inv h0 A Y g' h' m' /\
      (g ⊆ g') /\ (m ⊆ m') /\ h' !! y = Some (PyList (acc ++ acc')) /\
      Forall2 (decode g') acc' ts /\
      (forall y0, y0 ∈ Y -> y0 <> y -> h' !! y0 = h !! y0).
Proof.
  intros Hy HF. induction HF as [|a t items ts Ha HF IH];
    intros Hcopy Hsize g h m acc Hinv Hacc.
  - exists g, h, m, []. cbn [copy_items]. rewrite app_nil_r.
    split; [reflexivity|]. split; [exact Hinv|]. split; [reflexivity|].
    split; [reflexivity|]. split; [exact Hacc|]. split; [constructor|].
    reflexivity.
  - pose proof (Forall_inv Hcopy) as Hcopy_t.
    pose proof (Forall_inv_tail Hcopy) as Hcopy_ts.
    destruct (Hcopy_t a g h m Ha Hinv) as (a' & g1 & h1 & m1 & Hrun & Hinv1 & Hg1 & Hm1 & Hdec & Hkeep).
    { intros b t' Hb. apply Hsize; [apply elem_of_cons; left; reflexivity|exact Hb]. }
    assert (Hacc1 : h1 !! y = Some (PyList acc)) by (rewrite Hkeep; assumption).
    destruct Hinv1 as (Hb1 & Hs1 & HY1 & HM1).
    assert (Hyg : g1 !! y = None).
    { apply not_elem_of_dom. apply HY1. exact Hy. }
    destruct (IH Hcopy_ts) with (g := g1) (h := <[y := PyList (acc ++ [a'])]> h1)
      (m := m1) (acc := acc ++ [a'])
      as (g2 & h2 & m2 & acc' & Hrun2 & Hinv2 & Hg2 & Hm2 & Hacc2 & HF2 & Hkeep2).
    { intros t0 b t' Ht0. apply Hsize. apply elem_of_cons. right. exact Ht0. }
    { split; [exact Hb1|]. split; [apply insert_subseteq_r; assumption|].
      split; [|exact HM1].
      intros y0 Hy0. destruct (HY1 y0 Hy0) as [Hn Hd]. split; [exact Hn|].
      rewrite dom_insert. apply elem_of_union. right. exact Hd. }
    { apply lookup_insert_eq. }
    exists g2, h2, m2, (a' :: acc'). cbn [copy_items]. rewrite Hrun, Hacc1.
    split; [exact Hrun2|]. split; [exact Hinv2|].
    split; [etrans; eassumption|]. split; [etrans; eassumption|].
    split; [rewrite Hacc2, <- app_assoc; reflexivity|].
    split; [constructor; [eapply decode_mono; eassumption|exact HF2]|].
    intros y0 Hy0 Hne. rewrite Hkeep2 by assumption.
    rewrite lookup_insert_ne by congruence. apply Hkeep. exact Hy0.
Qed.

Lemma deepcopy_decode (depth : nat) :
  forall (t : tree) (A Y : gset loc),
    (tdepth t <= depth)%nat -> copies_well h0 A Y (deepcopy depth) t.
Proof.
  induction depth as [|depth IH]; intros t A Y Hd.
  { pose proof (tdepth_pos t). lia. }
  intros x g h m Hx Hinv Hsize.
  destruct Hinv as (Hb & Hs & HY & HM).
  cbn [deepcopy fst snd].
  destruct (m !! x) as [y|] eqn:Hmx.
  { destruct (HM x y Hmx) as [HA|Hdec].
    - specialize (Hsize x t HA Hx). lia.
    - exists y, g, h, m. split; [reflexivity|].
      split; [exact (conj Hb (conj Hs (conj HY HM)))|].
      split; [reflexivity|]. split; [reflexivity|]. split; [apply Hdec; exact Hx|].
      reflexivity. }
  set (y := fresh (dom h)).
  assert (Hyh : h !! y = None) by (apply not_elem_of_dom, is_fresh).
  assert (Hyg : g !! y = None).
  { destruct (g !! y) eqn:E; [|reflexivity].
    rewrite (lookup_weaken _ _ _ _ E Hs) in Hyh. discriminate. }
  assert (HyY : forall y0, y0 ∈ Y -> y0 <> y).
  { intros y0 Hy0 ->. destruct (HY y Hy0) as [_ Hd0].
    apply elem_of_dom in Hd0 as [o Ho]. congruence. }
  assert (Hleaf : forall o,
            h0 !! x = Some o -> (forall items, o <> PyList items) ->
            (forall t', decode h0 x t' -> t' = t) ->
            (forall h1, h1 !! y = Some o -> decode h1 y t) ->
            exists (y' : loc) (g' h' : heap) (m' : memo),
              Some (y, (<[y := o]> h, <[x := y]> m)) = Some (y', (h', m')) /\
              copy_inv h0 A Y g' h' m' /\ (g ⊆ g') /\ (m ⊆ m') /\ decode g' y' t /\
              (forall y0, y0 ∈ Y -> h' !! y0 = h !! y0)).
  { intros o Ho Hnl Hfun Hmk.
    exists y, (<[y := o]> g), (<[y := o]> h), (<[x := y]> m).
    split; [reflexivity|].
    assert (Hgg : g ⊆ <[y := o]> g) by (apply insert_subseteq; exact Hyg).
    split.
    { split; [etrans; eassumption|]. split; [apply insert_mono; exact Hs|].
      split.
      - intros y0 Hy0. destruct (HY y0 Hy0) as [Hn Hd0].
        rewrite !dom_insert. split.
        + intros Hin. apply elem_of_union in Hin as [Hin|Hin]; [|contradiction].
          apply elem_of_singleton in Hin. exact (HyY y0 Hy0 Hin).
        + apply elem_of_union. right. exact Hd0.
      - intros x' y'. rewrite lookup_insert. case_decide.
        + intros [= <-]. subst x'. right. intros t' Ht'.
          rewrite (Hfun t' Ht'). apply Hmk. apply lookup_insert_eq.
        + intros Hm'. destruct (HM x' y' Hm') as [HA|Hdec]; [left; exact HA|].
          right. intros t' Ht'. eapply decode_mono; [exact Hgg|]. apply Hdec. exact Ht'. }
    split; [exact Hgg|]. split; [apply insert_subseteq; exact Hmx|].
    split; [apply Hmk; apply lookup_insert_eq|].
    intros y0 Hy0. apply lookup_insert_ne. intros E. exact (HyY y0 Hy0 (eq_sym E)). }
  assert (Hfun : forall t', decode h0 x t' -> t' = t).
  { intros t' Ht'. eapply decode_functional; eassumption. }
  inversion Hx as [x0 v Hv|x0 e He|x0 items ts Hl HF]; subst x0.
  - subst t. rewrite (lookup_weaken _ _ _ _ (lookup_weaken _ _ _ _ Hv Hb) Hs).
    apply (Hleaf (PyVector v)); [exact Hv|discriminate|exact Hfun|].
    intros h1 Hh1. constructor. exact Hh1.
  - subst t. rewrite (lookup_weaken _ _ _ _ (lookup_weaken _ _ _ _ He Hb) Hs).
    apply (Hleaf (PyEuler e)); [exact He|discriminate|exact Hfun|].
    intros h1 Hh1. constructor. exact Hh1.
  - subst t. rewrite (lookup_weaken _ _ _ _ (lookup_weaken _ _ _ _ Hl Hb) Hs).
    fold y.
    destruct (copy_items_decode ({[x]} ∪ A) ({[y]} ∪ Y) (deepcopy depth) y items ts)
      with (g := g) (h := <[y := PyList []]> h) (m := <[x := y]> m) (acc := @nil loc)
      as (g2 & h2 & m2 & acc' & Hrun & Hinv2 & Hg2 & Hm2 & Hacc2 & HF2 & Hkeep2).
    + apply elem_of_union. left. apply elem_of_singleton. reflexivity.
    + exact HF.
    + apply Forall_forall. intros t Ht. apply IH.
      pose proof (tdepth_item t ts Ht). cbn [tdepth] in *. lia.
    + intros t a t' Ht Ha Ht'. apply elem_of_union in Ha as [Ha|Ha].
      * apply elem_of_singleton in Ha. subst a.
        rewrite (Hfun t' Ht'). apply tsize_item. exact Ht.
      * pose proof (tsize_item t ts Ht). specialize (Hsize a t' Ha Ht'). lia.
    + split; [exact Hb|]. split; [apply insert_subseteq_r; assumption|].
      split.
      * intros y0 Hy0. rewrite dom_insert. apply elem_of_union in Hy0 as [Hy0|Hy0].
        -- apply elem_of_singleton in Hy0. subst y0.
           split; [apply not_elem_of_dom; exact Hyg|].
           apply elem_of_union. left. apply elem_of_singleton. reflexivity.
        -- destruct (HY y0 Hy0) as [Hn Hd0]. split; [exact Hn|].
           apply elem_of_union. right. exact Hd0.
      * intros x' y'. rewrite lookup_insert. case_decide.
        -- intros _. left. apply elem_of_union. left. apply elem_of_singleton. auto.
        -- intros Hm'. destruct (HM x' y' Hm') as [HA|Hdec]; [|right; exact Hdec].
           left. apply elem_of_union. right. exact HA.
    + apply lookup_insert_eq.
    + rewrite Hrun. cbn [app] in Hacc2.
      destruct Hinv2 as (Hb2 & Hs2 & HY2 & HM2).
      assert (Hyg2 : g2 !! y = None).
      { apply not_elem_of_dom. apply HY2. apply elem_of_union. left.
        apply elem_of_singleton. reflexivity. }
      assert (Hgg : g2 ⊆ <[y := PyList acc']> g2) by (apply insert_subseteq; exact Hyg2).
      assert (Hdy : decode (<[y := PyList acc']> g2) y (TList ts)).
      { econstructor; [apply lookup_insert_eq|].
        eapply Forall2_decode_mono; eassumption. }
      exists y, (<[y := PyList acc']> g2), h2, m2.
      split; [reflexivity|]. split.
      { split; [etrans; eassumption|].
        split; [apply insert_subseteq_l; assumption|].
        split.
        - intros y0 Hy0. destruct (HY2 y0) as [Hn Hd0].
          { apply elem_of_union. right. exact Hy0. }
          split; [|exact Hd0]. rewrite dom_insert. intros Hin.
          apply elem_of_union in Hin as [Hin|Hin]; [|contradiction].
          apply elem_of_singleton in Hin. exact (HyY y0 Hy0 Hin).
        - intros x' y' Hm'. destruct (decide (x' = x)) as [->|Hne].
          + right. intros t' Ht'. rewrite (Hfun t' Ht').
            assert (Hxy : m2 !! x = Some y).
            { eapply lookup_weaken; [|exact Hm2]. apply lookup_insert_eq. }
            rewrite Hxy in Hm'. inversion Hm'; subst y'. exact Hdy.
          + destruct (HM2 x' y' Hm') as [HA|Hdec].
            * apply elem_of_union in HA as [HA|HA]; [|left; exact HA].
              apply elem_of_singleton in HA. contradiction.
            * right. intros t' Ht'. eapply decode_mono; [exact Hgg|].
              apply Hdec. exact Ht'. }
      split; [etrans; eassumption|].
      split; [etrans; [|exact Hm2]; apply insert_subseteq; exact Hmx|].
      split; [exact Hdy|].
      intros y0 Hy0. rewrite Hkeep2.
      * apply lookup_insert_ne. intros E. exact (HyY y0 Hy0 (eq_sym E)).
      * apply elem_of_union. right. exact Hy0.
      * exact (HyY y0 Hy0).
Qed.

End DeepCopyValue.

(** ** Keypoint sequences in the store *)

Lemma read_keypoint_decode (h : heap) (p : loc) (k : keypoint) :
  read_keypoint h p = Some k <-> decode h p (tree_of_keypoint k).
Proof.
  unfold read_keypoint, read_vector, read_euler, tree_of_keypoint. split.
  - destruct (h !! p) as [[| |[|a [|b [|c items]]]]|] eqn:Hp; try discriminate.
    destruct (h !! a) as [[v| |]|] eqn:Ha; try discriminate.
    destruct (h !! b) as [[|e|]|] eqn:Hb; try discriminate.
    intros [= <-]. econstructor; [exact Hp|].
    constructor; [constructor; exact Ha|].
    constructor; [constructor; exact Hb|constructor].
  - intros H. apply decode_list_inv in H as (items & Hp & HF).
    apply Forall2_cons_inv_r in HF as (a & items1 & Ha & HF & ->).
    apply Forall2_cons_inv_r in HF as (b & items2 & Hb & HF & ->).
    apply Forall2_nil_inv_r in HF as ->.
    inversion Ha as [x v Hv| |]; subst. inversion Hb as [|x e He|]; subst.
    rewrite Hp, Hv, He. destruct k. reflexivity.
Qed.

Lemma read_keypoints_decode (h : heap) (l : loc) (ks : list keypoint) :
  read_keypoints h l = Some ks <-> decode h l (tree_of_keypoints ks).
Proof.
  unfold read_keypoints, tree_of_keypoints. split.
  - destruct (h !! l) as [[| |ps]|] eqn:Hl; try discriminate.
    intros H. apply mapM_Some in H. econstructor; [exact Hl|].
    apply Forall2_fmap_r. eapply Forall2_impl; [exact H|].
    intros p k Hk. apply read_keypoint_decode. exact Hk.
  - intros H. apply decode_list_inv in H as (ps & Hl & HF). rewrite Hl.
    apply mapM_Some.
    change (map tree_of_keypoint ks) with (tree_of_keypoint <$> ks) in HF.
    rewrite Forall2_fmap_r in HF.
    eapply Forall2_impl; [exact HF|]. cbn.
    intros p k Hk. apply read_keypoint_decode. exact Hk.
Qed.

Lemma tdepth_keypoints (ks : list keypoint) : (tdepth (tree_of_keypoints ks) <= 3)%nat.
Proof.
  unfold tree_of_keypoints. cbn [tdepth]. apply le_n_S.
  induction ks as [|k ks IH]; cbn; lia.
Qed.

Lemma read_keypoint_mono (g h : heap) (p : loc) (k : keypoint) :
  g ⊆ h -> read_keypoint g p = Some k -> read_keypoint h p = Some k.
Proof.
  intros Hsub H. apply read_keypoint_decode. apply read_keypoint_decode in H.
  eapply decode_mono; eassumption.
Qed.

Lemma read_keypoints_mono (g h : heap) (l : loc) (ks : list keypoint) :
  g ⊆ h -> read_keypoints g l = Some ks -> read_keypoints h l = Some ks.
Proof.
  intros Hsub H. apply read_keypoints_decode. apply read_keypoints_decode in H.
  eapply decode_mono; eassumption.
Qed.

(** Assignments to objects that did not exist in [h] do not show in [h]. *)
Lemma mutate_outside (h h' : heap) (ws : list (loc * pyobj)) :
  h ⊆ h' -> Forall (fun w => fst w ∉ dom h) ws -> h ⊆ mutate ws h'.
Proof.
  intros Hsub HF. revert h' Hsub. unfold mutate.
  induction HF as [|w ws Hw _ IH]; intros h' Hsub; [exact Hsub|].
  cbn [foldl]. apply IH. apply insert_subseteq_r; [|exact Hsub].
  apply not_elem_of_dom. exact Hw.
Qed.

(** [CAMTask.get_keypoints] on the store: the copy of a well-formed
    structure exists, holds the same values, and leaves the store it started
    from as it was. *)
Lemma CAMTask_get_keypoints_in_value (depth : nat) (h : heap) (kp : loc) (t : tree) :
  (tdepth t <= depth)%nat -> decode h kp t ->
  exists y h',
    CAMTask_get_keypoints_in depth kp h = Some (y, h') /\ h ⊆ h' /\ decode h' y t.
Proof.
  intros Hd Hdec.
  destruct (deepcopy_decode h depth t ∅ ∅ Hd kp h h ∅ Hdec)
    as (y & g' & h' & m' & Hrun & (Hb & Hs & _ & _) & _ & _ & Hy & _).
  - split; [reflexivity|]. split; [reflexivity|]. split.
    + intros y Hy. apply not_elem_of_empty in Hy. contradiction.
    + intros x y Hm. rewrite lookup_empty in Hm. discriminate.
  - intros a t' Ha. apply not_elem_of_empty in Ha. contradiction.
  - exists y, h'. unfold CAMTask_get_keypoints_in. rewrite Hrun.
    split; [reflexivity|]. split; [etrans; eassumption|].
    eapply decode_mono; eassumption.
Qed.

(** The copy consists of objects outside any set [D] of earlier objects,
    and the objects of [D] stay as they were. *)
Lemma CAMTask_get_keypoints_in_outside (D : gset loc) (h0 : heap) (depth : nat)
    (h h' : heap) (kp y : loc) :
  D ⊆ dom h0 ->
  CAMTask_get_keypoints_in depth kp h = Some (y, h') ->
  outside_inv D h0 (h, ∅) ->
  outside_inv D h0 (h', ∅) /\ y ∉ D.
Proof.
  intros HD H Hinv. unfold CAMTask_get_keypoints_in in H.
  destruct (deepcopy depth kp (h, ∅)) as [[y1 [h1 m1]]|] eqn:Hrun; [|discriminate].
  inversion H; subst.
  destruct (deepcopy_outside D h0 HD _ _ _ _ _ Hrun Hinv) as ((Hag & _ & Hcl) & Hy).
  split; [|exact Hy]. split; [exact Hag|]. split; [|exact Hcl].
  intros x y0 Hm. cbn in Hm. rewrite lookup_empty in Hm. discriminate.
Qed.

Lemma outside_inv_start (h : heap) : outside_inv (dom h) h (h, ∅).
Proof.
  split; [reflexivity|]. split.
  - intros x y Hm. cbn in Hm. rewrite lookup_empty in Hm. discriminate.
  - intros y items a Hy Hl. cbn in Hl. exfalso. apply Hy.
    apply elem_of_dom. eauto.
Qed.

Lemma read_keypoint_delete (h : heap) (p q : loc) (k : keypoint) :
  read_keypoint h p = Some k ->
  p <> q ->
  (forall items a, h !! p = Some (PyList items) -> a ∈ items -> a <> q) ->
  read_keypoint (delete q h) p = Some k.
Proof.
  unfold read_keypoint, read_vector, read_euler. intros H Hp Hitems.
  rewrite lookup_delete_ne by congruence.
  destruct (h !! p) as [[| |[|a [|b [|c items]]]]|] eqn:Hl; try discriminate.
  assert (Ha : a <> q).
  { eapply Hitems; [reflexivity|]. apply elem_of_cons. left. reflexivity. }
  assert (Hb : b <> q).
  { eapply Hitems; [reflexivity|]. apply elem_of_cons. right.
    apply elem_of_cons. left. reflexivity. }
  rewrite !lookup_delete_ne by congruence. exact H.
Qed.

Lemma read_keypoints_delete_all (h : heap) (q : loc) (items : list loc)
    (ks : list keypoint) :
  Forall2 (fun p k => read_keypoint h p = Some k) items ks ->
  (forall p, p ∈ items ->
     p <> q /\ forall its a, h !! p = Some (PyList its) -> a ∈ its -> a <> q) ->
  Forall2 (fun p k => read_keypoint (delete q h) p = Some k) items ks.
Proof.
  induction 1 as [|p k items ks Hk _ IH]; intros Hnew; constructor.
  - destruct (Hnew p) as [Hp Hits]; [apply elem_of_cons; left; reflexivity|].
    apply read_keypoint_delete; assumption.
  - apply IH. intros p' Hp'. apply Hnew. apply elem_of_cons. right. exact Hp'.
Qed.

Section CollectKeypoints.

Variable h0 : heap.
Variable depth : nat.
Variable points : loc.
Hypothesis depth_enough : (3 <= depth)%nat.
Hypothesis points_new : points ∉ dom h0.

(** The loop of [MultiContourTrace.get_keypoints]: the copies of the
    sub-tasks' sequences are appended to [points] in order; nothing that
    existed in [h0] changes, and everything below [points] is new. *)
Lemma collect_keypoints_spec (sub_tasks : list loc) (kss : list (list keypoint)) :
  Forall2 (fun kp ks => read_keypoints h0 kp = Some ks) sub_tasks kss ->
  forall (h : heap) (ps : list loc) (acc : list keypoint),
    outside_inv (dom h0) h0 (h, ∅) ->
    h !! points = Some (PyList ps) ->
    mapM (read_keypoint (delete points h)) ps = Some acc ->
    exists h' ps',
      collect_keypoints depth points sub_tasks h = Some h' /\
      outside_inv (dom h0) h0 (h', ∅) /\
      h' !! points = Some (PyList ps') /\
      mapM (read_keypoint (delete points h')) ps' = Some (acc ++ concat kss).
Proof.
  induction 1 as [|kp ks sub_tasks kss Hkp _ IH]; intros h ps acc Hinv Hps Hacc.
  - exists h, ps. cbn. rewrite app_nil_r. auto.
  - assert (Hsub0 : h0 ⊆ h).
    { apply map_subseteq_spec. intros l o Hl. destruct Hinv as (Hag & _).
      cbn in Hag. rewrite Hag; [exact Hl|]. apply elem_of_dom. eauto. }
    assert (Hdec : decode h kp (tree_of_keypoints ks)).
    { apply read_keypoints_decode. eapply read_keypoints_mono; eassumption. }
    destruct (CAMTask_get_keypoints_in_value depth h kp (tree_of_keypoints ks))
      as (y & h1 & Hrun & Hsub1 & Hy); [|exact Hdec|].
    { pose proof (tdepth_keypoints ks). lia. }
    destruct (CAMTask_get_keypoints_in_outside (dom h0) h0 depth h h1 kp y)
      as ((Hag1 & _ & Hcl1) & Hy0); [reflexivity|exact Hrun|exact Hinv|].
    destruct (CAMTask_get_keypoints_in_outside (dom h) h depth h h1 kp y)
      as ((_ & _ & Hclh) & Hyh); [reflexivity|exact Hrun|apply outside_inv_start|].
    cbn [fst snd] in *.
    apply read_keypoints_decode in Hy. unfold read_keypoints in Hy.
    destruct (h1 !! y) as [[| |items]|] eqn:Hitems; try discriminate.
    assert (Hps1 : h1 !! points = Some (PyList ps)).
    { eapply lookup_weaken; eassumption. }
    assert (Hpin : points ∈ dom h) by (apply elem_of_dom; eauto).
    set (h2 := <[points := PyList (ps ++ items)]> h1).
    destruct (IH h2 (ps ++ items) (acc ++ ks)) as (h' & ps' & Hrun' & Hinv' & Hps' & Hacc').
    + split; [|split]; cbn [fst snd].
      * intros l Hl. unfold h2. rewrite lookup_insert_ne; [apply Hag1; exact Hl|].
        intros E. subst l. contradiction.
      * intros x y1 Hm. rewrite lookup_empty in Hm. discriminate.
      * intros y1 its a Hy1. unfold h2. rewrite lookup_insert. case_decide.
        -- intros [= E]. rewrite <- E. intros Ha. apply elem_of_app in Ha as [Ha|Ha].
           ++ exact (Hcl1 points ps a points_new Hps1 Ha).
           ++ exact (Hcl1 y items a Hy0 Hitems Ha).
        -- apply Hcl1. exact Hy1.
    + apply lookup_insert_eq.
    + unfold h2. rewrite delete_insert_eq. apply mapM_Some.
      apply Forall2_app.
      * apply mapM_Some in Hacc. eapply Forall2_impl; [exact Hacc|].
        intros p k Hk. eapply read_keypoint_mono; [|exact Hk].
        apply delete_mono. exact Hsub1.
      * apply mapM_Some in Hy.
        assert (Hnew : forall p, p ∈ items -> p ∉ dom h).
        { intros p Hp. exact (Hclh y items p Hyh Hitems Hp). }
        apply read_keypoints_delete_all; [exact Hy|].
        intros p Hp. split.
        -- intros E. apply (Hnew p Hp). rewrite E. exact Hpin.
        -- intros its a Hl Ha E.
           apply (Hclh p its a (Hnew p Hp) Hl Ha). rewrite E. exact Hpin.
    + exists h', ps'. cbn [collect_keypoints]. rewrite Hrun.
      unfold list_extend. rewrite Hps1, Hitems. fold h2.
      split; [exact Hrun'|]. split; [exact Hinv'|]. split; [exact Hps'|].
      cbn [concat]. rewrite Hacc', app_assoc. reflexivity.
Qed.

End CollectKeypoints.

(** C9.  Let the store hold a well-formed keypoint sequence at [keypoints]
    and one at each location of [sub_tasks], and let the recursion depth
    allowed be at least 3.  Then [CAMTask.get_keypoints] returns a sequence
    with the same poses, and [MultiContourTrace.get_keypoints] the
    concatenation of the sub-tasks' poses; in both cases every object that
    existed before is unchanged, every object of the returned structure is
    new, and no series of assignments to new objects changes what the task
    holds. *)
Theorem get_keypoints_deep_copy (depth : nat) (h : heap) (keypoints : loc)
    (ks : list keypoint) (sub_tasks : list loc) (kss : list (list keypoint)) :
  (3 <= depth)%nat ->
  read_keypoints h keypoints = Some ks ->
  Forall2 (fun kp ks => read_keypoints h kp = Some ks) sub_tasks kss ->
  (exists y h',
     CAMTask_get_keypoints_in depth keypoints h = Some (y, h') /\
     (h ⊆ h') /\
     read_keypoints h' y = Some ks /\
     (forall z, reach h' y z -> z ∉ dom h) /\
     (forall ws, Forall (fun w => fst w ∉ dom h) ws ->
                 read_keypoints (mutate ws h') keypoints = Some ks)) /\
  (exists y h',
     MultiContourTrace_get_keypoints_in depth sub_tasks h = Some (y, h') /\
     (h ⊆ h') /\
     read_keypoints h' y = Some (concat kss) /\
     (forall z, reach h' y z -> z ∉ dom h) /\
     (forall ws, Forall (fun w => fst w ∉ dom h) ws ->
                 Forall2 (fun kp ks => read_keypoints (mutate ws h') kp = Some ks)
                         sub_tasks kss)).
Proof.
  intros Hdepth Hks Hsubs. split.
  - apply read_keypoints_decode in Hks as Hdec.
    destruct (CAMTask_get_keypoints_in_value depth h keypoints (tree_of_keypoints ks))
      as (y & h' & Hrun & Hsub & Hy); [|exact Hdec|].
    { pose proof (tdepth_keypoints ks). lia. }
    destruct (CAMTask_get_keypoints_in_outside (dom h) h depth h h' keypoints y)
      as (Hinv & Hnew); [reflexivity|exact Hrun|apply outside_inv_start|].
    exists y, h'. split; [exact Hrun|]. split; [exact Hsub|].
    split; [apply read_keypoints_decode; exact Hy|]. split.
    + intros z Hz.
      exact (reach_outside (dom h) h (h', ∅) y z Hinv Hnew Hz).
    + intros ws Hws. eapply read_keypoints_mono; [|exact Hks].
      apply mutate_outside; assumption.
  - unfold MultiContourTrace_get_keypoints_in.
    set (points := fresh (dom h)).
    assert (Hpoints : points ∉ dom h) by apply is_fresh.
    destruct (collect_keypoints_spec h depth points Hdepth Hpoints sub_tasks kss Hsubs
                (<[points := PyList []]> h) [] [])
      as (h' & ps' & Hrun & Hinv & Hps & Hval).
    + split; [|split]; cbn [fst snd].
      * intros l Hl. apply lookup_insert_ne. intros E. subst l. contradiction.
      * intros x y Hm. rewrite lookup_empty in Hm. discriminate.
      * intros y items a Hy. rewrite lookup_insert. case_decide.
        -- intros [= E]. rewrite <- E. intros Ha. inversion Ha.
        -- intros Hl. exfalso. apply Hy. apply elem_of_dom. eauto.
    + apply lookup_insert_eq.
    + reflexivity.
    + assert (Hsub : h ⊆ h').
      { apply map_subseteq_spec. intros l o Hl. destruct Hinv as (Hag & _).
        cbn in Hag. rewrite Hag; [exact Hl|]. apply elem_of_dom. eauto. }
      rewrite Hrun. exists points, h'. split; [reflexivity|]. split; [exact Hsub|].
      split; [|split].
      * unfold read_keypoints. rewrite Hps. cbn [app] in Hval.
        apply mapM_Some. apply mapM_Some in Hval.
        eapply Forall2_impl; [exact Hval|].
        intros p k Hk. eapply read_keypoint_mono; [|exact Hk]. apply delete_subseteq.
      * intros z Hz.
        exact (reach_outside (dom h) h (h', ∅) points z Hinv Hpoints Hz).
      * intros ws Hws. eapply Forall2_impl; [exact Hsubs|].
        intros kp ks0 Hk. eapply read_keypoints_mono; [|exact Hk].
        apply mutate_outside; assumption.
Qed.

(** The sample store: the copies hold the same poses as the originals and
    sit at new locations. *)
Lemma get_keypoints_deep_copy_witness :
  (exists y h',
     CAMTask_get_keypoints_in 3 1%positive sample_store = Some (y, h') /\
     read_keypoints h' y = Some [sample_pose; sample_pose] /\
     y ∉ dom sample_store) /\
  (exists y h',
     MultiContourTrace_get_keypoints_in 3 [1; 6]%positive sample_store = Some (y, h') /\
     read_keypoints h' y = Some [sample_pose; sample_pose; sample_pose] /\
     y ∉ dom sample_store).
Proof.
  destruct (get_keypoints_deep_copy 3 sample_store 1%positive
              [sample_pose; sample_pose] [1; 6]%positive
              [[sample_pose; sample_pose]; [sample_pose]])
    as ((y & h' & Hrun & _ & Hval & Hnew & _) & (y2 & h2 & Hrun2 & _ & Hval2 & Hnew2 & _)).
  - lia.
  - vm_compute. reflexivity.
  - constructor; [vm_compute; reflexivity|].
    constructor; [vm_compute; reflexivity|constructor].
  - split.
    + exists y, h'. split; [exact Hrun|]. split; [exact Hval|].
      apply Hnew. constructor.
    + exists y2, h2. split; [exact Hrun2|]. split; [exact Hval2|].
      apply Hnew2. constructor.
Defined.

(** * Further properties *)

(** ** More on angular unwrapping *)

(** X2.  The remainder [diff % (2*math.pi)] is never negative: it lies
    between 0 and 2*pi.  So the second branch of the loop body,
    [elif diff < -math.pi], is never entered, and the wrapped difference is
    the remainder, less 2*pi when it exceeds pi. *)
Theorem minimize_second_branch_dead (next prev : Q) :
  let m := py_mod (f64 (next - prev)) two_pi in
  0 <= m /\ m <= two_pi /\ ~ m < - math_pi /\
  wrap_diff next prev = (if Qlt_le_dec math_pi m then f64 (m - two_pi) else m).
Proof.
  intros m. pose proof math_pi_pos as Hpi. pose proof two_pi_eq as E2.
  destruct (py_mod_bounds (f64 (next - prev)) two_pi) as [Hlo Hhi];
    [lra|apply f64_two_pi|].
  fold m in Hlo, Hhi.
  split; [exact Hlo|]. split; [exact Hhi|]. split; [lra|].
  unfold wrap_diff. fold m.
  destruct (Qlt_le_dec math_pi m) as [H1|H1]; [reflexivity|].
  destruct (Qlt_le_dec m (- math_pi)) as [H2|H2]; [lra|reflexivity].
Qed.

(** ** More on building a contour trace *)

Lemma ascending_cons {A} (key : A -> Q) (x : A) (l : list A) :
  ascending key (x :: l) <-> (forall b, b ∈ l -> key x <= key b) /\ ascending key l.
Proof.
  unfold ascending. split.
  - intros H. split.
    + intros b Hb. apply list_elem_of_lookup in Hb as (j & Hj).
      apply (H 0%nat (S j) x b); [lia|reflexivity|exact Hj].
    + intros i j a b Hij Ha Hb. apply (H (S i) (S j) a b); [lia|exact Ha|exact Hb].
  - intros (Hx & Hl) i j a b Hij Ha Hb. destruct j as [|j]; [lia|].
    destruct i as [|i].
    + cbn in Ha. inversion Ha; subst. apply Hx.
      apply list_elem_of_lookup. exists j. exact Hb.
    + apply (Hl i j a b); [lia|exact Ha|exact Hb].
Qed.

Lemma insert_by_perm {A} (key : A -> Q) (x : A) (l : list A) :
  insert_by key x l ≡ₚ x :: l.
Proof.
  induction l as [|y l IH]; cbn; [reflexivity|].
  destruct (Qle_bool (key x) (key y)); [reflexivity|].
  rewrite IH. apply perm_swap.
Qed.

Lemma sorted_perm {A} (l : list A) (key : A -> Q) : sorted l key ≡ₚ l.
Proof.
  unfold sorted. induction l as [|x l IH]; cbn; [reflexivity|].
  rewrite insert_by_perm, IH. reflexivity.
Qed.

Lemma insert_by_ascending {A} (key : A -> Q) (x : A) (l : list A) :
  ascending key l -> ascending key (insert_by key x l).
Proof.
  induction l as [|y l IH]; intros Hl; cbn.
  - apply ascending_cons. split; [intros b Hb; inversion Hb|].
    intros i j a b Hij Ha. destruct i; discriminate.
  - apply ascending_cons in Hl as (Hy & Hl).
    destruct (Qle_bool (key x) (key y)) eqn:E.
    + apply Qle_bool_iff in E. apply ascending_cons. split.
      * intros b Hb. apply elem_of_cons in Hb as [->|Hb]; [exact E|].
        specialize (Hy b Hb). lra.
      * apply ascending_cons. split; assumption.
    + assert (Hlt : key y < key x).
      { apply Qnot_le_lt. intros Hle. apply Qle_bool_iff in Hle. congruence. }
      apply ascending_cons. split; [|apply IH; exact Hl].
      intros b Hb. rewrite insert_by_perm in Hb.
      apply elem_of_cons in Hb as [->|Hb]; [lra|exact (Hy b Hb)].
Qed.

Lemma sorted_ascending {A} (l : list A) (key : A -> Q) : ascending key (sorted l key).
Proof.
  unfold sorted. induction l as [|x l IH]; cbn.
  - intros i j a b Hij Ha. destruct i; discriminate.
  - apply insert_by_ascending. exact IH.
Qed.

Lemma unwrap_chain_fst (l : list keypoint) (prev : Euler) :
  map fst (unwrap_chain prev l) = map fst l.
Proof.
  revert prev. induction l as [|k l IH]; intros prev; cbn; [reflexivity|].
  rewrite IH. reflexivity.
Qed.

Lemma minimize_fst (l k : list keypoint) :
  minimize_objects_angular_distance l = Val k -> map fst k = map fst l.
Proof.
  destruct l as [|p l]; intros H.
  - inversion H. reflexivity.
  - rewrite minimize_cons in H. inversion H. cbn. rewrite unwrap_chain_fst. reflexivity.
Qed.

Lemma same_positions_lookup (k l : list keypoint) (n : nat) (c : keypoint) :
  map fst k = map fst l -> k !! n = Some c ->
  exists c', l !! n = Some c' /\ fst c' = fst c.
Proof.
  revert l n. induction k as [|x k IH]; intros l n Hfst Hc; [discriminate|].
  destruct l as [|y l]; [discriminate|]. cbn in Hfst. inversion Hfst as [[Hxy Hrest]].
  destruct n as [|n].
  - cbn in Hc. inversion Hc; subst. exists y. split; [reflexivity|congruence].
  - exact (IH l n Hrest Hc).
Qed.

Lemma ascending_same_positions (host : Host) (l k : list keypoint) :
  map fst k = map fst l ->
  ascending (get_angle_z host) l -> ascending (get_angle_z host) k.
Proof.
  intros Hfst Hl i j a b Hij Ha Hb.
  destruct (same_positions_lookup k l i a Hfst Ha) as (a' & Ha' & Ea).
  destruct (same_positions_lookup k l j b Hfst Hb) as (b' & Hb' & Eb).
  pose proof (Hl i j a' b' Hij Ha' Hb') as H.
  unfold get_angle_z in *. rewrite <- Ea, <- Eb. exact H.
Qed.

(** X4.  After a build of a contour trace that found a contour, the
    keypoints are in ascending order of [atan2(y, x)], and their positions
    are those of the keypoints held before together with the sampled ones,
    none lost and none added. *)
Theorem ContourTrace_build_ordered (host : Host) (fuel : nat) (t t' : ContourTrace)
    (vertices : list Vector) :
  ContourTrace_build host fuel t = (Val tt, t') ->
  contour_after host t = Some vertices ->
  exists ks,
    contour_samples host fuel (ct_TARGET t) 0 vertices = Val ks /\
    ascending (get_angle_z host) (ct_keypoints t') /\
    map fst (ct_keypoints t') ≡ₚ map fst (ct_keypoints t ++ ks).
Proof.
  intros Hb Hc. apply ContourTrace_build_ok in Hb. rewrite Hc in Hb.
  destruct Hb as (ks & k & Hks & Hk & ->). exists ks. split; [exact Hks|].
  cbn [ct_keypoints]. apply minimize_fst in Hk. split.
  - eapply ascending_same_positions; [exact Hk|]. apply sorted_ascending.
  - rewrite Hk. apply Permutation_map. apply sorted_perm.
Qed.

(** A contour of three vertices, sampled out of order: the build puts
    the keypoints in the order of their angles. *)
Lemma ContourTrace_build_ordered_witness :
  (exists ks,
     contour_samples slanted_host 2 TARGET 0 [mkVector (-1) 1 0; mkVector 1 (-1) 0; origin]
       = Val ks /\
     ascending (get_angle_z slanted_host)
       (ct_keypoints (snd (ContourTrace_build slanted_host 2 main_contour))) /\
     map fst (ct_keypoints (snd (ContourTrace_build slanted_host 2 main_contour)))
       ≡ₚ map fst ([] ++ ks)) /\
  map (fun v => (Qred (vx v), Qred (vy v), Qred (vz v)))
    (map fst (ct_keypoints (snd (ContourTrace_build slanted_host 2 main_contour)))) =
    [(1, - (1), 0); (0, 0, 0); (- (1), 1, 0)] /\
  map (fun k => Qred (get_angle_z slanted_host k))
    (ct_keypoints (snd (ContourTrace_build slanted_host 2 main_contour))) =
    [- (2); 0; 2].
Proof.
  split.
  - apply (ContourTrace_build_ordered slanted_host 2 main_contour
             (snd (ContourTrace_build slanted_host 2 main_contour))
             [mkVector (-1) 1 0; mkVector 1 (-1) 0; origin]).
    + vm_compute. reflexivity.
    + reflexivity.
  - split; vm_compute; reflexivity.
Defined.






(** X6.  A new contour trace whose plane cuts nothing builds without error
    and without a single ray cast: whatever the iteration budget, the build
    completes and the task is as it was, with no keypoints and no contour. *)
Theorem ContourTrace_build_no_contour (host : Host) (fuel : nat) (target tool : Object)
    (center plane_normal : Vector) (t : ContourTrace) :
  ContourTrace_init (PyObject target) (PyObject tool) center plane_normal = Val t ->
  bisect_plane host target center plane_normal = None ->
  ContourTrace_build host fuel t = (Val tt, t) /\
  ContourTrace_get_keypoints t = [] /\ ct_contour t = None.
Proof.
  intros Hinit Hb. cbn in Hinit. inversion Hinit; subst t; clear Hinit.
  split; [|split; reflexivity].
  unfold ContourTrace_build, ContourTrace__build, get_contour. monad_simpl.
  cbn [ct_TARGET ct_center ct_plane_normal]. rewrite Hb. reflexivity.
Qed.

(** A scene without geometry. *)
Lemma ContourTrace_build_no_contour_witness :
  ContourTrace_build empty_host 0 main_contour = (Val tt, main_contour) /\
  ContourTrace_get_keypoints main_contour = [] /\ ct_contour main_contour = None.
Proof.
  apply (ContourTrace_build_no_contour empty_host 0 TARGET TOOL origin axis_z main_contour).
  - reflexivity.
  - reflexivity.
Defined.

Lemma vertex_samples_length (host : Host) (fuel : nat) (target : Object) (offset : Q)
    (point : Vector) (ks : list keypoint) :
  vertex_samples host fuel target offset point = Val ks -> (length ks <= 1)%nat.
Proof.
  unfold vertex_samples.
  destruct (probe_loop host fuel target point probe_pairs) as [[r|]| |]; cbn;
    try discriminate.
  - destruct (hit_result r); intros [= <-]; cbn; lia.
  - intros [= <-]. cbn. lia.
Qed.

Lemma sample_loop_prefix (host : Host) (fuel : nat) (offset : Q) (vertices : list Vector)
    (t t' : ContourTrace) (r : res unit) :
  for_each vertices (sample_vertex host fuel offset) t = (r, t') ->
  exists added,
    t' = ct_set_keypoints (ct_keypoints t ++ added) t /\
    (length added <= length vertices)%nat.
Proof.
  revert t. induction vertices as [|v vertices IH]; intros t H.
  - inversion H; subst. exists []. rewrite app_nil_r, ct_set_keypoints_same.
    split; [reflexivity|cbn; lia].
  - rewrite for_each_cons, sample_vertex_spec in H.
    destruct (vertex_samples host fuel (ct_TARGET t) offset v) as [ks| |] eqn:Hv.
    + apply vertex_samples_length in Hv.
      apply IH in H as (added & -> & Hlen).
      exists (ks ++ added). cbn. rewrite app_assoc. split; [reflexivity|].
      rewrite length_app. lia.
    + inversion H; subst. exists []. rewrite app_nil_r, ct_set_keypoints_same.
      split; [reflexivity|cbn; lia].
    + inversion H; subst. exists []. rewrite app_nil_r, ct_set_keypoints_same.
      split; [reflexivity|cbn; lia].
Qed.

(** X7.  However sampling ends (completed, raised, or out of budget), it
    only appends: the keypoints held before are still there, first and in
    order, at most one keypoint was added per vertex of the contour, and
    nothing else of the task changed.  Without a contour it raises
    AttributeError and changes nothing. *)
Theorem sample_for_normals_appends (host : Host) (fuel : nat) (offset : Q)
    (t t' : ContourTrace) (r : res unit) :
  sample_for_normals host fuel offset t = (r, t') ->
  exists added,
    t' = ct_set_keypoints (ct_keypoints t ++ added) t /\
    match ct_contour t with
    | Some vertices => (length added <= length vertices)%nat
    | None => added = [] /\ r = Exc AttributeError
    end.
Proof.
  unfold sample_for_normals. monad_simpl. destruct (ct_contour t) as [vertices|].
  - apply sample_loop_prefix.
  - intros H. inversion H; subst. exists [].
    rewrite app_nil_r, ct_set_keypoints_same. auto.
Qed.

(** Sampling the contour of the half space adds one keypoint. *)
Lemma sample_for_normals_appends_witness :
  exists added,
    snd (sample_for_normals half_space_host 2 0
           (ct_set_contour (Some [origin]) main_contour)) =
    ct_set_keypoints (ct_keypoints (ct_set_contour (Some [origin]) main_contour) ++ added)
      (ct_set_contour (Some [origin]) main_contour) /\
    (length added <= 1)%nat.
Proof.
  apply (sample_for_normals_appends half_space_host 2 0
           (ct_set_contour (Some [origin]) main_contour) _ (Val tt)).
  vm_compute. reflexivity.
Defined.

(** ** More on building a multi-contour trace *)

(** X8.  With [cuts = 0] the build raises ZeroDivisionError before any slice
    is built, and with negative [cuts] it completes without building
    anything; in both cases the task is left as it was. *)
Theorem MultiContourTrace_build_degenerate_cuts (host : Host) (fuel : nat)
    (t : MultiContourTrace) :
  (mt_cuts t = 0%Z ->
   MultiContourTrace_build host fuel t = (Exc ZeroDivisionError, t)) /\
  ((mt_cuts t < 0)%Z -> MultiContourTrace_build host fuel t = (Val tt, t)).
Proof.
  split.
  - apply MultiContourTrace_build_zero_cuts.
  - intros Hneg. rewrite MultiContourTrace_build_unfold by lia.
    unfold py_range. replace (Z.to_nat (mt_cuts t + 1)) with 0%nat by lia.
    reflexivity.
Qed.

Lemma for_each_app {S A} (xs ys : list A) (body : A -> M S unit) (s s' : S) :
  for_each xs body s = (Val tt, s') ->
  for_each (xs ++ ys) body s = for_each ys body s'.
Proof.
  revert s. induction xs as [|x xs IH]; intros s H.
  - inversion H. reflexivity.
  - cbn [app]. rewrite for_each_cons in *.
    destruct (body x s) as [[[]|e|] s1]; try discriminate. apply IH. exact H.
Qed.

(** The loop over slices that build to [built]. *)
Lemma slices_loop_built (host : Host) (fuel : nat) (axis dv : Vector) (slices : list Z)
    (built : list ContourTrace) (t : MultiContourTrace) :
  Forall2 (fun i child =>
             ContourTrace_build host fuel (new_slice t axis dv i) = (Val tt, child))
          slices built ->
  for_each slices (build_slice host fuel axis dv) t =
  (Val tt, mt_extend_sub_tasks built t).
Proof.
  intros HF. revert t HF.
  induction slices as [|i slices IH] in built |- *; intros t HF.
  - inversion HF; subst. rewrite mt_extend_nil. reflexivity.
  - apply Forall2_cons_inv_l in HF as (child & built' & Hc & HF & ->).
    rewrite for_each_cons, build_slice_spec, Hc.
    rewrite (IH built' (mt_append_sub_task child t)); [|exact HF].
    rewrite mt_extend_append. reflexivity.
Qed.

Lemma py_range_split (n k : Z) :
  (0 <= k < n)%Z ->
  py_range n = py_range k ++ k :: drop (S (Z.to_nat k)) (py_range n).
Proof.
  intros Hk. rewrite <- (take_drop_middle (py_range n) (Z.to_nat k) k) at 1
    by (apply py_range_lookup; exact Hk).
  f_equal. unfold py_range.
  change (map Z.of_nat (seq 0 (Z.to_nat n))) with (Z.of_nat <$> seq 0 (Z.to_nat n)).
  rewrite <- fmap_take, take_seq. f_equal. f_equal. lia.
Qed.

(** X9.  When the first [k] slices of a multi-contour trace build and the
    next one does not (it raises, or never ends), the build of the whole ends
    the same way, and the [k] slices built before are kept as sub-tasks: a
    failed build is not undone. *)
Theorem MultiContourTrace_build_incomplete (host : Host) (fuel : nat)
    (t : MultiContourTrace) (k : Z) (built : list ContourTrace)
    (r : res unit) (c : ContourTrace) :
  (0 <= k <= mt_cuts t)%Z -> (1 <= mt_cuts t)%Z ->
  Forall2 (fun i child =>
             ContourTrace_build host fuel
               (new_slice t (slice_axis (mt_start t) (mt_height t))
                  (slice_step (mt_start t) (mt_height t) (mt_cuts t)) i)
             = (Val tt, child))
          (py_range k) built ->
  ContourTrace_build host fuel
    (new_slice t (slice_axis (mt_start t) (mt_height t))
       (slice_step (mt_start t) (mt_height t) (mt_cuts t)) k) = (r, c) ->
  r <> Val tt ->
  MultiContourTrace_build host fuel t = (r, mt_extend_sub_tasks built t) /\
  length (mt_sub_tasks (mt_extend_sub_tasks built t)) =
    (length (mt_sub_tasks t) + Z.to_nat k)%nat.
Proof.
  intros Hk Hcuts HF Hfail Hr. split.
  - rewrite MultiContourTrace_build_unfold by lia.
    rewrite (py_range_split (mt_cuts t + 1) k) by lia.
    rewrite (for_each_app _ _ _ _ _ (slices_loop_built host fuel _ _ _ _ t HF)).
    rewrite for_each_cons, build_slice_spec.
    change (new_slice (mt_extend_sub_tasks built t)) with (new_slice t).
    rewrite Hfail. destruct r as [[]|e|]; [contradiction|reflexivity|reflexivity].
  - cbn. rewrite length_app. apply Forall2_length in HF.
    rewrite py_range_length in HF. lia.
Qed.

(** The task of main.py where every ray above height 1/4 reports a hit: the
    slices at the heights 0 and 0.1667 are built, the one at 0.3333 never
    ends. *)
Lemma MultiContourTrace_build_incomplete_witness :
  MultiContourTrace_build looping_above_host 5 main_task =
    (Div, mt_extend_sub_tasks
            [snd (ContourTrace_build looping_above_host 5
                    (new_slice main_task (slice_axis origin (1 # 2))
                       (slice_step origin (1 # 2) 3) 0));
             snd (ContourTrace_build looping_above_host 5
                    (new_slice main_task (slice_axis origin (1 # 2))
                       (slice_step origin (1 # 2) 3) 1))]
            main_task) /\
  length (mt_sub_tasks
            (mt_extend_sub_tasks
               [snd (ContourTrace_build looping_above_host 5
                       (new_slice main_task (slice_axis origin (1 # 2))
                          (slice_step origin (1 # 2) 3) 0));
                snd (ContourTrace_build looping_above_host 5
                       (new_slice main_task (slice_axis origin (1 # 2))
                          (slice_step origin (1 # 2) 3) 1))]
               main_task)) = (0 + 2)%nat.
Proof.
  apply (MultiContourTrace_build_incomplete looping_above_host 5 main_task 2 _ Div
           (snd (ContourTrace_build looping_above_host 5
                   (new_slice main_task (slice_axis origin (1 # 2))
                      (slice_step origin (1 # 2) 3) 2)))).
  - cbn. lia.
  - cbn. lia.
  - constructor; [vm_compute; reflexivity|].
    constructor; [vm_compute; reflexivity|constructor].
  - vm_compute. reflexivity.
  - discriminate.
Defined.

(** ** More on the geometry queries *)

(** X10.  The parity test stops at the first axis with an even number of
    crossings: if the count along X is even, the point is reported outside
    as soon as the budget covers that count, whatever the rays along Y and Z
    would do, even if their loops would never end. *)
Theorem pointInsideMesh_even_x (host : Host) (fuel : nat) (point : Vector)
    (object : Object) (cx : nat) :
  crossings host object axis_x point cx -> Nat.Even cx -> (cx < fuel)%nat ->
  pointInsideMesh host fuel point object = Val false.
Proof.
  intros Hx He Hf. unfold pointInsideMesh, axes. cbn [axes_loop].
  rewrite (count_crossings_complete host object axis_x point cx Hx fuel 0%nat Hf).
  monad_simpl. cbn [res_bind]. apply Nat.even_spec in He. cbn [Nat.add].
  rewrite He. reflexivity.
Qed.

(** Rays along X miss, all others hit for ever: the test still answers. *)
Lemma pointInsideMesh_even_x_witness :
  pointInsideMesh x_open_host 1 origin TARGET = Val false /\
  count_crossings x_open_host 1 TARGET axis_y origin 0 = Div.
Proof.
  split; [|reflexivity].
  apply (pointInsideMesh_even_x x_open_host 1 origin TARGET 0).
  - apply crossings_miss. reflexivity.
  - exists 0%nat. reflexivity.
  - lia.
Defined.

(** X12.  When the two meshes have different numbers of edges, the
    mesh-intersection test does not depend on the order of its arguments: in
    both orders the rays run along the edges of the mesh with fewer edges and
    are cast against the other. *)
Theorem bmesh_check_intersect_symmetric (host : Host) (obj obj2 : Object) :
  length (bm_edges host (bmesh_of_object host obj)) <>
  length (bm_edges host (bmesh_of_object host obj2)) ->
  bmesh_check_intersect_objects host obj obj2 =
  bmesh_check_intersect_objects host obj2 obj.
Proof.
  intros Hlen. unfold bmesh_check_intersect_objects, bmesh_copy_from_object.
  destruct (decide (obj = obj2)) as [E|E]; [subst; contradiction|].
  rewrite (decide_False (P := obj2 = obj)) by congruence.
  destruct (ob_is_mesh obj), (ob_is_mesh obj2); monad_simpl; cbn [res_bind];
    try reflexivity.
  unfold simpler_first.
  destruct (Nat.ltb_spec (length (bm_edges host (bmesh_of_object host obj2)))
              (length (bm_edges host (bmesh_of_object host obj)))) as [H1|H1];
  destruct (Nat.ltb_spec (length (bm_edges host (bmesh_of_object host obj)))
              (length (bm_edges host (bmesh_of_object host obj2)))) as [H2|H2];
    try reflexivity; lia.
Qed.

(** The one-edge tool and the two-edge target in the half space. *)
Lemma bmesh_check_intersect_symmetric_witness :
  bmesh_check_intersect_objects two_mesh_host TOOL TARGET =
  bmesh_check_intersect_objects two_mesh_host TARGET TOOL.
Proof.
  apply (bmesh_check_intersect_symmetric two_mesh_host TOOL TARGET).
  vm_compute. discriminate.
Defined.

(** ** More on building a job *)

Lemma build_tasks_complete (host : Host) (fuel : nat) (ts ts' : list task)
    (kps kps' : list keypoint) :
  build_tasks host fuel ts kps = (Val tt, ts', kps') ->
  Forall2 (builds_to host fuel) ts ts'.
Proof.
  revert ts' kps kps'. induction ts as [|t ts IH]; intros ts' kps kps' H.
  - inversion H. constructor.
  - cbn [build_tasks] in H. destruct (has_build t) eqn:Hh.
    + destruct (task_build host fuel t) as [[ret|e|] t1] eqn:Hb; try discriminate.
      destruct (build_tasks host fuel ts _) as [[r1 ts1] k1] eqn:Hrest.
      inversion H; subst. constructor.
      * unfold builds_to. rewrite Hh. eauto.
      * eapply IH. exact Hrest.
    + destruct (build_tasks host fuel ts kps) as [[r1 ts1] k1] eqn:Hrest.
      inversion H; subst. constructor.
      * unfold builds_to. rewrite Hh. reflexivity.
      * eapply IH. exact Hrest.
Qed.



(** Building a task does not change what kind of object it is. *)
Lemma task_build_kind (host : Host) (fuel : nat) (t t1 : task)
    (r : res (option (list keypoint))) :
  task_build host fuel t = (r, t1) -> has_build t1 = has_build t.
Proof.
  unfold task_build. destruct t as [c|c|m|].
  - destruct (CAMTask_build c). intros H; inversion H; reflexivity.
  - destruct (ContourTrace_build host fuel c). intros H; inversion H; reflexivity.
  - destruct (MultiContourTrace_build host fuel m). intros H; inversion H; reflexivity.
  - intros H; inversion H; reflexivity.
Qed.

(** The loop over the tasks, with and without the objects that have no
    [build] method. *)
Lemma build_tasks_filter (host : Host) (fuel : nat) (ts : list task)
    (kps : list keypoint) :
  exists ts',
    build_tasks host fuel ts kps =
      (fst (fst (build_tasks host fuel (List.filter has_build ts) kps)), ts',
       snd (build_tasks host fuel (List.filter has_build ts) kps)) /\
    List.filter has_build ts' =
      snd (fst (build_tasks host fuel (List.filter has_build ts) kps)) /\
    List.filter (fun t => negb (has_build t)) ts' =
      List.filter (fun t => negb (has_build t)) ts /\
    length ts' = length ts.
Proof.
  revert kps. induction ts as [|t ts IH]; intros kps.
  - exists []. repeat split; reflexivity.
  - cbn [build_tasks List.filter]. destruct (has_build t) eqn:Hh; cbn [negb].
    + cbn [build_tasks]. rewrite Hh.
      destruct (task_build host fuel t) as [[ret|e|] t1] eqn:Hb.
      * assert (Ht1 : has_build t1 = true).
        { rewrite (task_build_kind host fuel t t1 _ Hb). exact Hh. }
        set (kps1 := match ret with Some (k :: ks) => kps ++ k :: ks | _ => kps end).
        destruct (IH kps1) as (ts' & Hrun & Hf & Hn & Hlen).
        exists (t1 :: ts'). rewrite Hrun.
        destruct (build_tasks host fuel (List.filter has_build ts) kps1) as [[r2 ts2] k2].
        cbn [fst snd List.filter length] in *. rewrite Ht1. cbn [negb].
        repeat split; congruence.
      * assert (Ht1 : has_build t1 = true).
        { rewrite (task_build_kind host fuel t t1 _ Hb). exact Hh. }
        exists (t1 :: ts). cbn [fst snd List.filter length]. rewrite Ht1. cbn [negb].
        repeat split; reflexivity.
      * assert (Ht1 : has_build t1 = true).
        { rewrite (task_build_kind host fuel t t1 _ Hb). exact Hh. }
        exists (t1 :: ts). cbn [fst snd List.filter length]. rewrite Ht1. cbn [negb].
        repeat split; reflexivity.
    + destruct (IH kps) as (ts' & Hrun & Hf & Hn & Hlen).
      exists (t :: ts'). rewrite Hrun.
      destruct (build_tasks host fuel (List.filter has_build ts) kps) as [[r2 ts2] k2].
      cbn [fst snd List.filter length] in *. rewrite Hh. cbn [negb].
      repeat split; congruence.
Qed.

(** X14.  Objects in a job's task list that have no [build] method are
    passed over: the loop over the tasks ends the same way as on the tasks
    alone and leaves the tasks in the same states, and the other objects
    stay in the list, unchanged and in their places. *)
Theorem build_tasks_skips_non_tasks (host : Host) (fuel : nat) (ts ts1 : list task)
    (kps kps1 : list keypoint) (r : res unit) :
  build_tasks host fuel (List.filter has_build ts) kps = (r, ts1, kps1) ->
  exists ts',
    build_tasks host fuel ts kps = (r, ts', kps1) /\
    List.filter has_build ts' = ts1 /\
    List.filter (fun t => negb (has_build t)) ts' =
      List.filter (fun t => negb (has_build t)) ts /\
    length ts' = length ts.
Proof.
  intros H. destruct (build_tasks_filter host fuel ts kps) as (ts' & Hrun & Hf & Hn & Hlen).
  rewrite H in Hrun, Hf. exists ts'. auto.
Qed.

(** The failing job with an object that is no task put first. *)
Lemma build_tasks_skips_non_tasks_witness :
  exists ts',
    build_tasks half_space_host 2 (NotATask :: tasks failing_job) [] =
      (Exc NotImplementedError, ts', []) /\
    List.filter has_build ts' =
      [TaskContour (snd (ContourTrace_build half_space_host 2 main_contour));
       TaskBase base_task; TaskMulti main_task] /\
    List.filter (fun t => negb (has_build t)) ts' =
      List.filter (fun t => negb (has_build t)) (NotATask :: tasks failing_job) /\
    length ts' = length (NotATask :: tasks failing_job).
Proof.
  apply (build_tasks_skips_non_tasks half_space_host 2 (NotATask :: tasks failing_job)).
  vm_compute. reflexivity.
Defined.

(** ** The reachability filter *)

Lemma reachable_loop_sublist (place_tool : Host -> Object -> Vector -> Euler -> Host)
    (kps : list keypoint) :
  forall (host host' : Host) (tool target : Object) (marks out : list keypoint),
    reachable_loop place_tool host tool target kps marks = (Val out, host') ->
    exists kept, out = marks ++ kept /\ kept `sublist_of` kps.
Proof.
  induction kps as [|[location rotation_euler] kps IH];
    intros host host' tool target marks out H.
  - inversion H; subst. exists []. rewrite app_nil_r. split; [reflexivity|constructor].
  - cbn [reachable_loop] in H.
    destruct (bmesh_check_intersect_objects _ tool target) as [[|]|e|]; try discriminate.
    + apply IH in H as (kept & -> & Hs). exists kept. split; [reflexivity|].
      apply sublist_cons. exact Hs.
    + apply IH in H as (kept & -> & Hs). exists ((location, rotation_euler) :: kept).
      rewrite <- app_assoc. split; [reflexivity|]. apply sublist_skip. exact Hs.
Qed.

(** X15.  The reachability filter only ever drops keypoints: when it
    completes, the keypoints left are a subsequence of the ones held before,
    in the same order; when it raises, the task's keypoints are as they
    were.  With no keypoints it completes and leaves none. *)
Theorem remove_unreachable_keypoints_filters
    (place_tool : Host -> Object -> Vector -> Euler -> Host) (host host' : Host)
    (self self' : CAMTask) (r : res unit) :
  remove_unreachable_keypoints place_tool host self = (r, self', host') ->
  (r = Val tt -> cam_keypoints self' `sublist_of` cam_keypoints self) /\
  (r <> Val tt -> cam_keypoints self' = cam_keypoints self) /\
  (cam_keypoints self = [] -> r = Val tt /\ cam_keypoints self' = []).
Proof.
  unfold remove_unreachable_keypoints.
  destruct (reachable_loop place_tool host (cam_TOOL self) (cam_TARGET self)
              (cam_keypoints self) []) as [[marks|e|] h1] eqn:Hloop;
    intros H; inversion H; subst; clear H; cbn [cam_keypoints].
  - apply reachable_loop_sublist in Hloop as Hs. destruct Hs as (kept & -> & Hs).
    split; [intros _; exact Hs|].
    split; [intros Hr; contradiction|].
    intros Hnil. rewrite Hnil in Hloop. cbn in Hloop. inversion Hloop; subst.
    split; reflexivity.
  - split; [discriminate|]. split; [reflexivity|].
    intros Hnil. rewrite Hnil in Hloop. discriminate.
  - split; [discriminate|]. split; [reflexivity|].
    intros Hnil. rewrite Hnil in Hloop. discriminate.
Qed.

(** Two poses, the first of which puts the tool across the boundary of the
    half space: the second one is kept. *)
Lemma remove_unreachable_keypoints_filters_witness :
  fst (fst (remove_unreachable_keypoints sample_place_tool clear_host two_pose_task))
    = Val tt /\
  cam_keypoints
    (snd (fst (remove_unreachable_keypoints sample_place_tool clear_host two_pose_task)))
    = [(mkVector 1 0 0, mkEuler 0 0 0)] /\
  cam_keypoints
    (snd (fst (remove_unreachable_keypoints sample_place_tool clear_host two_pose_task)))
    `sublist_of` cam_keypoints two_pose_task.
Proof.
  split; [reflexivity|]. split; [reflexivity|].
  apply (remove_unreachable_keypoints_filters sample_place_tool clear_host
           (snd (remove_unreachable_keypoints sample_place_tool clear_host two_pose_task))
           two_pose_task _ (Val tt)).
  - reflexivity.
  - reflexivity.
Defined.

Lemma bmesh_check_intersect_asserts (host : Host) (obj obj2 : Object) :
  obj = obj2 \/ ob_is_mesh obj = false \/ ob_is_mesh obj2 = false ->
  bmesh_check_intersect_objects host obj obj2 = Exc AssertionError.
Proof.
  intros Hbad. unfold bmesh_check_intersect_objects, bmesh_copy_from_object.
  destruct (decide (obj = obj2)) as [E|E]; [reflexivity|].
  destruct (ob_is_mesh obj); monad_simpl; cbn [res_bind]; [|reflexivity].
  destruct (ob_is_mesh obj2); cbn [res_bind]; [|reflexivity].
  destruct Hbad as [H|[H|H]]; [contradiction|discriminate|discriminate].
Qed.

(** X16.  If the tool is the target, or one of them is not a mesh, the
    reachability filter raises AssertionError at the first keypoint and the
    task keeps all its keypoints. *)
Theorem remove_unreachable_keypoints_asserts
    (place_tool : Host -> Object -> Vector -> Euler -> Host) (host : Host)
    (self : CAMTask) :
  cam_keypoints self <> [] ->
  cam_TOOL self = cam_TARGET self \/ ob_is_mesh (cam_TOOL self) = false \/
    ob_is_mesh (cam_TARGET self) = false ->
  fst (remove_unreachable_keypoints place_tool host self) = (Exc AssertionError, self).
Proof.
  intros Hne Hbad. unfold remove_unreachable_keypoints.
  destruct (cam_keypoints self) as [|[location rotation_euler] kps]; [contradiction|].
  cbn [reachable_loop].
  set (h := place_tool host (cam_TOOL self) location rotation_euler).
  pose proof (bmesh_check_intersect_asserts h (cam_TOOL self) (cam_TARGET self) Hbad)
    as Hexc.
  rewrite Hexc. reflexivity.
Qed.

Lemma remove_unreachable_keypoints_asserts_witness :
  fst (remove_unreachable_keypoints sample_place_tool clear_host self_tool_task) =
  (Exc AssertionError, self_tool_task).
Proof.
  apply (remove_unreachable_keypoints_asserts sample_place_tool clear_host self_tool_task).
  - discriminate.
  - left. reflexivity.
Defined.

(** ** Animating a job *)






(** ** What a build leaves alone *)

(** X20.  However the build of a multi-contour trace ends, it only appends
    sub-tasks: the sub-tasks held before stay first, at most [cuts + 1] are
    added (exactly that many when the build completes), each for the task's
    own target and tool, and no other attribute of the task changes; its own
    [_keypoints] in particular is never written. *)
Theorem MultiContourTrace_build_only_appends (host : Host) (fuel : nat)
    (t t' : MultiContourTrace) (r : res unit) :
  MultiContourTrace_build host fuel t = (r, t') ->
  exists built,
    t' = mt_extend_sub_tasks built t /\
    mt_keypoints t' = mt_keypoints t /\
    (length built <= Z.to_nat (mt_cuts t + 1))%nat /\
    (r = Val tt -> length built = Z.to_nat (mt_cuts t + 1)) /\
    Forall (fun c => ct_TARGET c = mt_TARGET t /\ ct_TOOL c = mt_TOOL t) built.
Proof.
  intros H. apply MultiContourTrace_build_sub_tasks in H as (built & -> & HF & Hlen).
  exists built. split; [reflexivity|]. split; [reflexivity|]. split; [|split; [exact Hlen|]].
  - apply Forall2_length in HF. rewrite length_take, py_range_length in HF. lia.
  - clear Hlen. induction HF as [|i c slices built Hb _ IH]; constructor; [|exact IH].
    apply ContourTrace_build_frame in Hb as (Htg & Htl & _). cbn in Htg, Htl. auto.
Qed.

(** The task of main.py where the third slice never ends: two sub-tasks
    were appended. *)
Lemma MultiContourTrace_build_only_appends_witness :
  exists built,
    snd (MultiContourTrace_build looping_above_host 5 main_task) =
      mt_extend_sub_tasks built main_task /\
    mt_keypoints (snd (MultiContourTrace_build looping_above_host 5 main_task)) =
      mt_keypoints main_task /\
    (length built <= Z.to_nat (mt_cuts main_task + 1))%nat /\
    (Div = Val tt -> length built = Z.to_nat (mt_cuts main_task + 1)) /\
    Forall (fun c => ct_TARGET c = mt_TARGET main_task /\ ct_TOOL c = mt_TOOL main_task)
           built.
Proof.
  apply (MultiContourTrace_build_only_appends looping_above_host 5 main_task
           (snd (MultiContourTrace_build looping_above_host 5 main_task)) Div).
  vm_compute. reflexivity.
Defined.

(** X21.  A job that holds a plain [CAMTask], whose [_build] is not
    overridden, cannot be built: its build never completes. *)
Theorem job_with_plain_task_fails (host : Host) (fuel : nat) (job job' : XYZIJK_Job)
    (c : CAMTask) :
  TaskBase c ∈ tasks job ->
  XYZIJK_Job_build host fuel job <> (Val tt, job').
Proof.
  intros Hin Hrun. unfold XYZIJK_Job_build in Hrun.
  destruct (negb _ || negb _); [discriminate|].
  destruct (build_tasks host fuel (tasks job) []) as [[r ts] kps] eqn:Hb.
  inversion Hrun; subst. apply build_tasks_complete in Hb.
  apply list_elem_of_lookup in Hin as (i & Hi).
  destruct (Forall2_lookup_l _ _ _ i _ Hb Hi) as (t' & _ & Hbuilt).
  unfold builds_to in Hbuilt. cbn in Hbuilt. destruct Hbuilt as (ret & Hret).
  discriminate.
Qed.

Lemma job_with_plain_task_fails_witness :
  XYZIJK_Job_build half_space_host 2 failing_job <> (Val tt, failing_job).
Proof.
  apply (job_with_plain_task_fails half_space_host 2 failing_job failing_job base_task).
  apply elem_of_cons. right. apply elem_of_cons. left. reflexivity.
Defined.
